(** * LambdaGlueJobSuccess: the completion handler of the S3 data pipeline

    A shallow embedding of [src/lambdas/LambdaGlueJobSuccess/index.py].

    The handler is one Python function, [lambda_handler], that talks to two
    service clients (Glue and Athena), sleeps between polls and writes log
    records.  It is embedded as a function in a small state-and-exception
    monad whose state is the chronological trace of everything the handler
    did to the outside world; the answers of the services are given by an
    oracle that may depend on the whole trace so far.  The two [while True]
    loops take a fuel argument, and every statement about a run that
    finishes is proved for all sufficiently large fuels.

    The handler is embedded twice: first with services that answer every
    call, then, in [Faulty], with services whose calls can raise.  The
    two are shown to agree when no call raises. *)

From Stdlib Require Import String Ascii ZArith Lia Bool List.
From stdpp Require Import base option list gmap strings.
Import ListNotations.

#[local] Set Warnings "-register-all".
Local Open Scope Z_scope.

(** ** Python values and strings *)

Module Py.

(** The values a JSON event can hold once Lambda has decoded it.  A
    [PDict] keeps its items as an association list; a key is looked up
    from the front. *)
Inductive value : Type :=
| PNone
| PBool (b : bool)
| PInt (z : Z)
| PStr (s : string)
| PList (l : list value)
| PDict (d : list (string * value)).

(** The exceptions the handler itself can raise. *)
Inductive exn : Type :=
| AttributeError      (* [.get] on something that is not a dict *)
| TypeError           (* [in] on a value that is not a container *)
| KeyError (k : string). (* [os.environ[k]] on a missing variable *)

(** [needle in hay] for two [str]: substring membership, character by
    character (so it is case-sensitive). *)
Fixpoint contains (needle hay : string) : bool :=
  String.prefix needle hay ||
  match hay with
  | EmptyString => false
  | String _ hay' => contains needle hay'
  end.

Fixpoint assoc (k : string) (d : list (string * value)) : option value :=
  match d with
  | [] => None
  | (k', v) :: d' => if String.eqb k k' then Some v else assoc k d'
  end.

(** [x == PStr s] as Python decides it between JSON values. *)
Definition eq_str (s : string) (x : value) : bool :=
  match x with
  | PStr s' => String.eqb s s'
  | _ => false
  end.

(** [obj.get(key, default)]: only a dict has the method. *)
Definition get (obj : value) (key : string) (dflt : value) : exn + value :=
  match obj with
  | PDict d => inr (default dflt (assoc key d))
  | _ => inl AttributeError
  end.

End Py.

Import Py.

(** ** The outside world *)

(** The logging levels the handler uses. *)
Inductive level : Type := INFO | WARNING | ERROR.

(** The part of a Glue table description the handler reads. *)
Record Table : Type := { Name : string }.

(** [q['QueryExecution']['Status']]: the state of a query run and, when the
    service gives one, the reason of its last state change. *)
Record QueryStatus : Type := {
  State : string;
  StateChangeReason : option string
}.

(** What the handler does to the outside world, each call with the answer
    it got.  A log record keeps the format string and its arguments, as
    [logging] does. *)
Inductive effect : Type :=
| StartCrawler (name : string)
| GetCrawler (name : string) (state : string)
| Sleep (seconds : Z)
| GetTables (database expression : string) (table_list : option (list Table))
| StartQueryExecution (query database output_location : string) (qid : string)
| GetQueryExecution (qid : string) (status : QueryStatus)
| Log (lvl : level) (msg : string) (args : list value).

(** Effects in the order in which they happened. *)
Definition trace : Type := list effect.

(** The answers of Glue and Athena.  Each may depend on everything that
    happened before the call.  The services are taken to answer every call
    with a response of the documented shape. *)
Record services : Type := {
  crawler_state : trace -> string -> string;
  table_list : trace -> string -> string -> option (list Table);
  query_execution_id : trace -> string -> string -> string -> string;
  query_status : trace -> string -> QueryStatus
}.

(** ** The monad of the handler *)

Inductive outcome (A : Type) : Type :=
| Done (a : A) (tr : trace)          (* ran to completion *)
| Raised (e : exn) (tr : trace)      (* an exception left the handler *)
| OutOfFuel (tr : trace).            (* still looping when the fuel ended *)

Arguments Done {A} a tr.
Arguments Raised {A} e tr.
Arguments OutOfFuel {A} tr.

Definition trace_of {A : Type} (o : outcome A) : trace :=
  match o with
  | Done _ tr | Raised _ tr | OutOfFuel tr => tr
  end.

Definition M (A : Type) : Type := trace -> outcome A.

Definition ret {A : Type} (a : A) : M A := fun tr => Done a tr.

Definition bind {A B : Type} (m : M A) (k : A -> M B) : M B :=
  fun tr =>
    match m tr with
    | Done a tr' => k a tr'
    | Raised e tr' => Raised e tr'
    | OutOfFuel tr' => OutOfFuel tr'
    end.

Definition raise {A : Type} (e : exn) : M A := fun tr => Raised e tr.

Definition diverge {A : Type} : M A := fun tr => OutOfFuel tr.

(** Perform one effect whose answer is [a]. *)
Definition perform {A : Type} (a : A) (e : effect) : M A :=
  fun tr => Done a (tr ++ [e]).

(** Ask the oracle, given the trace so far, and record call and answer. *)
Definition call {A : Type} (answer : trace -> A) (e : A -> effect) : M A :=
  fun tr => let a := answer tr in Done a (tr ++ [e a]).

Definition lift {A : Type} (r : exn + A) : M A :=
  match r with
  | inl e => raise e
  | inr a => ret a
  end.

Declare Scope py_scope.
Delimit Scope py_scope with py.
Notation "x <- c ;; k" := (bind c (fun x => k))
  (at level 100, c at next level, right associativity) : py_scope.
Notation "c ;; k" := (bind c (fun _ => k))
  (at level 100, right associativity) : py_scope.
Local Open Scope py_scope.

Definition log (lvl : level) (msg : string) (args : list value) : M unit :=
  perform tt (Log lvl msg args).

Definition sleep (seconds : Z) : M unit := perform tt (Sleep seconds).

(** [needle in container]: substring of a [str], element of a list, key of
    a dict; any other JSON value is not iterable. *)
Definition py_in (needle : string) (container : value) : M bool :=
  match container with
  | PStr s => ret (contains needle s)
  | PList l => ret (existsb (eq_str needle) l)
  | PDict d => ret (bool_decide (is_Some (assoc needle d)))
  | PNone | PBool _ | PInt _ => raise TypeError
  end.

(** ** The handler *)

(** The process environment and the two module-level constants that
    [index.py] reads from it when the module is imported. *)
Record globals : Type := {
  environ : gmap string string;
  ATHENA_OUTPUT_BUCKET : string;
  GLUE_DATABASE : string
}.

(** Lines 12-13: importing the module fails when a variable is missing. *)
Definition load_module (env : gmap string string) : exn + globals :=
  match env !! "ATHENA_OUTPUT_BUCKET"%string, env !! "GLUE_DATABASE"%string with
  | Some bucket, Some database =>
      inr {| environ := env; ATHENA_OUTPUT_BUCKET := bucket; GLUE_DATABASE := database |}
  | None, _ => inl (KeyError "ATHENA_OUTPUT_BUCKET")
  | Some _, None => inl (KeyError "GLUE_DATABASE")
  end.

Definition max_wait_seconds : Z := 90.

(** [status in ('READY', 'STOPPING')] *)
Definition crawler_terminal (status : string) : bool :=
  String.eqb status "READY" || String.eqb status "STOPPING".

(** [state in ("SUCCEEDED", "FAILED", "CANCELLED")] *)
Definition query_terminal (state : string) : bool :=
  String.eqb state "SUCCEEDED" || String.eqb state "FAILED" || String.eqb state "CANCELLED".

Section Handler.

Variable g : globals.
Variable svc : services.

(** [os.environ[k]] *)
Definition environ_get (k : string) : M string :=
  match environ g !! k with
  | Some v => ret v
  | None => raise (KeyError k)
  end.

(** Lines 22-34, "Decide which crawler and table prefix to use".  [None]
    stands for the [else] branch, where the handler returns [False]. *)
Definition decide_crawler (job_name : value) : M (option (string * string)) :=
  is_txt <- py_in "txt" job_name ;;
  if is_txt then
    (crawler_name <- environ_get "TXT_CRAWLER" ;;
     ret (Some (crawler_name, "txt_"%string)))
  else
    (is_csv <- py_in "csv" job_name ;;
     if is_csv then
       (crawler_name <- environ_get "CSV_CRAWLER" ;;
        ret (Some (crawler_name, "csv_"%string)))
     else
       (is_json <- py_in "json" job_name ;;
        if is_json then
          (crawler_name <- environ_get "JSON_CRAWLER" ;;
           ret (Some (crawler_name, "json_"%string)))
        else
          (log WARNING "No crawler found for job name: %s" [job_name] ;;
           ret None))).

(** Lines 43-56, the loop of "Wait for crawler to complete", entered with
    [waited] seconds already slept. *)
Fixpoint wait_for_crawler (fuel : nat) (crawler_name : string) (waited : Z) : M unit :=
  match fuel with
  | O => diverge
  | S fuel' =>
      status <- call (fun tr => crawler_state svc tr crawler_name)
                     (GetCrawler crawler_name) ;;
      log INFO "Crawler state: %s" [PStr status] ;;
      if crawler_terminal status then
        log INFO "Crawler finished with state: %s" [PStr status]
      else
        (sleep 5 ;;
         let waited := waited + 5 in
         if waited >=? max_wait_seconds then
           log WARNING "Crawler did not reach READY in time, continuing anyway." []
         else
           wait_for_crawler fuel' crawler_name waited)
  end.

(** Lines 88-96, the loop that waits for Athena to finish.  It yields the
    last response [q], whose state the code after the loop reads. *)
Fixpoint wait_for_athena (fuel : nat) (qid : string) : M QueryStatus :=
  match fuel with
  | O => diverge
  | S fuel' =>
      q <- call (fun tr => query_status svc tr qid) (GetQueryExecution qid) ;;
      let state := State q in
      log INFO "Athena query state: %s" [PStr state] ;;
      if query_terminal state then
        ret q
      else
        (sleep 5 ;;
         wait_for_athena fuel' qid)
  end.

(** Lines 72-104, "Run Athena query: SELECT * FROM table". *)
Definition run_athena_query (fuel : nat) (table_name : string) : M bool :=
  let query := ("SELECT * FROM " +:+ table_name)%string in
  let output_location := ("s3://" +:+ ATHENA_OUTPUT_BUCKET g +:+ "/results/")%string in
  log INFO "Starting Athena query: %s" [PStr query] ;;
  qid <- call (fun tr => query_execution_id svc tr query (GLUE_DATABASE g) output_location)
              (StartQueryExecution query (GLUE_DATABASE g) output_location) ;;
  log INFO "Athena query started. QueryExecutionId: %s" [PStr qid] ;;
  log INFO "Results will be written under: %s" [PStr output_location] ;;
  q <- wait_for_athena fuel qid ;;
  let state := State q in
  if negb (String.eqb state "SUCCEEDED") then
    (let reason := default "Unknown"%string (StateChangeReason q) in
     log ERROR "Athena query did NOT succeed. State: %s, Reason: %s"
         [PStr state; PStr reason] ;;
     ret false)
  else
    (log INFO "Athena query SUCCEEDED. Results should be in: s3://%s/results/"
         [PStr (ATHENA_OUTPUT_BUCKET g)] ;;
     ret true).

(** Lines 58-104, "Get one table from Glue Catalog matching the prefix",
    then the query on it. *)
Definition query_one_table (fuel : nat) (table_prefix : string) : M bool :=
  log INFO "Getting table for prefix: %s in database: %s"
      [PStr table_prefix; PStr (GLUE_DATABASE g)] ;;
  let expression := (table_prefix +:+ "*")%string in
  tables_resp <- call (fun tr => table_list svc tr (GLUE_DATABASE g) expression)
                      (GetTables (GLUE_DATABASE g) expression) ;;
  let tables := default [] tables_resp in
  match tables with
  | [] =>
      log WARNING "No tables found with prefix %s in DB %s"
          [PStr table_prefix; PStr (GLUE_DATABASE g)] ;;
      ret false
  | first :: _ =>
      let table_name := Name first in
      log INFO "Using table: %s" [PStr table_name] ;;
      run_athena_query fuel table_name
  end.

(** Lines 36-104: what the handler does once a crawler has been chosen. *)
Definition refresh_and_query (fuel : nat) (crawler_name table_prefix : string) : M bool :=
  log INFO "Starting crawler: %s" [PStr crawler_name] ;;
  perform tt (StartCrawler crawler_name) ;;
  wait_for_crawler fuel crawler_name 0 ;;
  query_one_table fuel table_prefix.

(** [lambda_handler(event, context)]; [context] is never used.  [fuel]
    bounds the number of iterations of each of the two loops. *)
Definition lambda_handler (fuel : nat) (event : value) : M bool :=
  log INFO "Received event: %s" [event] ;;
  detail <- lift (get event "detail" (PDict [])) ;;
  job_name <- lift (get detail "jobName" (PStr "unknown")) ;;
  log INFO "Triggered by Glue job: %s" [job_name] ;;
  choice <- decide_crawler job_name ;;
  match choice with
  | None => ret false
  | Some (crawler_name, table_prefix) =>
      refresh_and_query fuel crawler_name table_prefix
  end.

End Handler.

(** One invocation: the handler run from the empty trace. *)
Definition invoke (g : globals) (svc : services) (fuel : nat) (event : value) : outcome bool :=
  lambda_handler g svc fuel event [].

(** ** Reading traces *)

Definition count (p : effect -> bool) (tr : trace) : nat :=
  length (List.filter p tr).

Definition is_StartCrawler (e : effect) : bool :=
  match e with StartCrawler _ => true | _ => false end.

Definition is_GetCrawler (e : effect) : bool :=
  match e with GetCrawler _ _ => true | _ => false end.

Definition is_GetTables (e : effect) : bool :=
  match e with GetTables _ _ _ => true | _ => false end.

Definition is_StartQueryExecution (e : effect) : bool :=
  match e with StartQueryExecution _ _ _ _ => true | _ => false end.

Definition is_GetQueryExecution (e : effect) : bool :=
  match e with GetQueryExecution _ _ => true | _ => false end.

Definition is_Sleep (e : effect) : bool :=
  match e with Sleep _ => true | _ => false end.

(** A call to Glue about the crawler (the refresh task). *)
Definition is_crawler_call (e : effect) : bool :=
  is_StartCrawler e || is_GetCrawler e.

(** A call to Glue or Athena; sleeping and logging are not. *)
Definition is_service_call (e : effect) : bool :=
  is_StartCrawler e || is_GetCrawler e || is_GetTables e
  || is_StartQueryExecution e || is_GetQueryExecution e.

(** The response of the last [get_query_execution] of a trace. *)
Fixpoint last_query_status (tr : trace) : option QueryStatus :=
  match tr with
  | [] => None
  | e :: tr' =>
      match last_query_status tr' with
      | Some q => Some q
      | None => match e with GetQueryExecution _ q => Some q | _ => None end
      end
  end.

(** ** The protocol of one invocation

    A monitor for traces: which effect may follow which.  The stage says
    what is in flight, and remembers the answers later steps depend on. *)

Inductive stage : Type :=
| Idle                               (* no service called yet *)
| Crawling (crawler_name : string)   (* refresh task started, being polled *)
| Refreshed                          (* the wait for the crawler is over *)
| Resolved (tables : list Table)     (* catalog read *)
| Querying (qid : string)            (* query run submitted, being polled *)
| Queried (q : QueryStatus).         (* terminal query state observed *)

(** The two log records with which the crawler loop ends. *)
Definition crawler_wait_over (lvl : level) (msg : string) : bool :=
  match lvl with
  | INFO => String.eqb msg "Crawler finished with state: %s"
  | WARNING => String.eqb msg "Crawler did not reach READY in time, continuing anyway."
  | ERROR => false
  end.

Definition step (s : stage) (e : effect) : option stage :=
  match e, s with
  | Log lvl msg _, Crawling c =>
      Some (if crawler_wait_over lvl msg then Refreshed else Crawling c)
  | Log _ _ _, _ => Some s
  | StartCrawler c, Idle => Some (Crawling c)
  | GetCrawler c' _, Crawling c =>
      if String.eqb c c' then Some (Crawling c) else None
  | Sleep _, Crawling _ | Sleep _, Querying _ => Some s
  | GetTables _ _ resp, Refreshed => Some (Resolved (default [] resp))
  | StartQueryExecution query _ _ qid, Resolved (first :: _) =>
      if String.eqb query ("SELECT * FROM " +:+ Name first) then Some (Querying qid)
      else None
  | GetQueryExecution qid' q, Querying qid =>
      if String.eqb qid qid'
      then Some (if query_terminal (State q) then Queried q else Querying qid)
      else None
  | _, _ => None
  end.

Fixpoint run (s : stage) (tr : trace) : option stage :=
  match tr with
  | [] => Some s
  | e :: tr' =>
      match step s e with
      | Some s' => run s' tr'
      | None => None
      end
  end.

(** A trace that follows the protocol from the start, and where it ends. *)
Definition follows (tr : trace) (s : stage) : Prop := run Idle tr = Some s.

(** How far a stage is along the workflow. *)
Definition rank (s : stage) : nat :=
  match s with
  | Idle => 0
  | Crawling _ => 1
  | Refreshed => 2
  | Resolved _ => 3
  | Querying _ => 4
  | Queried _ => 5
  end.

(** Where each kind of outcome of the handler may leave the protocol, and
    what a returned value must be there. *)
Definition verdict (g : globals) (o : outcome bool) (s : stage) : Prop :=
  match o with
  | Raised _ _ => s = Idle
  | OutOfFuel _ => (exists c, s = Crawling c) \/ (exists qid, s = Querying qid)
  | Done b tr =>
      match s with
      | Idle =>
          b = false
          /\ exists job_name,
              last tr = Some (Log WARNING "No crawler found for job name: %s" [job_name])
      | Resolved [] =>
          b = false
          /\ exists table_prefix,
              last tr = Some (Log WARNING "No tables found with prefix %s in DB %s"
                                  [PStr table_prefix; PStr (GLUE_DATABASE g)])
      | Queried q =>
          b = String.eqb (State q) "SUCCEEDED"
          /\ last tr =
             Some (if String.eqb (State q) "SUCCEEDED"
                   then Log INFO "Athena query SUCCEEDED. Results should be in: s3://%s/results/"
                            [PStr (ATHENA_OUTPUT_BUCKET g)]
                   else Log ERROR "Athena query did NOT succeed. State: %s, Reason: %s"
                            [PStr (State q);
                             PStr (default "Unknown"%string (StateChangeReason q))])
      | _ => False
      end
  end.

(** ** Notions used in the statements *)

(** [needle] occurs in [hay] as a contiguous run of characters. *)
Definition substring_of (needle hay : string) : Prop :=
  exists pre post, hay = (pre +:+ needle +:+ post)%string.

(** [v[k]] when [v] is a dict that has the key. *)
Definition field (k : string) (v : value) : option value :=
  match v with
  | PDict d => assoc k d
  | _ => None
  end.

(** The markers, in the order in which the handler tries them. *)
Definition markers : list string := ["txt"; "csv"; "json"]%string.

(** Classification as the specification words it: the first marker, in
    that order, that occurs in the job name. *)
Definition first_marker (job_name : string) : option string :=
  List.find (fun marker => contains marker job_name) markers.

(** The environment variable that names the crawler of a marker. *)
Definition crawler_variable (marker : string) : string :=
  if String.eqb marker "txt" then "TXT_CRAWLER"
  else if String.eqb marker "csv" then "CSV_CRAWLER"
  else "JSON_CRAWLER".

(** [ceil (a / b)] for a positive [b]. *)
Definition ceil_div (a b : Z) : Z := (a + b - 1) / b.

(** The warning with which the crawler loop gives up. *)
Definition timeout_warning : effect :=
  Log WARNING "Crawler did not reach READY in time, continuing anyway." [].

(** The trace of an invocation up to the start of the crawler. *)
Definition started (event job_name : value) (c : string) : trace :=
  [Log INFO "Received event: %s" [event];
   Log INFO "Triggered by Glue job: %s" [job_name];
   Log INFO "Starting crawler: %s" [PStr c];
   StartCrawler c].

(** Effects selected by [p] take the protocol across rank [k], so they
    happen at most once. *)
Definition crosses (p : effect -> bool) (k : nat) : Prop :=
  forall s e s', step s e = Some s' -> p e = true -> (rank s < k <= rank s')%nat.

(** Effects selected by [p] happen only up to rank [k]. *)
Definition confined (p : effect -> bool) (k : nat) : Prop :=
  forall s e s', step s e = Some s' -> p e = true -> (rank s' <= k)%nat.

(** ** Sample invocations *)

Module Sample.

Definition env : gmap string string :=
  {[ "TXT_CRAWLER"%string := "txt-crawler"%string;
     "CSV_CRAWLER"%string := "csv-crawler"%string;
     "JSON_CRAWLER"%string := "json-crawler"%string ]}.

Definition g : globals :=
  {| environ := env; ATHENA_OUTPUT_BUCKET := "bucket"; GLUE_DATABASE := "db" |}.

(** The event of a finished Glue job. *)
Definition job_event (job_name : string) : value :=
  PDict [("detail"%string, PDict [("jobName"%string, PStr job_name)])].

Definition succeeded : QueryStatus :=
  {| State := "SUCCEEDED"; StateChangeReason := None |}.

Definition failed : QueryStatus :=
  {| State := "FAILED"; StateChangeReason := Some "Syntax error"%string |}.

Definition running : QueryStatus :=
  {| State := "RUNNING"; StateChangeReason := None |}.

(** Services whose answers do not change: a crawler in state
    [crawler], a catalog holding [tables], a query run in state [q]. *)
Definition steady (crawler : string) (tables : option (list Table))
    (q : QueryStatus) : services :=
  {| crawler_state := fun _ _ => crawler;
     table_list := fun _ _ _ => tables;
     query_execution_id := fun _ _ _ _ => "q-1"%string;
     query_status := fun _ _ => q |}.

Definition csv_raw : Table := {| Name := "csv_raw" |}.
Definition csv_old : Table := {| Name := "csv_old" |}.

End Sample.

(** ** Notions used for the further properties *)

(** A block only adds to the trace, and only effects that satisfy [P]. *)
Definition appends {A : Type} (P : effect -> Prop) (m : M A) : Prop :=
  forall tr, exists ext, trace_of (m tr) = tr ++ ext /\ Forall P ext.

(** The seconds slept in a trace. *)
Fixpoint slept (tr : trace) : Z :=
  match tr with
  | [] => 0
  | Sleep seconds :: tr' => seconds + slept tr'
  | _ :: tr' => slept tr'
  end.

(** The catalog expressions the handler can ask for. *)
Definition table_patterns : list string := ["txt_*"; "csv_*"; "json_*"]%string.

(** What the arguments of a request of the handler look like. *)
Definition well_formed_request (g : globals) (e : effect) : Prop :=
  match e with
  | Sleep seconds => seconds = 5
  | GetTables database expression _ =>
      database = GLUE_DATABASE g /\ expression ∈ table_patterns
  | StartQueryExecution query database output_location _ =>
      (exists table_name, query = "SELECT * FROM " +:+ table_name)
      /\ database = GLUE_DATABASE g
      /\ output_location = "s3://" +:+ ATHENA_OUTPUT_BUCKET g +:+ "/results/"
  | _ => True
  end.

(** A value on which [in] raises: neither a string, a list nor a dict. *)
Definition not_iterable (v : value) : Prop :=
  match v with
  | PNone | PBool _ | PInt _ => True
  | _ => False
  end.

(** The number of [get_query_execution] calls after which the query run
    is in a terminal state, whatever else happened. *)
Definition terminal_after (svc : services) (n : nat) : Prop :=
  forall h qid,
    (n <= count is_GetQueryExecution h)%nat ->
    query_terminal (State (query_status svc h qid)) = true.

(** What must have happened before a stage is reached. *)
Definition started_crawler (tr : trace) : Prop :=
  exists c, StartCrawler c ∈ tr.

Definition found_table (tr : trace) (first : Table) : Prop :=
  exists d x rest, GetTables d x (Some (first :: rest)) ∈ tr.

Definition submitted_query (tr : trace) (first : Table) (qid : string) : Prop :=
  exists d o, StartQueryExecution ("SELECT * FROM " +:+ Name first) d o qid ∈ tr.

Definition history (s : stage) (tr : trace) : Prop :=
  match s with
  | Idle => True
  | Crawling c => StartCrawler c ∈ tr
  | Refreshed | Resolved [] => started_crawler tr
  | Resolved (first :: _) => started_crawler tr /\ found_table tr first
  | Querying qid =>
      started_crawler tr
      /\ exists first, found_table tr first /\ submitted_query tr first qid
  | Queried q =>
      started_crawler tr
      /\ exists first qid,
          found_table tr first /\ submitted_query tr first qid
          /\ GetQueryExecution qid q ∈ tr
  end.

(** Services whose query run is RUNNING for the first [n] polls and
    SUCCEEDED from then on; the crawler is always RUNNING. *)
Definition succeeds_after (n : nat) (tables : option (list Table)) : services :=
  {| crawler_state := fun _ _ => "RUNNING"%string;
     table_list := fun _ _ _ => tables;
     query_execution_id := fun _ _ _ _ => "q-1"%string;
     query_status := fun h _ =>
       if decide (n <= count is_GetQueryExecution h)%nat
       then Sample.succeeded else Sample.running |}.

(** * deploy.py: packaging, upload and stack deployment

    A second embedding, of [src/deploy.py].  Its calls to S3, to
    CloudFormation and to the file system may fail; an answer is either a
    result or the exception the call raised.  The script has no unbounded
    loop, so its monad needs no fuel. *)

Module Deploy.

Definition STACK_NAME : string := "assignment-3-data-pipeline".
Definition REGION : string := "ap-south-1".

(** What the script tells apart among exceptions: botocore's
    [ClientError], with its text [str(e)]; the [KeyError] of a missing
    key; and any other exception a library call raises. *)
Inductive exn : Type :=
| ClientError (message : string)
| KeyError (key : string)
| OtherError (description : string).

(** One entry of the [Parameters] of a stack. *)
Record parameter : Type := {
  ParameterKey : string;
  ParameterValue : string
}.

(** One step of [os.walk]: a directory, its subdirectories, its files.
    A walk is recorded as one call that yields all its steps: the tree is
    taken as it is when the walk starts. *)
Definition walk_entry : Type := string * list string * list string.

(** The calls of the script, each with its answer.  [None] is a call that
    returned; [Some e] one that raised [e]. *)
Inductive effect : Type :=
| Log (msg : string) (args : list string)
| ZipOpen (zip_path : string) (r : option exn)
| Walk (top : string) (r : list walk_entry)
| ZipWrite (zip_path full_path arcname : string) (r : option exn)
| ZipClose (zip_path : string) (r : option exn)
| HeadBucket (bucket : string) (r : option exn)
| CreateBucket (bucket region : string) (r : option exn)
| PutBucketVersioning (bucket status : string) (r : option exn)
| UploadFile (file_path bucket key : string) (r : option exn)
| HeadObject (bucket key : string) (r : exn + option string)
| DescribeStacks (stack : string) (r : option exn)
| UpdateStack (stack template : string) (params : list parameter)
              (capabilities : list string) (r : exn + string)
| CreateStack (stack template : string) (params : list parameter)
              (capabilities : list string) (r : exn + string)
| WaiterWait (waiter stack : string) (r : option exn)
| ReadFile (path : string) (r : exn + string).

Definition trace : Type := list effect.

(** The answers of the outside world, each given the trace so far.
    [head_object] answers with the [VersionId] of the object when the
    response has one; the stack calls answer with the [StackId]. *)
Record world : Type := {
  zip_open : trace -> string -> option exn;
  walk : trace -> string -> list walk_entry;
  zip_write : trace -> string -> string -> string -> option exn;
  zip_close : trace -> string -> option exn;
  head_bucket : trace -> string -> option exn;
  create_bucket : trace -> string -> string -> option exn;
  put_bucket_versioning : trace -> string -> string -> option exn;
  upload_file : trace -> string -> string -> string -> option exn;
  head_object : trace -> string -> string -> exn + option string;
  describe_stacks : trace -> string -> option exn;
  update_stack : trace -> string -> string -> list parameter -> list string -> exn + string;
  create_stack : trace -> string -> string -> list parameter -> list string -> exn + string;
  waiter_wait : trace -> string -> string -> option exn;
  read_file : trace -> string -> exn + string
}.

(** [os.path.join] and [os.path.relpath], which depend on the platform
    and on the working directory. *)
Record os_path : Type := {
  join : string -> string -> string;
  relpath : string -> string -> string
}.

Inductive outcome (A : Type) : Type :=
| Done (a : A) (tr : trace)
| Raised (e : exn) (tr : trace).

Arguments Done {A} a tr.
Arguments Raised {A} e tr.

Definition trace_of {A : Type} (o : outcome A) : trace :=
  match o with
  | Done _ tr | Raised _ tr => tr
  end.

Definition M (A : Type) : Type := trace -> outcome A.

Definition ret {A : Type} (a : A) : M A := fun tr => Done a tr.

Definition bind {A B : Type} (m : M A) (k : A -> M B) : M B :=
  fun tr =>
    match m tr with
    | Done a tr' => k a tr'
    | Raised e tr' => Raised e tr'
    end.

Definition raise {A : Type} (e : exn) : M A := fun tr => Raised e tr.

Declare Scope deploy_scope.
Delimit Scope deploy_scope with deploy.
Notation "x <- c ;; k" := (bind c (fun x => k))
  (at level 100, c at next level, right associativity) : deploy_scope.
Notation "c ;; k" := (bind c (fun _ => k))
  (at level 100, right associativity) : deploy_scope.
Local Open Scope deploy_scope.

(** A call that returns nothing: record it, and raise what it raised. *)
Definition attempt (answer : trace -> option exn) (e : option exn -> effect) : M unit :=
  fun tr =>
    match answer tr with
    | None => Done tt (tr ++ [e None])
    | Some x => Raised x (tr ++ [e (Some x)])
    end.

(** A call that returns a value. *)
Definition request {A : Type} (answer : trace -> exn + A) (e : exn + A -> effect) : M A :=
  fun tr =>
    match answer tr with
    | inr a => Done a (tr ++ [e (inr a)])
    | inl x => Raised x (tr ++ [e (inl x)])
    end.

(** A call that cannot fail. *)
Definition observe {A : Type} (answer : trace -> A) (e : A -> effect) : M A :=
  fun tr => Done (answer tr) (tr ++ [e (answer tr)]).

Definition log (msg : string) (args : list string) : M unit :=
  fun tr => Done tt (tr ++ [Log msg args]).

(** [try: body  except botocore.exceptions.ClientError as e: handler] *)
Definition try_except_ClientError {A : Type} (body : M A) (handler : string -> M A) : M A :=
  fun tr =>
    match body tr with
    | Raised (ClientError message) tr' => handler message tr'
    | o => o
    end.

(** [for x in l: body], threading what the body updates. *)
Fixpoint for_each {A S : Type} (l : list A) (body : A -> S -> M S) (s : S) : M S :=
  match l with
  | [] => ret s
  | x :: l' => s' <- body x s ;; for_each l' body s'
  end.

(** [s.replace(old, new)] for a non-empty [old]: every occurrence, from
    the left, without overlap.  [skip] counts the characters of an
    occurrence that are still to be dropped. *)
Fixpoint replace_from (old new : string) (skip : nat) (s : string) : string :=
  match s with
  | EmptyString => EmptyString
  | String a s' =>
      match skip with
      | S skip' => replace_from old new skip' s'
      | O =>
          if String.prefix old s
          then (new +:+ replace_from old new (String.length old - 1) s')%string
          else String a (replace_from old new 0 s')
      end
  end.

Definition replace (old new s : string) : string := replace_from old new 0 s.

Section Script.

Variable w : world.
Variable path : os_path.

(** [with zipfile.ZipFile(zip_path, "w", ...) as zipf: body]: the archive
    is closed whether the body returns or raises; an exception of the
    close takes the place of the body's. *)
Definition with_ZipFile {A : Type} (zip_path : string) (body : M A) : M A :=
  attempt (fun tr => zip_open w tr zip_path) (ZipOpen zip_path) ;;
  fun tr =>
    match body tr with
    | Done a tr' =>
        (attempt (fun tr => zip_close w tr zip_path) (ZipClose zip_path) ;;
         ret a) tr'
    | Raised e tr' =>
        (attempt (fun tr => zip_close w tr zip_path) (ZipClose zip_path) ;;
         raise e) tr'
    end.

(** Lines 20-23: the two loops over what [os.walk] yields. *)
Definition write_files (src_folder zip_path root : string) (files : list string) : M unit :=
  for_each files
    (fun file _ =>
       let full_path := join path root file in
       let arcname := relpath path full_path src_folder in
       attempt (fun tr => zip_write w tr zip_path full_path arcname)
               (ZipWrite zip_path full_path arcname))
    tt.

Definition write_entries (src_folder zip_path : string) (entries : list walk_entry) : M unit :=
  for_each entries
    (fun '(root, _, files) _ => write_files src_folder zip_path root files) tt.

(** Lines 17-25. *)
Definition zip_lambda (src_folder zip_path : string) : M unit :=
  with_ZipFile zip_path
    (entries <- observe (fun tr => walk w tr src_folder) (Walk src_folder) ;;
     write_entries src_folder zip_path entries) ;;
  log "Created ZIP: %s" [zip_path].

(** Lines 27-43. *)
Definition ensure_bucket (bucket_name : string) : M unit :=
  try_except_ClientError
    (attempt (fun tr => head_bucket w tr bucket_name) (HeadBucket bucket_name) ;;
     log "Bucket %s already exists" [bucket_name])
    (fun _ =>
       log "Creating bucket: %s" [bucket_name] ;;
       attempt (fun tr => create_bucket w tr bucket_name REGION)
               (CreateBucket bucket_name REGION) ;;
       log "Bucket %s created" [bucket_name]) ;;
  log "Enabling Versioning on bucket %s" [bucket_name] ;;
  attempt (fun tr => put_bucket_versioning w tr bucket_name "Enabled")
          (PutBucketVersioning bucket_name "Enabled").

(** Lines 45-53. *)
Definition upload_and_get_version (bucket key file_path : string) : M string :=
  log "Uploading: %s -> s3://%s/%s" [file_path; bucket; key] ;;
  attempt (fun tr => upload_file w tr file_path bucket key)
          (UploadFile file_path bucket key) ;;
  head <- request (fun tr => head_object w tr bucket key) (HeadObject bucket key) ;;
  match head with
  | None => raise (KeyError "VersionId")
  | Some version =>
      log "Uploaded %s (VersionId=%s)" [key; version] ;;
      ret version
  end.

Definition capabilities : list string := ["CAPABILITY_NAMED_IAM"%string].

(** Lines 56-98. *)
Definition deploy_stack (template_body : string) (params : list parameter) : M unit :=
  exists_ <- try_except_ClientError
               (attempt (fun tr => describe_stacks w tr STACK_NAME)
                        (DescribeStacks STACK_NAME) ;;
                ret true)
               (fun _ => ret false) ;;
  if exists_ : bool then
    log "Updating stack..." [] ;;
    try_except_ClientError
      (stack_id <- request
          (fun tr => update_stack w tr STACK_NAME template_body params capabilities)
          (UpdateStack STACK_NAME template_body params capabilities) ;;
       log "Update Started: %s" [stack_id] ;;
       attempt (fun tr => waiter_wait w tr "stack_update_complete" STACK_NAME)
               (WaiterWait "stack_update_complete" STACK_NAME) ;;
       log "Stack Updated Successfully!" [])
      (fun message =>
         if contains "No updates are to be performed" message then
           log "No updates — stack already up to date." []
         else
           raise (ClientError message))
  else
    log "Creating stack..." [] ;;
    stack_id <- request
        (fun tr => create_stack w tr STACK_NAME template_body params capabilities)
        (CreateStack STACK_NAME template_body params capabilities) ;;
    log "Create Started: %s" [stack_id] ;;
    attempt (fun tr => waiter_wait w tr "stack_create_complete" STACK_NAME)
            (WaiterWait "stack_create_complete" STACK_NAME) ;;
    log "Stack Created Successfully!" [].

(** The dictionary of line 109, in insertion order. *)
Definition lambda_sources : list (string * string) :=
  [("lambdas/SaveS3Config", "SaveS3Config.zip");
   ("lambdas/TriggerGlueJob", "TriggerGlueJob.zip");
   ("lambdas/LambdaGlueJobSuccess", "LambdaGlueJobSuccess.zip");
   ("lambdas/LambdaGlueJobFailure", "LambdaGlueJobFailure.zip")]%string.

(** [d[k]] *)
Definition getitem (d : gmap string string) (k : string) : M string :=
  match d !! k with
  | Some v => ret v
  | None => raise (KeyError k)
  end.

(** Lines 116-125: the loop that zips and uploads each Lambda, and
    collects the versions of the uploaded objects by Lambda name. *)
Definition upload_lambdas (deployment_bucket : string) : M (gmap string string) :=
  for_each lambda_sources
    (fun '(src_folder, zip_name) (lambda_versions : gmap string string) =>
       let zip_path := zip_name in
       zip_lambda src_folder zip_path ;;
       let key := ("lambdas/" +:+ zip_name)%string in
       version <- upload_and_get_version deployment_bucket key zip_path ;;
       ret (<[replace ".zip" "" zip_name := version]> lambda_versions))
    ∅.

(** Lines 127-133: the loop that uploads the Glue scripts. *)
Definition upload_scripts (deployment_bucket : string) : M unit :=
  let script_folder := "glu_jobs"%string in
  entries <- observe (fun tr => walk w tr script_folder) (Walk script_folder) ;;
  for_each entries
    (fun '(root, _, files) _ =>
       for_each files
         (fun f _ =>
            let full_path := join path root f in
            let key := ("scripts/" +:+ f)%string in
            log "Uploading Glue script: %s" [key] ;;
            attempt (fun tr => upload_file w tr full_path deployment_bucket key)
                    (UploadFile full_path deployment_bucket key))
         tt)
    tt.

(** Lines 138-145: the parameters of the stack, read from the versions. *)
Definition stack_params (deployment_bucket : string)
    (lambda_versions : gmap string string) : M (list parameter) :=
  v1 <- getitem lambda_versions "SaveS3Config" ;;
  v2 <- getitem lambda_versions "TriggerGlueJob" ;;
  v3 <- getitem lambda_versions "LambdaGlueJobSuccess" ;;
  v4 <- getitem lambda_versions "LambdaGlueJobFailure" ;;
  ret [ {| ParameterKey := "DeploymentBucketName"; ParameterValue := deployment_bucket |};
        {| ParameterKey := "EmailSubscription"; ParameterValue := "prime.hrishi@gmail.com" |};
        {| ParameterKey := "SaveS3ConfigVersion"; ParameterValue := v1 |};
        {| ParameterKey := "TriggerGlueJobVersion"; ParameterValue := v2 |};
        {| ParameterKey := "LambdaGlueJobSuccessVersion"; ParameterValue := v3 |};
        {| ParameterKey := "LambdaGlueJobFailureVersion"; ParameterValue := v4 |} ].

(** Lines 101-147. *)
Definition main : M unit :=
  let deployment_bucket := (STACK_NAME +:+ "-deployment")%string in
  ensure_bucket deployment_bucket ;;
  lambda_versions <- upload_lambdas deployment_bucket ;;
  upload_scripts deployment_bucket ;;
  template_body <- request (fun tr => read_file w tr "template.yaml")
                           (ReadFile "template.yaml") ;;
  params <- stack_params deployment_bucket lambda_versions ;;
  deploy_stack template_body params.

End Script.

(** ** Reading the traces of the script *)

Definition count (p : effect -> bool) (tr : trace) : nat :=
  length (List.filter p tr).

Definition is_CreateBucket (e : effect) : bool :=
  match e with CreateBucket _ _ _ => true | _ => false end.

Definition is_UpdateStack (e : effect) : bool :=
  match e with UpdateStack _ _ _ _ _ => true | _ => false end.

Definition is_CreateStack (e : effect) : bool :=
  match e with CreateStack _ _ _ _ _ => true | _ => false end.

Definition is_WaiterWait (e : effect) : bool :=
  match e with WaiterWait _ _ _ => true | _ => false end.

Definition is_ZipWrite (e : effect) : bool :=
  match e with ZipWrite _ _ _ _ => true | _ => false end.

Definition is_ZipClose (e : effect) : bool :=
  match e with ZipClose _ _ => true | _ => false end.

(** The write of the file [entry.2] of the directory [entry.1], as
    [zip_lambda] records it when it succeeds. *)
Definition written (path : os_path) (src_folder zip_path : string)
    (entry : string * string) : effect :=
  let full_path := join path entry.1 entry.2 in
  ZipWrite zip_path full_path (relpath path full_path src_folder) None.

(** A call to CloudFormation. *)
Definition is_cloudformation (e : effect) : bool :=
  match e with
  | DescribeStacks _ _ | UpdateStack _ _ _ _ _ | CreateStack _ _ _ _ _
  | WaiterWait _ _ _ => true
  | _ => false
  end.

(** A stretch of trace without a call to CloudFormation. *)
Definition quiet (ext : trace) : Prop :=
  Forall (fun e => is_cloudformation e = false) ext.

(** What a block adds to the trace: [Q] holds of the value and the added
    stretch when it returns, [R] of the added stretch when it raises. *)
Definition adds {A : Type} (m : M A) (Q : A -> trace -> Prop) (R : trace -> Prop) : Prop :=
  forall tr,
    match m tr with
    | Done a tr' => exists ext, tr' = tr ++ ext /\ Q a ext
    | Raised _ tr' => exists ext, tr' = tr ++ ext /\ R ext
    end.

(** What [main] records for one Glue script it has uploaded. *)
Definition uploaded_script (path : os_path) (bucket : string)
    (entry : string * string) : list effect :=
  [Log "Uploading Glue script: %s" [("scripts/" +:+ entry.2)%string];
   UploadFile (join path entry.1 entry.2) bucket ("scripts/" +:+ entry.2) None].

(** The files of a walk, each with its directory, in the order of the walk. *)
Definition files_of (entries : list walk_entry) : list (string * string) :=
  entries ≫= fun '(root, _, files) => (fun file => (root, file)) <$> files.

(** The text that makes [deploy_stack] take a failed update for success. *)
Definition no_updates : string := "No updates are to be performed".

(** The parameters [main] passes for the four object versions. *)
Definition stack_parameters (bucket v1 v2 v3 v4 : string) : list parameter :=
  [ {| ParameterKey := "DeploymentBucketName"; ParameterValue := bucket |};
    {| ParameterKey := "EmailSubscription"; ParameterValue := "prime.hrishi@gmail.com" |};
    {| ParameterKey := "SaveS3ConfigVersion"; ParameterValue := v1 |};
    {| ParameterKey := "TriggerGlueJobVersion"; ParameterValue := v2 |};
    {| ParameterKey := "LambdaGlueJobSuccessVersion"; ParameterValue := v3 |};
    {| ParameterKey := "LambdaGlueJobFailureVersion"; ParameterValue := v4 |} ].

Definition deployment_bucket : string := "assignment-3-data-pipeline-deployment".

(** ** Sample worlds *)

(** A world in which every call succeeds: the stack exists, each folder
    holds one file, each uploaded object has version "v1". *)
Definition calm : world :=
  {| zip_open := fun _ _ => None;
     walk := fun _ top => [(top, [], ["index.py"%string])];
     zip_write := fun _ _ _ _ => None;
     zip_close := fun _ _ => None;
     head_bucket := fun _ _ => None;
     create_bucket := fun _ _ _ => None;
     put_bucket_versioning := fun _ _ _ => None;
     upload_file := fun _ _ _ _ => None;
     head_object := fun _ _ _ => inr (Some "v1"%string);
     describe_stacks := fun _ _ => None;
     update_stack := fun _ _ _ _ _ => inr "stack-1"%string;
     create_stack := fun _ _ _ _ _ => inr "stack-1"%string;
     waiter_wait := fun _ _ _ => None;
     read_file := fun _ _ => inr "Resources: {}"%string |}.

(** The calm world, but the bucket and the stack do not exist yet. *)
Definition fresh : world :=
  {| zip_open := zip_open calm;
     walk := walk calm;
     zip_write := zip_write calm;
     zip_close := zip_close calm;
     head_bucket := fun _ _ => Some (ClientError "An error occurred (404) when calling the HeadBucket operation: Not Found");
     create_bucket := create_bucket calm;
     put_bucket_versioning := put_bucket_versioning calm;
     upload_file := upload_file calm;
     head_object := head_object calm;
     describe_stacks := fun _ _ => Some (ClientError "An error occurred (ValidationError) when calling the DescribeStacks operation: Stack with id assignment-3-data-pipeline does not exist");
     update_stack := update_stack calm;
     create_stack := create_stack calm;
     waiter_wait := waiter_wait calm;
     read_file := read_file calm |}.

(** The calm world, but the stack has nothing to update. *)
Definition unchanged : world :=
  {| zip_open := zip_open calm;
     walk := walk calm;
     zip_write := zip_write calm;
     zip_close := zip_close calm;
     head_bucket := head_bucket calm;
     create_bucket := create_bucket calm;
     put_bucket_versioning := put_bucket_versioning calm;
     upload_file := upload_file calm;
     head_object := head_object calm;
     describe_stacks := describe_stacks calm;
     update_stack := fun _ _ _ _ _ => inl (ClientError "An error occurred (ValidationError) when calling the UpdateStack operation: No updates are to be performed.");
     create_stack := create_stack calm;
     waiter_wait := waiter_wait calm;
     read_file := read_file calm |}.

(** The calm world, but the bucket keeps no versions. *)
Definition unversioned : world :=
  {| zip_open := zip_open calm;
     walk := walk calm;
     zip_write := zip_write calm;
     zip_close := zip_close calm;
     head_bucket := head_bucket calm;
     create_bucket := create_bucket calm;
     put_bucket_versioning := put_bucket_versioning calm;
     upload_file := upload_file calm;
     head_object := fun _ _ _ => inr None;
     describe_stacks := describe_stacks calm;
     update_stack := update_stack calm;
     create_stack := create_stack calm;
     waiter_wait := waiter_wait calm;
     read_file := read_file calm |}.

(** Paths joined with a slash; [relpath] taken to drop the start folder
    and the slash after it. *)
Definition slash_paths : os_path :=
  {| join := fun a b => (a +:+ "/" +:+ b)%string;
     relpath := fun p start =>
       String.substring (S (String.length start))
                        (String.length p - S (String.length start)) p |}.

End Deploy.

(** * The handler when a service call can raise

    [boto3] reports a request that failed by raising, and the handler
    catches nothing.  The embedding of the handler above takes every call
    to be answered.  This one drops that: before a call is answered, a
    second oracle says whether it raises instead, and the journal of an
    invocation records the calls that raised next to the effects that
    took place.  A call that is answered is answered by the same
    [services], with a response of the documented shape. *)

Module Faulty.

(** The requests the handler makes to Glue and Athena, with their
    arguments. *)
Inductive call : Type :=
| start_crawler (name : string)
| get_crawler (name : string)
| get_tables (database expression : string)
| start_query_execution (query database output_location : string)
| get_query_execution (qid : string).

(** What a journal records: an effect that took place (a call with its
    answer, a sleep, a log record), or a call that raised, with the name
    of what it raised. *)
Inductive entry : Type :=
| Did (e : effect)
| Failed (c : call) (error : string).

Definition journal : Type := list entry.

(** The effects that took place, for the services to look at. *)
Definition answered (j : journal) : trace :=
  omap (fun x => match x with Did e => Some e | Failed _ _ => None end) j.

(** The request behind an entry; a sleep or a log record has none. *)
Definition call_of (x : entry) : option call :=
  match x with
  | Did (StartCrawler c) => Some (start_crawler c)
  | Did (GetCrawler c _) => Some (get_crawler c)
  | Did (GetTables d p _) => Some (get_tables d p)
  | Did (StartQueryExecution q d o _) => Some (start_query_execution q d o)
  | Did (GetQueryExecution qid _) => Some (get_query_execution qid)
  | Did (Sleep _) | Did (Log _ _ _) => None
  | Failed c _ => Some c
  end.

(** The requests of a journal, answered or not, in order. *)
Definition calls (j : journal) : list call := omap call_of j.

(** Whether a call raises, given everything that happened before it, and
    what it raises. *)
Definition faults : Type := journal -> call -> option string.

(** What can leave the handler: an exception of its own statements, or
    the one a service call raised. *)
Inductive exception : Type :=
| Own (e : exn)
| ServiceError (error : string).

Inductive outcome (A : Type) : Type :=
| Done (a : A) (j : journal)
| Raised (x : exception) (j : journal)
| OutOfFuel (j : journal).

Arguments Done {A} a j.
Arguments Raised {A} x j.
Arguments OutOfFuel {A} j.

Definition journal_of {A : Type} (o : outcome A) : journal :=
  match o with
  | Done _ j | Raised _ j | OutOfFuel j => j
  end.

Definition M (A : Type) : Type := journal -> outcome A.

Definition ret {A : Type} (a : A) : M A := fun j => Done a j.

Definition bind {A B : Type} (m : M A) (k : A -> M B) : M B :=
  fun j =>
    match m j with
    | Done a j' => k a j'
    | Raised x j' => Raised x j'
    | OutOfFuel j' => OutOfFuel j'
    end.

Definition raise {A : Type} (e : exn) : M A := fun j => Raised (Own e) j.

Definition diverge {A : Type} : M A := fun j => OutOfFuel j.

(** An effect that cannot fail: a sleep, a log record. *)
Definition perform {A : Type} (a : A) (e : effect) : M A :=
  fun j => Done a (j ++ [Did e]).

(** A call to a service: it raises when the fault oracle says so, and
    nothing of the handler runs after it; otherwise the service answers
    it, given the effects so far. *)
Definition request {A : Type} (flt : faults) (c : call) (answer : trace -> A)
    (e : A -> effect) : M A :=
  fun j =>
    match flt j c with
    | Some error => Raised (ServiceError error) (j ++ [Failed c error])
    | None => let a := answer (answered j) in Done a (j ++ [Did (e a)])
    end.

Definition lift {A : Type} (r : exn + A) : M A :=
  match r with
  | inl e => raise e
  | inr a => ret a
  end.

Declare Scope faulty_scope.
Delimit Scope faulty_scope with faulty.
Notation "x <- c ;; k" := (bind c (fun x => k))
  (at level 100, c at next level, right associativity) : faulty_scope.
Notation "c ;; k" := (bind c (fun _ => k))
  (at level 100, right associativity) : faulty_scope.
Local Open Scope faulty_scope.

Definition log (lvl : level) (msg : string) (args : list value) : M unit :=
  perform tt (Log lvl msg args).

Definition sleep (seconds : Z) : M unit := perform tt (Sleep seconds).

(** [needle in container] *)
Definition py_in (needle : string) (container : value) : M bool :=
  match container with
  | PStr s => ret (contains needle s)
  | PList l => ret (existsb (eq_str needle) l)
  | PDict d => ret (bool_decide (is_Some (assoc needle d)))
  | PNone | PBool _ | PInt _ => raise TypeError
  end.

Section Handler.

Variable g : globals.
Variable svc : services.
Variable flt : faults.

(** [os.environ[k]] *)
Definition environ_get (k : string) : M string :=
  match environ g !! k with
  | Some v => ret v
  | None => raise (KeyError k)
  end.

(** Lines 22-34. *)
Definition decide_crawler (job_name : value) : M (option (string * string)) :=
  is_txt <- py_in "txt" job_name ;;
  if is_txt then
    (crawler_name <- environ_get "TXT_CRAWLER" ;;
     ret (Some (crawler_name, "txt_"%string)))
  else
    (is_csv <- py_in "csv" job_name ;;
     if is_csv then
       (crawler_name <- environ_get "CSV_CRAWLER" ;;
        ret (Some (crawler_name, "csv_"%string)))
     else
       (is_json <- py_in "json" job_name ;;
        if is_json then
          (crawler_name <- environ_get "JSON_CRAWLER" ;;
           ret (Some (crawler_name, "json_"%string)))
        else
          (log WARNING "No crawler found for job name: %s" [job_name] ;;
           ret None))).

(** Lines 43-56; [glue.get_crawler] can raise in every iteration. *)
Fixpoint wait_for_crawler (fuel : nat) (crawler_name : string) (waited : Z) : M unit :=
  match fuel with
  | O => diverge
  | S fuel' =>
      status <- request flt (get_crawler crawler_name)
                        (fun tr => crawler_state svc tr crawler_name)
                        (GetCrawler crawler_name) ;;
      log INFO "Crawler state: %s" [PStr status] ;;
      if crawler_terminal status then
        log INFO "Crawler finished with state: %s" [PStr status]
      else
        (sleep 5 ;;
         let waited := waited + 5 in
         if waited >=? max_wait_seconds then
           log WARNING "Crawler did not reach READY in time, continuing anyway." []
         else
           wait_for_crawler fuel' crawler_name waited)
  end.

(** Lines 36-56: the crawler is started, then waited for. *)
Definition run_crawler (fuel : nat) (crawler_name : string) : M unit :=
  log INFO "Starting crawler: %s" [PStr crawler_name] ;;
  request flt (start_crawler crawler_name) (fun _ => tt)
          (fun _ => StartCrawler crawler_name) ;;
  wait_for_crawler fuel crawler_name 0.

(** Lines 88-96; [athena.get_query_execution] can raise in every
    iteration. *)
Fixpoint wait_for_athena (fuel : nat) (qid : string) : M QueryStatus :=
  match fuel with
  | O => diverge
  | S fuel' =>
      q <- request flt (get_query_execution qid)
                   (fun tr => query_status svc tr qid) (GetQueryExecution qid) ;;
      let state := State q in
      log INFO "Athena query state: %s" [PStr state] ;;
      if query_terminal state then
        ret q
      else
        (sleep 5 ;;
         wait_for_athena fuel' qid)
  end.

(** Lines 72-104. *)
Definition run_athena_query (fuel : nat) (table_name : string) : M bool :=
  let query := ("SELECT * FROM " +:+ table_name)%string in
  let output_location := ("s3://" +:+ ATHENA_OUTPUT_BUCKET g +:+ "/results/")%string in
  log INFO "Starting Athena query: %s" [PStr query] ;;
  qid <- request flt (start_query_execution query (GLUE_DATABASE g) output_location)
                 (fun tr => query_execution_id svc tr query (GLUE_DATABASE g)
                                               output_location)
                 (StartQueryExecution query (GLUE_DATABASE g) output_location) ;;
  log INFO "Athena query started. QueryExecutionId: %s" [PStr qid] ;;
  log INFO "Results will be written under: %s" [PStr output_location] ;;
  q <- wait_for_athena fuel qid ;;
  let state := State q in
  if negb (String.eqb state "SUCCEEDED") then
    (let reason := default "Unknown"%string (StateChangeReason q) in
     log ERROR "Athena query did NOT succeed. State: %s, Reason: %s"
         [PStr state; PStr reason] ;;
     ret false)
  else
    (log INFO "Athena query SUCCEEDED. Results should be in: s3://%s/results/"
         [PStr (ATHENA_OUTPUT_BUCKET g)] ;;
     ret true).

(** Lines 58-104. *)
Definition query_one_table (fuel : nat) (table_prefix : string) : M bool :=
  log INFO "Getting table for prefix: %s in database: %s"
      [PStr table_prefix; PStr (GLUE_DATABASE g)] ;;
  let expression := (table_prefix +:+ "*")%string in
  tables_resp <- request flt (get_tables (GLUE_DATABASE g) expression)
                         (fun tr => table_list svc tr (GLUE_DATABASE g) expression)
                         (GetTables (GLUE_DATABASE g) expression) ;;
  let tables := default [] tables_resp in
  match tables with
  | [] =>
      log WARNING "No tables found with prefix %s in DB %s"
          [PStr table_prefix; PStr (GLUE_DATABASE g)] ;;
      ret false
  | first :: _ =>
      let table_name := Name first in
      log INFO "Using table: %s" [PStr table_name] ;;
      run_athena_query fuel table_name
  end.

(** [lambda_handler(event, context)] *)
Definition lambda_handler (fuel : nat) (event : value) : M bool :=
  log INFO "Received event: %s" [event] ;;
  detail <- lift (get event "detail" (PDict [])) ;;
  job_name <- lift (get detail "jobName" (PStr "unknown")) ;;
  log INFO "Triggered by Glue job: %s" [job_name] ;;
  choice <- decide_crawler job_name ;;
  match choice with
  | None => ret false
  | Some (crawler_name, table_prefix) =>
      run_crawler fuel crawler_name ;;
      query_one_table fuel table_prefix
  end.

End Handler.

(** One invocation: the handler run from the empty journal. *)
Definition invoke (g : globals) (svc : services) (flt : faults) (fuel : nat)
    (event : value) : outcome bool :=
  lambda_handler g svc flt fuel event [].

(** ** Notions used in the statements *)

(** A journal in which no call raised. *)
Definition did (tr : trace) : journal := Did <$> tr.

(** The trace of an invocation when its crawler has been chosen. *)
Definition classified (event job_name : value) (c : string) : trace :=
  [Log INFO "Received event: %s" [event];
   Log INFO "Triggered by Glue job: %s" [job_name];
   Log INFO "Starting crawler: %s" [PStr c]].

(** A block adds to the journal; a call that raised is its last entry,
    and is what the block raises. *)
Definition faithful {A : Type} (flt : faults) (m : M A) : Prop :=
  forall tr,
    match m (did tr) with
    | Done _ j | OutOfFuel j => exists ext, j = did (tr ++ ext)
    | Raised (Own _) _ => False
    | Raised (ServiceError error) j =>
        exists ext c,
          j = did (tr ++ ext) ++ [Failed c error]
          /\ flt (did (tr ++ ext)) c = Some error
    end.

(** ** Sample services and faults *)

(** No call ever raises. *)
Definition no_faults : faults := fun _ _ => None.

(** [start_crawler] raises because the crawler is already running;
    every other call is answered. *)
Definition already_running : faults :=
  fun _ c =>
    match c with
    | start_crawler _ => Some "CrawlerRunningException"%string
    | _ => None
    end.

(** The [n]-th call to [get_crawler] and the later ones raise. *)
Definition throttled_after (n : nat) : faults :=
  fun j c =>
    match c with
    | get_crawler _ =>
        if decide (n <= count is_GetCrawler (answered j))%nat
        then Some "ThrottlingException"%string else None
    | _ => None
    end.

(** A crawler that is RUNNING for its first 18 samples and READY from
    then on: it turns terminal just after the handler has stopped
    waiting. *)
Definition late (tables : option (list Table)) (q : QueryStatus) : services :=
  {| crawler_state := fun h _ =>
       if decide (18 <= count is_GetCrawler h)%nat
       then "READY"%string else "RUNNING"%string;
     table_list := fun _ _ _ => tables;
     query_execution_id := fun _ _ _ _ => "q-1"%string;
     query_status := fun _ _ => q |}.

End Faulty.

(** An outcome of the first embedding, as one of the second: no call
    raised. *)
Definition answering {A : Type} (o : outcome A) : Faulty.outcome A :=
  match o with
  | Done a tr => Faulty.Done a (Faulty.did tr)
  | Raised e tr => Faulty.Raised (Faulty.Own e) (Faulty.did tr)
  | OutOfFuel tr => Faulty.OutOfFuel (Faulty.did tr)
  end.

(** The two embeddings of a block agree: from a journal in which no call
    raised, the second does what the first does. *)
Definition agree {A : Type} (m : M A) (m' : Faulty.M A) : Prop :=
  forall tr, m' (Faulty.did tr) = answering (m tr).

(** * Proofs *)

(** ** Strings *)

Lemma prefix_true_iff (p s : string) :
  String.prefix p s = true <-> exists post, s = (p +:+ post)%string.
Proof.
  revert s. induction p as [|a p IH]; intros s.
  - split; [intros _; by exists s | by destruct s].
  - destruct s as [|b s]; simpl.
    + split; [done | intros [post H]; discriminate H].
    + destruct (Ascii.ascii_dec a b) as [->|Hab].
      * rewrite IH. split; intros [post H]; exists post.
        -- by rewrite H.
        -- by injection H.
      * split; [done | intros [post H]; injection H; congruence].
Qed.

Lemma contains_true_iff (needle hay : string) :
  contains needle hay = true <-> substring_of needle hay.
Proof.
  unfold substring_of. induction hay as [|b hay IH].
  - change (contains needle "") with (String.prefix needle "" || false).
    rewrite orb_false_r, prefix_true_iff. split.
    + intros [post H]. by exists EmptyString, post.
    + intros [[|a pre] [post H]]; [by exists post | discriminate H].
  - change (contains needle (String b hay))
      with (String.prefix needle (String b hay) || contains needle hay).
    rewrite orb_true_iff, prefix_true_iff, IH. split.
    + intros [[post H] | (pre & post & H)].
      * by exists EmptyString, post.
      * exists (String b pre), post. simpl. by rewrite H.
    + intros [[|a pre] [post H]].
      * left. by exists post.
      * right. exists pre, post. simpl in H. by injection H.
Qed.

Lemma contains_false_iff (needle hay : string) :
  contains needle hay = false <-> ~ substring_of needle hay.
Proof.
  rewrite <- contains_true_iff. destruct (contains needle hay); split; congruence.
Qed.

(** ** Traces and the protocol *)

Lemma count_app (p : effect -> bool) (tr1 tr2 : trace) :
  count p (tr1 ++ tr2) = (count p tr1 + count p tr2)%nat.
Proof. unfold count. by rewrite List.filter_app, length_app. Qed.

Lemma run_app (s : stage) (tr1 tr2 : trace) :
  run s (tr1 ++ tr2) = run s tr1 ≫= fun s' => run s' tr2.
Proof.
  revert s. induction tr1 as [|e tr1 IH]; intros s; simpl; [done|].
  destruct (step s e); [apply IH | done].
Qed.

Lemma follows_snoc (tr : trace) (e : effect) (s s' : stage) :
  follows tr s -> step s e = Some s' -> follows (tr ++ [e]) s'.
Proof.
  unfold follows. intros Htr He. rewrite run_app, Htr. simpl. by rewrite He.
Qed.

Lemma rank_step (s s' : stage) (e : effect) :
  step s e = Some s' -> (rank s <= rank s')%nat.
Proof.
  destruct e, s; simpl; try discriminate;
    repeat case_match; intros [= <-]; simpl; lia.
Qed.

Lemma rank_run (tr : trace) (s s' : stage) :
  run s tr = Some s' -> (rank s <= rank s')%nat.
Proof.
  revert s. induction tr as [|e tr IH]; intros s; simpl.
  - intros [= <-]. lia.
  - destruct (step s e) as [s1|] eqn:He; [|done].
    intros H. apply rank_step in He. apply IH in H. lia.
Qed.

(** Extends a proof that a trace follows the protocol by the effects
    appended to it, one at a time. *)
Ltac step_now :=
  cbn; rewrite ?String.eqb_refl;
  repeat match goal with
         | H : ?x = _ |- context [?x] => rewrite H
         end;
  reflexivity.

Ltac follow :=
  lazymatch goal with
  | |- follows (_ ++ [_]) _ => eapply follows_snoc; [follow | step_now]
  | |- follows _ _ => eassumption || reflexivity
  end.

Lemma wait_for_crawler_follows (svc : services) (fuel : nat) (c : string)
    (waited : Z) (tr : trace) :
  follows tr (Crawling c) ->
  match wait_for_crawler svc fuel c waited tr with
  | Done _ tr' => follows tr' Refreshed
  | OutOfFuel tr' => follows tr' (Crawling c)
  | Raised _ _ => False
  end.
Proof.
  revert waited tr. induction fuel as [|fuel IH]; intros waited tr Htr; [done|].
  cbn [wait_for_crawler]. unfold bind, call, log, sleep, perform.
  destruct (crawler_terminal _); [follow|].
  destruct (_ >=? _); [follow|].
  apply IH. follow.
Qed.

Lemma last_query_status_run (tr : trace) (s : stage) (q : QueryStatus) :
  run s tr = Some (Queried q) ->
  last_query_status tr = Some q \/ (s = Queried q /\ last_query_status tr = None).
Proof.
  revert s. induction tr as [|e tr IH]; intros s; simpl.
  - intros [= ->]. by right.
  - destruct (step s e) as [s1|] eqn:He; [|done].
    intros H. destruct (IH _ H) as [-> | [-> ->]]; [by left|].
    destruct e, s; simpl in He; try discriminate;
      repeat case_match; simplify_eq; auto.
Qed.

Lemma follows_Queried_last (tr : trace) (q : QueryStatus) :
  follows tr (Queried q) -> last_query_status tr = Some q.
Proof.
  intros H. by destruct (last_query_status_run _ _ _ H) as [? | [? _]].
Qed.

Lemma wait_for_athena_follows (svc : services) (fuel : nat) (qid : string)
    (tr : trace) :
  follows tr (Querying qid) ->
  match wait_for_athena svc fuel qid tr with
  | Done q tr' => follows tr' (Queried q)
  | OutOfFuel tr' => follows tr' (Querying qid)
  | Raised _ _ => False
  end.
Proof.
  revert tr. induction fuel as [|fuel IH]; intros tr Htr; [done|].
  cbn [wait_for_athena]. unfold bind, call, log, sleep, perform, ret.
  destruct (query_terminal _) eqn:Hterm.
  - follow.
  - apply IH. follow.
Qed.

(** The classification block performs no effect but its warning. *)
Lemma decide_crawler_trace (g : globals) (job_name : value) (tr : trace) :
  match decide_crawler g job_name tr with
  | Done (Some _) tr' => tr' = tr
  | Done None tr' =>
      tr' = tr ++ [Log WARNING "No crawler found for job name: %s" [job_name]]
  | Raised _ tr' => tr' = tr
  | OutOfFuel _ => False
  end.
Proof.
  unfold decide_crawler, bind, py_in, environ_get, log, perform, ret, raise.
  destruct job_name; repeat case_match; simplify_eq; done.
Qed.

Lemma run_athena_query_follows (g : globals) (svc : services) (fuel : nat)
    (first : Table) (rest : list Table) (tr : trace) :
  follows tr (Resolved (first :: rest)) ->
  let o := run_athena_query g svc fuel (Name first) tr in
  exists s, follows (trace_of o) s /\ verdict g o s.
Proof.
  intros Htr. unfold run_athena_query, bind, call, log, perform.
  match goal with
  | |- context [wait_for_athena svc fuel ?qid ?tr1] =>
      pose proof (wait_for_athena_follows svc fuel qid tr1) as Hloop;
      destruct (wait_for_athena svc fuel qid tr1) as [q tr2 | e tr2 | tr2]
  end.
  - assert (follows tr2 (Queried q)) as Hq by (apply Hloop; follow).
    exists (Queried q). unfold ret.
    destruct (String.eqb (State q) "SUCCEEDED") eqn:Hs; simpl;
      (split; [follow | by rewrite Hs, last_snoc]).
  - exfalso. apply Hloop. follow.
  - eexists. split; [apply Hloop; follow | right; eauto].
Qed.

Lemma query_one_table_follows (g : globals) (svc : services) (fuel : nat)
    (table_prefix : string) (tr : trace) :
  follows tr Refreshed ->
  let o := query_one_table g svc fuel table_prefix tr in
  exists s, follows (trace_of o) s /\ verdict g o s.
Proof.
  intros Htr. unfold query_one_table, bind, call, log, perform.
  destruct (default [] _) as [|first rest] eqn:Htables.
  - exists (Resolved []). unfold ret. simpl. split; [follow|].
    split; [done|]. exists table_prefix. by rewrite last_snoc.
  - apply run_athena_query_follows with (rest := rest).
    follow.
Qed.

Lemma refresh_and_query_follows (g : globals) (svc : services) (fuel : nat)
    (crawler_name table_prefix : string) (tr : trace) :
  follows tr Idle ->
  let o := refresh_and_query g svc fuel crawler_name table_prefix tr in
  exists s, follows (trace_of o) s /\ verdict g o s.
Proof.
  intros Htr. unfold refresh_and_query, bind, log, perform.
  match goal with
  | |- context [wait_for_crawler svc fuel ?c 0 ?tr1] =>
      pose proof (wait_for_crawler_follows svc fuel c 0 tr1) as Hloop;
      destruct (wait_for_crawler svc fuel c 0 tr1) as [[] tr2 | e tr2 | tr2]
  end.
  - apply query_one_table_follows, Hloop. follow.
  - exfalso. apply Hloop. follow.
  - eexists. split; [apply Hloop; follow | left; eauto].
Qed.

(** Every invocation follows the protocol, whatever the services answer
    and however long it is allowed to run, and its outcome is the one the
    stage it stops in prescribes. *)
Lemma invoke_follows (g : globals) (svc : services) (fuel : nat) (event : value) :
  exists s,
    follows (trace_of (invoke g svc fuel event)) s
    /\ verdict g (invoke g svc fuel event) s.
Proof.
  unfold invoke, lambda_handler, bind, log, perform.
  destruct (get event "detail" (PDict [])) as [e | detail]; simpl;
    [by exists Idle|].
  destruct (get detail "jobName" (PStr "unknown")) as [e | job_name]; simpl;
    [by exists Idle|].
  match goal with
  | |- context [decide_crawler g job_name ?tr1] =>
      pose proof (decide_crawler_trace g job_name tr1) as Hdec;
      destruct (decide_crawler g job_name tr1) as [[[c p]|] tr2 | e tr2 | tr2]
  end; subst; try done.
  - by apply refresh_and_query_follows.
  - exists Idle. simpl. split; [done|]. split; [done|].
    by exists job_name.
  - by exists Idle.
Qed.

(** ** What following the protocol implies *)

Ltac by_step_cases :=
  intros s e s'; destruct e, s; simpl; try discriminate;
  repeat case_match; intros; simplify_eq; simpl; lia.

Lemma crosses_StartCrawler : crosses is_StartCrawler 1.
Proof. by_step_cases. Qed.

Lemma crosses_StartQueryExecution : crosses is_StartQueryExecution 4.
Proof. by_step_cases. Qed.

Lemma confined_crawler_call : confined is_crawler_call 1.
Proof. by_step_cases. Qed.

Lemma count_cons (p : effect -> bool) (e : effect) (tr : trace) :
  count p (e :: tr) = ((if p e then 1 else 0) + count p tr)%nat.
Proof. unfold count. simpl. by destruct (p e). Qed.

Lemma count_crosses (p : effect -> bool) (k : nat) (tr : trace) (s s' : stage) :
  crosses p k -> run s tr = Some s' ->
  (count p tr <= if decide (rank s < k <= rank s')%nat then 1 else 0)%nat.
Proof.
  intros Hp. revert s. induction tr as [|e tr IH]; intros s; simpl.
  - intros _. unfold count. simpl. lia.
  - destruct (step s e) as [s1|] eqn:He; [|done]. intros Hrun.
    pose proof (rank_step _ _ _ He). pose proof (rank_run _ _ _ Hrun).
    specialize (IH _ Hrun). rewrite count_cons.
    destruct (p e) eqn:Hpe.
    + destruct (Hp _ _ _ He Hpe). repeat case_decide; lia.
    + repeat case_decide; lia.
Qed.

Lemma count_confined (p : effect -> bool) (k : nat) (tr : trace) (s s' : stage) :
  confined p k -> run s tr = Some s' -> (k < rank s)%nat -> count p tr = 0%nat.
Proof.
  intros Hp. revert s. induction tr as [|e tr IH]; intros s; simpl; [done|].
  destruct (step s e) as [s1|] eqn:He; [|done]. intros Hrun Hk.
  pose proof (rank_step _ _ _ He). rewrite count_cons.
  destruct (p e) eqn:Hpe.
  - pose proof (Hp _ _ _ He Hpe). lia.
  - apply IH with s1; [done | lia].
Qed.

(** Two stages are final: nothing but log records follows them. *)
Lemma run_Queried (tr : trace) (q : QueryStatus) (s' : stage) :
  run (Queried q) tr = Some s' -> s' = Queried q.
Proof.
  induction tr as [|e tr IH]; simpl; [by intros [= <-]|].
  by destruct e.
Qed.

Lemma run_Resolved_nil (tr : trace) (s' : stage) :
  run (Resolved []) tr = Some s' -> s' = Resolved [].
Proof.
  induction tr as [|e tr IH]; simpl; [by intros [= <-]|].
  by destruct e.
Qed.

(** Once a terminal query state has been observed the protocol is in
    [Queried], with that state. *)
Lemma run_terminal_poll (tr : trace) (s s' : stage) (qid : string) (q : QueryStatus) :
  run s tr = Some s' -> GetQueryExecution qid q ∈ tr ->
  query_terminal (State q) = true -> s' = Queried q.
Proof.
  intros Hrun Hin Hterm. revert s Hrun.
  induction tr as [|e tr IH]; intros s; [by apply elem_of_nil in Hin|]. simpl.
  destruct (step s e) as [s1|] eqn:He; [|done]. intros Hrun.
  apply elem_of_cons in Hin as [<-|Hin]; [|by eapply IH].
  destruct s; simpl in He; try discriminate.
  destruct (String.eqb _ _); [|done]. rewrite Hterm in He.
  injection He as <-. by apply run_Queried in Hrun.
Qed.

(** After an empty catalog answer the protocol stays in [Resolved []]. *)
Lemma run_empty_catalog (tr : trace) (s s' : stage) (d x : string)
    (resp : option (list Table)) :
  run s tr = Some s' -> GetTables d x resp ∈ tr ->
  default [] resp = [] -> s' = Resolved [].
Proof.
  intros Hrun Hin Hempty. revert s Hrun.
  induction tr as [|e tr IH]; intros s; [by apply elem_of_nil in Hin|]. simpl.
  destruct (step s e) as [s1|] eqn:He; [|done]. intros Hrun.
  apply elem_of_cons in Hin as [<-|Hin]; [|by eapply IH].
  destruct s; simpl in He; try discriminate.
  injection He as <-. rewrite Hempty in Hrun. by apply run_Resolved_nil in Hrun.
Qed.

(** From [Resolved] with a first table, the protocol either stays there or
    has submitted the query on that table. *)
Lemma run_Resolved_cons (tr : trace) (first : Table) (rest : list Table)
    (s' : stage) :
  run (Resolved (first :: rest)) tr = Some s' ->
  s' = Resolved (first :: rest)
  \/ exists d o qid,
      StartQueryExecution ("SELECT * FROM " +:+ Name first) d o qid ∈ tr.
Proof.
  induction tr as [|e tr IH]; simpl; [intros [= <-]; by left|].
  destruct e; simpl; try done.
  - destruct (String.eqb query _) eqn:Hq; [|done]. intros _. right.
    apply String.eqb_eq in Hq as ->. do 3 eexists. apply list_elem_of_here.
  - intros [-> | (d & o & qid & Hin)]%IH; [by left|].
    right. exists d, o, qid. by apply list_elem_of_further.
Qed.

Lemma run_nonempty_catalog (tr : trace) (s s' : stage) (d x : string)
    (resp : option (list Table)) (first : Table) (rest : list Table) :
  run s tr = Some s' -> GetTables d x resp ∈ tr ->
  default [] resp = first :: rest ->
  s' = Resolved (first :: rest)
  \/ exists d' o qid,
      StartQueryExecution ("SELECT * FROM " +:+ Name first) d' o qid ∈ tr.
Proof.
  intros Hrun Hin Hfirst. revert s Hrun.
  induction tr as [|e tr IH]; intros s; [by apply elem_of_nil in Hin|]. simpl.
  destruct (step s e) as [s1|] eqn:He; [|done]. intros Hrun.
  apply elem_of_cons in Hin as [<-|Hin].
  - destruct s; simpl in He; try discriminate.
    injection He as <-. rewrite Hfirst in Hrun.
    apply run_Resolved_cons in Hrun as [-> | (d' & o & qid & Hin)]; [by left|].
    right. exists d', o, qid. by apply list_elem_of_further.
  - destruct (IH Hin _ Hrun) as [-> | (d' & o & qid & Hin')]; [by left|].
    right. exists d', o, qid. by apply list_elem_of_further.
Qed.

(** Decides membership in a trace that evaluates to a literal list. *)
Ltac in_trace :=
  vm_compute; repeat first [apply list_elem_of_here | apply list_elem_of_further].

(** * The claims *)

(** C9.  Every invocation is strictly sequential: whatever the services
    answer and wherever the run stops, its trace follows the protocol
    [Idle], [Crawling], [Refreshed], [Resolved], [Querying], [Queried];
    it starts at most one crawler and submits at most one query; and a
    query is submitted only once the wait for the crawler is over and the
    catalog has been read, after which no call about the crawler is made. *)
Theorem invocation_is_sequential (g : globals) (svc : services) (fuel : nat)
    (event : value) :
  let tr := trace_of (invoke g svc fuel event) in
  (exists s, follows tr s)
  /\ (count is_StartCrawler tr <= 1)%nat
  /\ (count is_StartQueryExecution tr <= 1)%nat
  /\ forall pre e post,
      tr = pre ++ e :: post -> is_StartQueryExecution e = true ->
      (exists tables, follows pre (Resolved tables))
      /\ count is_crawler_call post = 0%nat.
Proof.
  intros tr. destruct (invoke_follows g svc fuel event) as (s & Hs & _).
  fold tr in Hs. split; [by exists s|].
  split.
  { pose proof (count_crosses _ _ _ _ _ crosses_StartCrawler Hs).
    case_decide; lia. }
  split.
  { pose proof (count_crosses _ _ _ _ _ crosses_StartQueryExecution Hs).
    case_decide; lia. }
  intros pre e post Htr He. unfold follows in Hs.
  rewrite Htr, run_app in Hs.
  destruct (run Idle pre) as [s1|] eqn:Hpre; [|done]. simpl in Hs.
  destruct (step s1 e) as [s2|] eqn:Hstep; [|done].
  destruct e; try discriminate He.
  destruct s1 as [| | |[|first rest]| |]; simpl in Hstep; try discriminate.
  destruct (String.eqb _ _); [|done]. injection Hstep as <-.
  split; [by eexists|].
  eapply count_confined; [apply confined_crawler_call | done | simpl; lia].
Qed.

(** C1.  When an invocation has observed a terminal query state, the
    handler returns; it returns [True] exactly when that state is
    SUCCEEDED, and for any other terminal state it returns [False] after
    an error record that carries the state and the reason found in the
    status of the query run ("Unknown" when the status has none).  The
    record of a successful run carries no reason. *)
Theorem query_outcome_decides_result (g : globals) (svc : services) (fuel : nat)
    (event : value) (qid : string) (q : QueryStatus) :
  GetQueryExecution qid q ∈ trace_of (invoke g svc fuel event) ->
  query_terminal (State q) = true ->
  exists b tr,
    invoke g svc fuel event = Done b tr
    /\ last_query_status tr = Some q
    /\ (b = true <-> State q = "SUCCEEDED"%string)
    /\ (State q <> "SUCCEEDED"%string ->
        b = false
        /\ last tr =
           Some (Log ERROR "Athena query did NOT succeed. State: %s, Reason: %s"
                     [PStr (State q);
                      PStr (default "Unknown"%string (StateChangeReason q))]))
    /\ (State q = "SUCCEEDED"%string ->
        last tr =
        Some (Log INFO "Athena query SUCCEEDED. Results should be in: s3://%s/results/"
                  [PStr (ATHENA_OUTPUT_BUCKET g)])).
Proof.
  intros Hin Hterm.
  destruct (invoke_follows g svc fuel event) as (s & Hs & Hv).
  pose proof (run_terminal_poll _ _ _ _ _ Hs Hin Hterm) as ->.
  destruct (invoke g svc fuel event) as [b tr | e tr | tr]; simpl in *.
  - destruct Hv as [-> Hlast]. exists (String.eqb (State q) "SUCCEEDED"), tr.
    split; [done|]. split; [by apply follows_Queried_last|].
    destruct (String.eqb_spec (State q) "SUCCEEDED") as [Heq|Hne].
    + split; [done|]. split; [done|]. by intros _.
    + split; [split; [done | by intros ?]|]. split; [done | by intros ?].
  - discriminate Hv.
  - destruct Hv as [[c [=]] | [qid' [=]]].
Qed.

Lemma query_outcome_decides_result_witness :
  exists b tr,
    invoke Sample.g
           (Sample.steady "READY" (Some [Sample.csv_raw]) Sample.failed) 1
           (Sample.job_event "ingest-csv-001") = Done b tr
    /\ last_query_status tr = Some Sample.failed
    /\ (b = true <-> State Sample.failed = "SUCCEEDED"%string)
    /\ (State Sample.failed <> "SUCCEEDED"%string ->
        b = false
        /\ last tr =
           Some (Log ERROR "Athena query did NOT succeed. State: %s, Reason: %s"
                     [PStr "FAILED"; PStr "Syntax error"]))
    /\ (State Sample.failed = "SUCCEEDED"%string ->
        last tr =
        Some (Log INFO "Athena query SUCCEEDED. Results should be in: s3://%s/results/"
                  [PStr "bucket"])).
Proof.
  apply (query_outcome_decides_result Sample.g _ 1 _ "q-1" Sample.failed).
  - in_trace.
  - reflexivity.
Defined.

(** C5.  When the catalog lookup of an invocation answers with no table
    (an empty [TableList], or none at all), the handler returns [False]
    after the warning "No tables found ..." and its trace holds no query
    submission.  When the answer has a first table, the query submitted
    is [SELECT * FROM] that table, whatever follows it in the answer. *)
Theorem catalog_answer_decides_query (g : globals) (svc : services) (fuel : nat)
    (event : value) (d x : string) (resp : option (list Table)) :
  GetTables d x resp ∈ trace_of (invoke g svc fuel event) ->
  (default [] resp = [] ->
   exists tr table_prefix,
     invoke g svc fuel event = Done false tr
     /\ count is_StartQueryExecution tr = 0%nat
     /\ last tr = Some (Log WARNING "No tables found with prefix %s in DB %s"
                            [PStr table_prefix; PStr (GLUE_DATABASE g)]))
  /\ (forall first rest,
        default [] resp = first :: rest ->
        exists d' o qid,
          StartQueryExecution ("SELECT * FROM " +:+ Name first) d' o qid
            ∈ trace_of (invoke g svc fuel event)).
Proof.
  intros Hin. destruct (invoke_follows g svc fuel event) as (s & Hs & Hv).
  split.
  - intros Hempty. pose proof (run_empty_catalog _ _ _ _ _ _ Hs Hin Hempty) as ->.
    destruct (invoke g svc fuel event) as [b tr | e tr | tr]; simpl in *.
    + destruct Hv as [-> [p Hlast]]. exists tr, p. split; [done|]. split; [|done].
      pose proof (count_crosses _ _ _ _ _ crosses_StartQueryExecution Hs) as Hc.
      case_decide as Hrank; [simpl in Hrank|]; lia.
    + discriminate Hv.
    + destruct Hv as [[c [=]] | [qid [=]]].
  - intros first rest Hfirst.
    destruct (run_nonempty_catalog _ _ _ _ _ _ _ _ Hs Hin Hfirst) as [-> | H]; [|done].
    destruct (invoke g svc fuel event) as [b tr | e tr | tr]; simpl in *.
    + done.
    + discriminate Hv.
    + destruct Hv as [[c [=]] | [qid [=]]].
Qed.

Lemma catalog_answer_decides_query_witness :
  (default [] (Some [Sample.csv_raw; Sample.csv_old]) = [] ->
   exists tr table_prefix,
     invoke Sample.g
            (Sample.steady "READY" (Some [Sample.csv_raw; Sample.csv_old])
                           Sample.succeeded) 1
            (Sample.job_event "ingest-csv-001") = Done false tr
     /\ count is_StartQueryExecution tr = 0%nat
     /\ last tr = Some (Log WARNING "No tables found with prefix %s in DB %s"
                            [PStr table_prefix; PStr "db"]))
  /\ (forall first rest,
        default [] (Some [Sample.csv_raw; Sample.csv_old]) = first :: rest ->
        exists d' o qid,
          StartQueryExecution ("SELECT * FROM " +:+ Name first) d' o qid
            ∈ trace_of
                (invoke Sample.g
                   (Sample.steady "READY" (Some [Sample.csv_raw; Sample.csv_old])
                                  Sample.succeeded) 1
                   (Sample.job_event "ingest-csv-001"))).
Proof.
  apply (catalog_answer_decides_query Sample.g _ 1 _ "db" "csv_*").
  in_trace.
Defined.

(** The run on a job name that holds no marker. *)
Lemma invoke_unmarked (g : globals) (svc : services) (fuel : nat)
    (event detail : value) (job_name : string) :
  get event "detail" (PDict []) = inr detail ->
  get detail "jobName" (PStr "unknown") = inr (PStr job_name) ->
  contains "txt" job_name = false ->
  contains "csv" job_name = false ->
  contains "json" job_name = false ->
  invoke g svc fuel event =
    Done false [Log INFO "Received event: %s" [event];
                Log INFO "Triggered by Glue job: %s" [PStr job_name];
                Log WARNING "No crawler found for job name: %s" [PStr job_name]].
Proof.
  intros Hdetail Hjob Htxt Hcsv Hjson.
  unfold invoke, lambda_handler, bind, log, perform. rewrite Hdetail. simpl.
  rewrite Hjob. simpl.
  unfold decide_crawler, bind, py_in, ret. by rewrite Htxt, Hcsv, Hjson.
Qed.

(** C2.  A job name that contains none of "txt", "csv", "json" makes the
    handler return [False] at once: its trace is the two records of the
    event and the warning "No crawler found ...", with no call to Glue or
    Athena and no sleep. *)
Theorem unmarked_job_returns_false (g : globals) (svc : services) (fuel : nat)
    (event detail : value) (job_name : string) :
  get event "detail" (PDict []) = inr detail ->
  get detail "jobName" (PStr "unknown") = inr (PStr job_name) ->
  ~ substring_of "txt" job_name ->
  ~ substring_of "csv" job_name ->
  ~ substring_of "json" job_name ->
  invoke g svc fuel event =
    Done false [Log INFO "Received event: %s" [event];
                Log INFO "Triggered by Glue job: %s" [PStr job_name];
                Log WARNING "No crawler found for job name: %s" [PStr job_name]]
  /\ count is_service_call (trace_of (invoke g svc fuel event)) = 0%nat
  /\ count is_Sleep (trace_of (invoke g svc fuel event)) = 0%nat.
Proof.
  intros Hdetail Hjob Htxt%contains_false_iff Hcsv%contains_false_iff
    Hjson%contains_false_iff.
  by rewrite (invoke_unmarked g svc fuel _ _ _ Hdetail Hjob Htxt Hcsv Hjson).
Qed.

Lemma unmarked_job_returns_false_witness :
  invoke Sample.g (Sample.steady "READY" None Sample.succeeded) 0
         (Sample.job_event "cleanup-job") =
    Done false [Log INFO "Received event: %s" [Sample.job_event "cleanup-job"];
                Log INFO "Triggered by Glue job: %s" [PStr "cleanup-job"];
                Log WARNING "No crawler found for job name: %s" [PStr "cleanup-job"]]
  /\ count is_service_call
       (trace_of (invoke Sample.g (Sample.steady "READY" None Sample.succeeded) 0
                         (Sample.job_event "cleanup-job"))) = 0%nat
  /\ count is_Sleep
       (trace_of (invoke Sample.g (Sample.steady "READY" None Sample.succeeded) 0
                         (Sample.job_event "cleanup-job"))) = 0%nat.
Proof.
  apply (unmarked_job_returns_false Sample.g _ 0 _
           (PDict [("jobName"%string, PStr "cleanup-job")]) "cleanup-job");
    first [reflexivity | by apply contains_false_iff].
Defined.

(** C10, as stated, fails: in the event [{"detail": null}] there is no
    'jobName' field, yet the handler raises [AttributeError] when it calls
    [.get] on the null detail. *)
Lemma null_detail_raises :
  field "detail" (PDict [("detail"%string, PNone)]) ≫= field "jobName" = None
  /\ invoke Sample.g (Sample.steady "READY" None Sample.succeeded) 0
            (PDict [("detail"%string, PNone)])
     = Raised AttributeError
              [Log INFO "Received event: %s" [PDict [("detail"%string, PNone)]]].
Proof. split; reflexivity. Qed.

(** C10, amended.  For every event that is a mapping in which 'detail' is
    absent, or is itself a mapping in which 'jobName' is absent, the
    handler does not raise: it takes the job name "unknown", which holds
    no marker, and returns [False] with no call to Glue or Athena. *)
Theorem absent_fields_default_to_unknown (g : globals) (svc : services)
    (fuel : nat) (d : list (string * value)) :
  assoc "detail" d = None
  \/ (exists d', assoc "detail" d = Some (PDict d') /\ assoc "jobName" d' = None) ->
  invoke g svc fuel (PDict d) =
    Done false [Log INFO "Received event: %s" [PDict d];
                Log INFO "Triggered by Glue job: %s" [PStr "unknown"];
                Log WARNING "No crawler found for job name: %s" [PStr "unknown"]]
  /\ count is_service_call (trace_of (invoke g svc fuel (PDict d))) = 0%nat.
Proof.
  intros Habsent.
  assert (exists detail,
             get (PDict d) "detail" (PDict []) = inr detail
             /\ get detail "jobName" (PStr "unknown") = inr (PStr "unknown"))
    as (detail & Hdetail & Hjob).
  { destruct Habsent as [Hnone | (d' & Hsome & Hnone)]; simpl.
    - rewrite Hnone. by exists (PDict []).
    - rewrite Hsome. exists (PDict d'). simpl. by rewrite Hnone. }
  by rewrite (invoke_unmarked g svc fuel _ _ _ Hdetail Hjob).
Qed.

Lemma absent_fields_default_to_unknown_witness :
  invoke Sample.g (Sample.steady "READY" None Sample.succeeded) 0
         (PDict [("detail"%string, PDict [("state"%string, PStr "SUCCEEDED")])]) =
    Done false [Log INFO "Received event: %s"
                    [PDict [("detail"%string,
                             PDict [("state"%string, PStr "SUCCEEDED")])]];
                Log INFO "Triggered by Glue job: %s" [PStr "unknown"];
                Log WARNING "No crawler found for job name: %s" [PStr "unknown"]]
  /\ count is_service_call
       (trace_of
          (invoke Sample.g (Sample.steady "READY" None Sample.succeeded) 0
             (PDict [("detail"%string,
                      PDict [("state"%string, PStr "SUCCEEDED")])]))) = 0%nat.
Proof.
  apply (absent_fields_default_to_unknown Sample.g _ 0
           [("detail"%string, PDict [("state"%string, PStr "SUCCEEDED")])]).
  right. exists [("state"%string, PStr "SUCCEEDED")]. split; reflexivity.
Defined.

(** C4.  On a job name that is a string the classification block takes
    the first of the markers "txt", "csv", "json" that occurs in the name
    as a substring: it yields the crawler that the environment names for
    that marker and the marker followed by an underscore, and warns when
    there is none.  In particular a name that holds "csv" and not "txt"
    gets the csv crawler and the prefix "csv_", whatever else it holds. *)
Theorem classification_first_marker_wins (g : globals) (job_name : string)
    (tr : trace) :
  decide_crawler g (PStr job_name) tr =
    match first_marker job_name with
    | None =>
        Done None (tr ++ [Log WARNING "No crawler found for job name: %s"
                              [PStr job_name]])
    | Some marker =>
        match environ g !! crawler_variable marker with
        | Some crawler_name => Done (Some (crawler_name, marker +:+ "_")) tr
        | None => Raised (KeyError (crawler_variable marker)) tr
        end
    end
  /\ forall crawler_name,
      substring_of "csv" job_name ->
      ~ substring_of "txt" job_name ->
      environ g !! "CSV_CRAWLER"%string = Some crawler_name ->
      decide_crawler g (PStr job_name) tr
      = Done (Some (crawler_name, "csv_"%string)) tr.
Proof.
  unfold decide_crawler, first_marker, markers, bind, py_in, environ_get, ret, raise.
  split.
  - simpl. destruct (contains "txt" job_name); [by destruct (environ g !! _)|].
    destruct (contains "csv" job_name); [by destruct (environ g !! _)|].
    destruct (contains "json" job_name); [by destruct (environ g !! _)|].
    done.
  - intros c Hcsv%contains_true_iff Htxt%contains_false_iff Henv.
    by rewrite Htxt, Hcsv, Henv.
Qed.

Lemma classification_first_marker_wins_witness :
  decide_crawler Sample.g (PStr "csv-to-json-export") []
  = Done (Some ("csv-crawler", "csv_")%string) [].
Proof.
  apply (proj2 (classification_first_marker_wins Sample.g "csv-to-json-export" [])).
  - apply contains_true_iff. reflexivity.
  - apply contains_false_iff. reflexivity.
  - reflexivity.
Defined.

(** Matching is case-sensitive: an upper-case "CSV" is no marker. *)
Example upper_case_is_no_marker : first_marker "INGEST-CSV-001" = None.
Proof. reflexivity. Qed.

(** C7.  When the first sample of the crawler's state is READY or
    STOPPING the wait is over at once: one call to [get_crawler], the two
    records of the state, no sleep and no timeout warning. *)
Theorem terminal_first_sample_ends_wait (svc : services) (fuel : nat)
    (c : string) (tr : trace) :
  crawler_state svc tr c = "READY"%string
  \/ crawler_state svc tr c = "STOPPING"%string ->
  exists ext,
    wait_for_crawler svc (S fuel) c 0 tr = Done tt (tr ++ ext)
    /\ ext = [GetCrawler c (crawler_state svc tr c);
              Log INFO "Crawler state: %s" [PStr (crawler_state svc tr c)];
              Log INFO "Crawler finished with state: %s"
                  [PStr (crawler_state svc tr c)]]
    /\ count is_GetCrawler ext = 1%nat
    /\ count is_Sleep ext = 0%nat.
Proof.
  intros Hstate. eexists. split; [|split; [reflexivity | by split]].
  cbn [wait_for_crawler]. unfold bind, call, log, perform.
  replace (crawler_terminal (crawler_state svc tr c)) with true
    by (by destruct Hstate as [-> | ->]).
  by rewrite <- !app_assoc.
Qed.

Lemma terminal_first_sample_ends_wait_witness :
  exists ext,
    wait_for_crawler (Sample.steady "STOPPING" None Sample.running) 1
                     "csv-crawler" 0 [] = Done tt ([] ++ ext)
    /\ ext = [GetCrawler "csv-crawler" "STOPPING";
              Log INFO "Crawler state: %s" [PStr "STOPPING"];
              Log INFO "Crawler finished with state: %s" [PStr "STOPPING"]]
    /\ count is_GetCrawler ext = 1%nat
    /\ count is_Sleep ext = 0%nat.
Proof.
  apply (terminal_first_sample_ends_wait
           (Sample.steady "STOPPING" None Sample.running) 0 "csv-crawler" []).
  right. reflexivity.
Defined.

(** A crawler that never reports a terminal state is sampled once more
    for each five seconds that remain of the bound. *)
Lemma wait_for_crawler_timeout (svc : services) (c : string) :
  (forall h, crawler_terminal (crawler_state svc h c) = false) ->
  forall (n fuel : nat) (waited : Z) (tr : trace),
    (n < fuel)%nat ->
    max_wait_seconds - 5 * (Z.of_nat n + 1) <= waited < max_wait_seconds - 5 * Z.of_nat n ->
    exists ext,
      wait_for_crawler svc fuel c waited tr = Done tt (tr ++ ext)
      /\ count is_GetCrawler ext = S n
      /\ count is_Sleep ext = S n
      /\ last ext = Some timeout_warning.
Proof.
  intros Hnever. induction n as [|n IH]; intros fuel waited tr Hfuel Hwaited;
    (destruct fuel as [|fuel]; [lia|]);
    cbn [wait_for_crawler]; unfold bind, call, log, sleep, perform;
    rewrite Hnever; cbv zeta.
  - replace (waited + 5 >=? max_wait_seconds) with true
      by (symmetry; rewrite Z.geb_leb; apply Z.leb_le; lia).
    eexists. split; [by rewrite <- !app_assoc|]. by repeat split.
  - replace (waited + 5 >=? max_wait_seconds) with false
      by (symmetry; rewrite Z.geb_leb; apply Z.leb_gt; lia).
    edestruct (IH fuel (waited + 5)) as (ext & -> & Hget & Hsleep & Hlast);
      [lia | lia |].
    eexists. split; [by rewrite <- !app_assoc|].
    rewrite !count_app, Hget, Hsleep. repeat split.
    by rewrite !last_app, Hlast.
Qed.

(** C3.  With the bound of 90 seconds and the interval of 5, a crawler
    whose sampled state is never terminal ends the wait normally after
    exactly 18 = ceil (90 / 5) samples and as many sleeps, with the
    timeout warning as the last record. *)
Theorem crawler_wait_times_out_after_18_samples (svc : services) (fuel : nat)
    (c : string) (tr : trace) :
  (forall h, crawler_terminal (crawler_state svc h c) = false) ->
  (18 <= fuel)%nat ->
  exists ext,
    wait_for_crawler svc fuel c 0 tr = Done tt (tr ++ ext)
    /\ count is_GetCrawler ext = 18%nat
    /\ Z.of_nat (count is_GetCrawler ext) = ceil_div max_wait_seconds 5
    /\ count is_Sleep ext = 18%nat
    /\ last ext = Some timeout_warning.
Proof.
  intros Hnever Hfuel.
  destruct (wait_for_crawler_timeout svc c Hnever 17 fuel 0 tr)
    as (ext & Hrun & Hget & Hsleep & Hlast); [lia | by unfold max_wait_seconds |].
  exists ext. rewrite Hget. by repeat split.
Qed.

Lemma crawler_wait_times_out_after_18_samples_witness :
  exists ext,
    wait_for_crawler (Sample.steady "RUNNING" None Sample.running) 18
                     "csv-crawler" 0 [] = Done tt ([] ++ ext)
    /\ count is_GetCrawler ext = 18%nat
    /\ Z.of_nat (count is_GetCrawler ext) = ceil_div max_wait_seconds 5
    /\ count is_Sleep ext = 18%nat
    /\ last ext = Some timeout_warning.
Proof.
  apply (crawler_wait_times_out_after_18_samples
           (Sample.steady "RUNNING" None Sample.running) 18 "csv-crawler" []).
  - intros h. reflexivity.
  - lia.
Defined.

(** The Athena loop is left only on a terminal state. *)
Lemma wait_for_athena_exit (svc : services) (fuel : nat) (qid : string)
    (tr tr' : trace) (q : QueryStatus) :
  wait_for_athena svc fuel qid tr = Done q tr' -> query_terminal (State q) = true.
Proof.
  revert tr. induction fuel as [|fuel IH]; intros tr; [done|].
  cbn [wait_for_athena]. unfold bind, call, log, sleep, perform, ret.
  destruct (query_terminal (State (query_status svc tr qid))) eqn:Hterm;
    [by intros [= <- _] | apply IH].
Qed.

(** While the state is not terminal the loop goes on, one poll and one
    sleep of five seconds per iteration. *)
Lemma wait_for_athena_spins (svc : services) (qid : string) :
  (forall h, query_terminal (State (query_status svc h qid)) = false) ->
  forall (fuel : nat) (tr : trace),
  exists ext,
    wait_for_athena svc fuel qid tr = OutOfFuel (tr ++ ext)
    /\ count is_GetQueryExecution ext = fuel
    /\ count is_Sleep ext = fuel
    /\ Forall (fun e => is_Sleep e = true -> e = Sleep 5) ext.
Proof.
  intros Hnever. induction fuel as [|fuel IH]; intros tr.
  - exists []. by rewrite app_nil_r.
  - cbn [wait_for_athena]. unfold bind, call, log, sleep, perform.
    rewrite Hnever.
    edestruct IH as (ext & -> & Hget & Hsleep & Hfive).
    eexists. split; [by rewrite <- !app_assoc|].
    rewrite !count_app, Hget, Hsleep. repeat split.
    repeat (apply Forall_app; split; [by repeat constructor|]). done.
Qed.

(** C8.  The wait for the query has no time bound.  The loop is left
    only with a terminal state; and when the state it observes is never
    terminal it is still running after any number of iterations, having
    polled once and slept five seconds in each. *)
Theorem query_wait_has_no_bound (svc : services) (fuel : nat) (qid : string)
    (tr : trace) :
  (forall q tr',
      wait_for_athena svc fuel qid tr = Done q tr' ->
      query_terminal (State q) = true)
  /\ ((forall h, query_terminal (State (query_status svc h qid)) = false) ->
      exists ext,
        wait_for_athena svc fuel qid tr = OutOfFuel (tr ++ ext)
        /\ count is_GetQueryExecution ext = fuel
        /\ count is_Sleep ext = fuel
        /\ Forall (fun e => is_Sleep e = true -> e = Sleep 5) ext).
Proof.
  split.
  - intros q tr'. apply wait_for_athena_exit.
  - intros Hnever. by apply wait_for_athena_spins.
Qed.

Lemma query_wait_has_no_bound_witness :
  exists ext,
    wait_for_athena (Sample.steady "READY" None Sample.running) 1000 "q-1" []
    = OutOfFuel ([] ++ ext)
    /\ count is_GetQueryExecution ext = 1000%nat
    /\ count is_Sleep ext = 1000%nat
    /\ Forall (fun e => is_Sleep e = true -> e = Sleep 5) ext.
Proof.
  apply (proj2 (query_wait_has_no_bound
                  (Sample.steady "READY" None Sample.running) 1000 "q-1" [])).
  intros h. reflexivity.
Defined.

(** Every block only adds to the trace. *)
Lemma wait_for_athena_extends (svc : services) (fuel : nat) (qid : string)
    (tr : trace) :
  exists ext, trace_of (wait_for_athena svc fuel qid tr) = tr ++ ext.
Proof.
  revert tr. induction fuel as [|fuel IH]; intros tr.
  - exists []. by rewrite app_nil_r.
  - cbn [wait_for_athena]. unfold bind, call, log, sleep, perform, ret.
    destruct (query_terminal _).
    + eexists. simpl. by rewrite <- !app_assoc.
    + edestruct IH as [ext ->]. eexists. by rewrite <- !app_assoc.
Qed.

Lemma query_one_table_reads_catalog (g : globals) (svc : services) (fuel : nat)
    (table_prefix : string) (tr : trace) :
  exists resp,
    GetTables (GLUE_DATABASE g) (table_prefix +:+ "*") resp
      ∈ trace_of (query_one_table g svc fuel table_prefix tr).
Proof.
  eexists. unfold query_one_table, bind, call, log, perform, ret.
  destruct (default [] _) as [|first rest]; simpl.
  - rewrite !elem_of_app, !list_elem_of_singleton. eauto.
  - unfold run_athena_query, bind, call, log, perform.
    match goal with
    | |- context [wait_for_athena svc fuel ?qid ?tr1] =>
        destruct (wait_for_athena_extends svc fuel qid tr1) as [ext Hext];
        destruct (wait_for_athena svc fuel qid tr1) as [q tr2 | e tr2 | tr2];
        simpl in Hext; subst tr2
    end.
    + destruct (negb _); simpl;
        rewrite !elem_of_app, !list_elem_of_singleton; eauto 10.
    + simpl. rewrite !elem_of_app, !list_elem_of_singleton. eauto 10.
    + simpl. rewrite !elem_of_app, !list_elem_of_singleton. eauto 10.
Qed.

(** With fuel for 18 iterations the crawler loop always ends normally,
    whatever the crawler does. *)
Lemma wait_for_crawler_total (svc : services) (c : string) :
  forall (n fuel : nat) (waited : Z) (tr : trace),
    (n < fuel)%nat ->
    max_wait_seconds - 5 * (Z.of_nat n + 1) <= waited ->
    exists ext,
      wait_for_crawler svc fuel c waited tr = Done tt (tr ++ ext)
      /\ (count is_GetCrawler ext <= S n)%nat.
Proof.
  induction n as [|n IH]; intros fuel waited tr Hfuel Hwaited;
    (destruct fuel as [|fuel]; [lia|]);
    cbn [wait_for_crawler]; unfold bind, call, log, sleep, perform;
    (destruct (crawler_terminal _);
     [eexists; split; [by rewrite <- !app_assoc | unfold count; simpl; lia]|]); cbv zeta.
  - replace (waited + 5 >=? max_wait_seconds) with true
      by (symmetry; rewrite Z.geb_leb; apply Z.leb_le; lia).
    eexists. split; [by rewrite <- !app_assoc | unfold count; simpl; lia].
  - destruct (waited + 5 >=? max_wait_seconds).
    + eexists. split; [by rewrite <- !app_assoc | unfold count; simpl; lia].
    + edestruct (IH fuel (waited + 5)) as (ext & -> & Hget); [lia | lia |].
      eexists. split; [by rewrite <- !app_assoc|].
      rewrite !count_app. unfold count at 1 2 3. simpl. lia.
Qed.

(** A run in which the crawler times out and the query succeeds returns
    [True]: the timeout is no failure. *)
Example timeout_then_success :
  exists tr,
    invoke Sample.g
           (Sample.steady "RUNNING" (Some [Sample.csv_raw]) Sample.succeeded) 18
           (Sample.job_event "ingest-csv-001") = Done true tr
    /\ timeout_warning ∈ tr.
Proof. eexists. split; [vm_compute; reflexivity | in_trace]. Qed.

(** The end-to-end scenarios of the specification. *)
Example scenario_success :
  exists tr,
    invoke Sample.g
           (Sample.steady "READY" (Some [Sample.csv_raw]) Sample.succeeded) 1
           (Sample.job_event "ingest-csv-001") = Done true tr.
Proof. eexists. vm_compute. reflexivity. Qed.

Example scenario_syntax_error :
  exists tr,
    invoke Sample.g
           (Sample.steady "READY" (Some [Sample.csv_raw]) Sample.failed) 1
           (Sample.job_event "ingest-csv-001") = Done false tr
    /\ last tr = Some (Log ERROR "Athena query did NOT succeed. State: %s, Reason: %s"
                           [PStr "FAILED"; PStr "Syntax error"]).
Proof. eexists. split; vm_compute; reflexivity. Qed.

(** * Further properties of the handler *)

(** ** What a block adds to the trace *)

Lemma appends_ret {A : Type} (P : effect -> Prop) (a : A) : appends P (ret a).
Proof. intros tr. exists []. by rewrite app_nil_r. Qed.

Lemma appends_raise {A : Type} (P : effect -> Prop) (e : exn) :
  appends P (@raise A e).
Proof. intros tr. exists []. by rewrite app_nil_r. Qed.

Lemma appends_diverge {A : Type} (P : effect -> Prop) : appends P (@diverge A).
Proof. intros tr. exists []. by rewrite app_nil_r. Qed.

Lemma appends_lift {A : Type} (P : effect -> Prop) (r : exn + A) :
  appends P (lift r).
Proof. destruct r; [apply appends_raise | apply appends_ret]. Qed.

Lemma appends_perform {A : Type} (P : effect -> Prop) (a : A) (e : effect) :
  P e -> appends P (perform a e).
Proof. intros He tr. exists [e]. split; [done | by apply Forall_singleton]. Qed.

Lemma appends_call {A : Type} (P : effect -> Prop) (answer : trace -> A)
    (e : A -> effect) :
  (forall a, P (e a)) -> appends P (call answer e).
Proof.
  intros He tr. exists [e (answer tr)]. split; [done | by apply Forall_singleton].
Qed.

(** Sequencing, where the continuation may rely on a fact [R] about the
    value the first block yields. *)
Lemma appends_bind_with {A B : Type} (P : effect -> Prop) (R : A -> Prop)
    (m : M A) (k : A -> M B) :
  (forall tr a tr', m tr = Done a tr' -> R a) ->
  appends P m -> (forall a, R a -> appends P (k a)) -> appends P (bind m k).
Proof.
  intros HR Hm Hk tr. unfold bind.
  destruct (Hm tr) as (ext & Hext & HP).
  destruct (m tr) as [a tr1 | e tr1 | tr1] eqn:Hrun; simpl in Hext; subst tr1;
    [|by exists ext..].
  destruct (Hk a (HR _ _ _ Hrun) (tr ++ ext)) as (ext' & -> & HP').
  exists (ext ++ ext'). split; [by rewrite app_assoc | by apply Forall_app].
Qed.

Lemma appends_bind {A B : Type} (P : effect -> Prop) (m : M A) (k : A -> M B) :
  appends P m -> (forall a, appends P (k a)) -> appends P (bind m k).
Proof.
  intros Hm Hk. apply appends_bind_with with (R := fun _ => True); auto.
Qed.

Lemma appends_weaken {A : Type} (P Q : effect -> Prop) (m : M A) :
  (forall e, P e -> Q e) -> appends P m -> appends Q m.
Proof.
  intros HPQ Hm tr. destruct (Hm tr) as (ext & Hext & HP).
  exists ext. split; [done | by eapply Forall_impl].
Qed.

(** Splits a goal about a block into goals about its effects. *)
Ltac appends_step :=
  first
    [ apply appends_ret | apply appends_raise | apply appends_diverge
    | apply appends_lift
    | apply appends_perform | apply appends_call
    | apply appends_bind ].

Lemma appends_log (P : effect -> Prop) (lvl : level) (msg : string)
    (args : list value) :
  (forall lvl msg args, P (Log lvl msg args)) -> appends P (log lvl msg args).
Proof. intros HP. by apply appends_perform. Qed.

Lemma appends_py_in (P : effect -> Prop) (needle : string) (v : value) :
  appends P (py_in needle v).
Proof. destruct v; simpl; appends_step. Qed.

Lemma appends_environ_get (P : effect -> Prop) (g : globals) (k : string) :
  appends P (environ_get g k).
Proof. unfold environ_get. destruct (environ g !! k); appends_step. Qed.

Lemma appends_decide_crawler (P : effect -> Prop) (g : globals) (job_name : value) :
  (forall lvl msg args, P (Log lvl msg args)) ->
  appends P (decide_crawler g job_name).
Proof.
  intros HP. unfold decide_crawler.
  repeat first
    [ apply appends_py_in | apply appends_environ_get | by apply appends_log
    | apply appends_ret
    | apply appends_bind; [|intros []] ].
Qed.

Lemma appends_wait_for_crawler (P : effect -> Prop) (svc : services)
    (fuel : nat) (c : string) (waited : Z) :
  (forall lvl msg args, P (Log lvl msg args)) ->
  (forall st, P (GetCrawler c st)) -> P (Sleep 5) ->
  appends P (wait_for_crawler svc fuel c waited).
Proof.
  intros Hlog Hget Hsleep. revert waited.
  induction fuel as [|fuel IH]; intros waited; cbn [wait_for_crawler].
  - apply appends_diverge.
  - apply appends_bind; [by apply appends_call|]. intros status.
    apply appends_bind; [by apply appends_log|]. intros _.
    destruct (crawler_terminal status); [by apply appends_log|].
    apply appends_bind; [by apply appends_perform|]. intros _. cbv zeta.
    destruct (_ >=? _); [by apply appends_log | apply IH].
Qed.

Lemma appends_wait_for_athena (P : effect -> Prop) (svc : services)
    (fuel : nat) (qid : string) :
  (forall lvl msg args, P (Log lvl msg args)) ->
  (forall q, P (GetQueryExecution qid q)) -> P (Sleep 5) ->
  appends P (wait_for_athena svc fuel qid).
Proof.
  intros Hlog Hget Hsleep.
  induction fuel as [|fuel IH]; cbn [wait_for_athena].
  - apply appends_diverge.
  - apply appends_bind; [by apply appends_call|]. intros q. cbv zeta.
    apply appends_bind; [by apply appends_log|]. intros _.
    destruct (query_terminal _); [apply appends_ret|].
    apply appends_bind; [by apply appends_perform | by intros _].
Qed.

(** What the part of the handler after the crawler wait adds. *)
Lemma appends_query_one_table (P : effect -> Prop) (g : globals) (svc : services)
    (fuel : nat) (table_prefix : string) :
  (forall lvl msg args, P (Log lvl msg args)) ->
  (forall resp, P (GetTables (GLUE_DATABASE g) (table_prefix +:+ "*") resp)) ->
  (forall table_name qid,
      P (StartQueryExecution ("SELECT * FROM " +:+ table_name) (GLUE_DATABASE g)
           ("s3://" +:+ ATHENA_OUTPUT_BUCKET g +:+ "/results/") qid)) ->
  (forall qid q, P (GetQueryExecution qid q)) -> P (Sleep 5) ->
  appends P (query_one_table g svc fuel table_prefix).
Proof.
  intros Hlog Htables Hstart Hget Hsleep. unfold query_one_table.
  apply appends_bind; [by apply appends_log|]. intros _. cbv zeta.
  apply appends_bind; [by apply appends_call|]. intros resp.
  destruct (default [] resp) as [|first rest].
  { apply appends_bind; [by apply appends_log | intros _; apply appends_ret]. }
  apply appends_bind; [by apply appends_log|]. intros _.
  unfold run_athena_query. cbv zeta.
  apply appends_bind; [by apply appends_log|]. intros _.
  apply appends_bind; [by apply appends_call|]. intros qid.
  apply appends_bind; [by apply appends_log|]. intros _.
  apply appends_bind; [by apply appends_log|]. intros _.
  apply appends_bind; [by apply appends_wait_for_athena|]. intros q.
  destruct (negb _);
    (apply appends_bind; [by apply appends_log | intros _; apply appends_ret]).
Qed.

(** The prefix the classification block yields is one of the three. *)
Lemma decide_crawler_prefix (g : globals) (job_name : value) (tr tr' : trace)
    (c p : string) :
  decide_crawler g job_name tr = Done (Some (c, p)) tr' ->
  p = "txt_"%string \/ p = "csv_"%string \/ p = "json_"%string.
Proof.
  unfold decide_crawler, bind, py_in, environ_get, log, perform, ret, raise.
  destruct job_name; repeat case_match; intros; simplify_eq; auto.
Qed.

Lemma well_formed_log (g : globals) (lvl : level) (msg : string) (args : list value) :
  well_formed_request g (Log lvl msg args).
Proof. done. Qed.

Lemma appends_refresh_and_query (g : globals) (svc : services) (fuel : nat)
    (c p : string) :
  p = "txt_"%string \/ p = "csv_"%string \/ p = "json_"%string ->
  appends (well_formed_request g) (refresh_and_query g svc fuel c p).
Proof.
  intros Hp. unfold refresh_and_query.
  apply appends_bind; [by apply appends_log|]. intros _.
  apply appends_bind; [by apply appends_perform|]. intros _.
  apply appends_bind; [by apply appends_wait_for_crawler|]. intros _.
  apply appends_query_one_table; try done.
  - intros resp. split; [done|].
    destruct Hp as [-> | [-> | ->]]; unfold table_patterns; simpl; set_solver.
  - intros table_name qid. split; [by exists table_name | done].
Qed.

(** X1.  Every request of an invocation has the configured arguments:
    each sleep lasts five seconds, each catalog lookup is on the database
    of [GLUE_DATABASE] with one of the expressions "txt_*", "csv_*",
    "json_*", and each query is a [SELECT * FROM] some table, run in that
    database with its results under [s3://<ATHENA_OUTPUT_BUCKET>/results/]. *)
Theorem requests_are_well_formed (g : globals) (svc : services) (fuel : nat)
    (event : value) :
  Forall (well_formed_request g) (trace_of (invoke g svc fuel event)).
Proof.
  assert (appends (well_formed_request g) (lambda_handler g svc fuel event)) as H.
  { unfold lambda_handler.
    apply appends_bind; [by apply appends_log|]. intros _.
    apply appends_bind; [apply appends_lift|]. intros detail.
    apply appends_bind; [apply appends_lift|]. intros job_name.
    apply appends_bind; [by apply appends_log|]. intros _.
    apply appends_bind_with
      with (R := fun choice =>
                   match choice with
                   | Some (_, p) =>
                       p = "txt_"%string \/ p = "csv_"%string \/ p = "json_"%string
                   | None => True
                   end).
    - intros tr [[c p]|] tr' Hrun; [|done]. by eapply decide_crawler_prefix.
    - by apply appends_decide_crawler.
    - intros [[c p]|] Hp; [by apply appends_refresh_and_query | apply appends_ret]. }
  destruct (H []) as (ext & Hext & Hwf). unfold invoke. by rewrite Hext.
Qed.

(** ** Exceptions *)

Lemma get_inl (obj : value) (key : string) (dflt : value) (e : exn) :
  get obj key dflt = inl e -> e = AttributeError.
Proof. destruct obj; simpl; congruence. Qed.

(** A trace that is still in [Idle] holds log records only. *)
Lemma run_Idle_quiet (tr : trace) (s : stage) :
  run s tr = Some Idle ->
  count is_service_call tr = 0%nat /\ count is_Sleep tr = 0%nat.
Proof.
  revert s. induction tr as [|e tr IH]; intros s; simpl; [done|].
  destruct (step s e) as [s1|] eqn:He; [|done]. intros Hrun.
  pose proof (rank_step _ _ _ He). pose proof (rank_run _ _ _ Hrun).
  destruct (IH _ Hrun) as [Hcalls Hsleeps]. rewrite !count_cons, Hcalls, Hsleeps.
  destruct s; simpl in *; try lia.
  destruct e; simpl in He; simplify_eq; simpl in *; first [lia | done].
Qed.

(** Why the classification block raises. *)
Lemma decide_crawler_raises (g : globals) (job_name : value) (tr tr' : trace)
    (e : exn) :
  decide_crawler g job_name tr = Raised e tr' ->
  (e = TypeError /\ not_iterable job_name)
  \/ exists marker,
      marker ∈ markers
      /\ e = KeyError (crawler_variable marker)
      /\ environ g !! crawler_variable marker = None.
Proof.
  unfold decide_crawler, bind, py_in, environ_get, log, perform, ret, raise.
  assert (forall marker, marker ∈ markers ->
            environ g !! crawler_variable marker = None ->
            (KeyError (crawler_variable marker) = TypeError /\ not_iterable job_name)
            \/ exists marker',
                marker' ∈ markers
                /\ KeyError (crawler_variable marker) = KeyError (crawler_variable marker')
                /\ environ g !! crawler_variable marker' = None) as Hkey
    by (intros marker ? ?; right; by exists marker).
  assert ("txt"%string ∈ markers /\ "csv"%string ∈ markers /\ "json"%string ∈ markers)
    as (Htxt & Hcsv & Hjson) by (unfold markers; set_solver).
  destruct job_name; repeat case_match; intros; simplify_eq;
    first [ by left
          | by apply (Hkey "txt"%string)
          | by apply (Hkey "csv"%string)
          | by apply (Hkey "json"%string) ].
Qed.

(** Once a crawler is chosen the handler raises no more. *)
Lemma refresh_and_query_not_raised (g : globals) (svc : services) (fuel : nat)
    (c p : string) (tr tr' : trace) (e : exn) :
  follows tr Idle -> refresh_and_query g svc fuel c p tr <> Raised e tr'.
Proof.
  intros Htr Hraised.
  destruct (refresh_and_query_follows g svc fuel c p tr Htr) as (s & Hs & Hv).
  rewrite Hraised in Hs, Hv. simpl in Hs, Hv. subst s.
  apply run_Idle_quiet in Hs as [Hcalls _].
  assert (appends (fun _ => True)
            (bind (wait_for_crawler svc fuel c 0)
                  (fun _ => query_one_table g svc fuel p))) as Hrest.
  { apply appends_bind; [by apply appends_wait_for_crawler|].
    intros ?. by apply appends_query_one_table. }
  revert Hraised. unfold refresh_and_query, log, perform. unfold bind at 1 2.
  match goal with
  | |- context [bind _ _ ?tr1] => destruct (Hrest tr1) as (ext & Hext & _)
  end.
  intros Hraised. rewrite Hraised in Hext. simpl in Hext.
  rewrite Hext, !count_app in Hcalls. unfold count at 3 in Hcalls.
  simpl in Hcalls. lia.
Qed.

(** The ways in which an invocation can raise. *)
Lemma invoke_raised_cases (g : globals) (svc : services) (fuel : nat)
    (event : value) (e : exn) (tr : trace) :
  invoke g svc fuel event = Raised e tr ->
  (e = AttributeError
   /\ (get event "detail" (PDict []) = inl AttributeError
       \/ exists detail,
           get event "detail" (PDict []) = inr detail
           /\ get detail "jobName" (PStr "unknown") = inl AttributeError))
  \/ exists detail job_name,
      get event "detail" (PDict []) = inr detail
      /\ get detail "jobName" (PStr "unknown") = inr job_name
      /\ ((e = TypeError /\ not_iterable job_name)
          \/ exists marker,
              marker ∈ markers
              /\ e = KeyError (crawler_variable marker)
              /\ environ g !! crawler_variable marker = None).
Proof.
  unfold invoke, lambda_handler, bind, log, perform.
  destruct (get event "detail" (PDict [])) as [e1 | detail] eqn:Hdetail; simpl.
  { pose proof (get_inl _ _ _ _ Hdetail) as ->. intros [= <- _]. left. auto. }
  destruct (get detail "jobName" (PStr "unknown")) as [e2 | job_name] eqn:Hjob; simpl.
  { pose proof (get_inl _ _ _ _ Hjob) as ->. intros [= <- _]. left.
    split; [done|]. right. by exists detail. }
  match goal with
  | |- context [decide_crawler g job_name ?tr1] =>
      pose proof (decide_crawler_trace g job_name tr1) as Htrace;
      destruct (decide_crawler g job_name tr1) as [[[c p]|] tr2 | e3 tr2 | tr2]
        eqn:Hdec
  end; try done.
  - subst tr2. intros Hraised.
    by apply refresh_and_query_not_raised in Hraised.
  - intros [= <- _]. right. exists detail, job_name.
    split; [done|]. split; [done|]. by eapply decide_crawler_raises.
Qed.

Lemma load_module_inr (env : gmap string string) (g : globals) :
  load_module env = inr g ->
  environ g = env
  /\ env !! "ATHENA_OUTPUT_BUCKET"%string = Some (ATHENA_OUTPUT_BUCKET g)
  /\ env !! "GLUE_DATABASE"%string = Some (GLUE_DATABASE g).
Proof.
  unfold load_module. repeat case_match; intros; by simplify_eq.
Qed.

(** The classification block on a string, by the first marker it holds. *)
Lemma decide_crawler_first_marker (g : globals) (job_name : string) (tr : trace) :
  decide_crawler g (PStr job_name) tr =
    match first_marker job_name with
    | None =>
        Done None (tr ++ [Log WARNING "No crawler found for job name: %s"
                              [PStr job_name]])
    | Some marker =>
        match environ g !! crawler_variable marker with
        | Some crawler_name => Done (Some (crawler_name, marker +:+ "_")) tr
        | None => Raised (KeyError (crawler_variable marker)) tr
        end
    end.
Proof.
  unfold decide_crawler, first_marker, markers, bind, py_in, environ_get, ret, raise.
  simpl. repeat (destruct (contains _ job_name); [by destruct (environ g !! _)|]).
  done.
Qed.

(** X3.  Importing the module checks only its own two variables.  When
    the environment lets the module load but does not define the crawler
    variable of the first marker in the job name, the invocation raises
    the [KeyError] of that variable after its two records, before any
    call to Glue or Athena. *)
Theorem missing_crawler_variable_raises (env : gmap string string) (g : globals)
    (svc : services) (fuel : nat) (event detail : value)
    (job_name marker : string) :
  load_module env = inr g ->
  get event "detail" (PDict []) = inr detail ->
  get detail "jobName" (PStr "unknown") = inr (PStr job_name) ->
  first_marker job_name = Some marker ->
  env !! crawler_variable marker = None ->
  invoke g svc fuel event =
    Raised (KeyError (crawler_variable marker))
           [Log INFO "Received event: %s" [event];
            Log INFO "Triggered by Glue job: %s" [PStr job_name]].
Proof.
  intros [Henv _]%load_module_inr Hdetail Hjob Hmarker Hnone.
  unfold invoke, lambda_handler, bind, log, perform.
  rewrite Hdetail. simpl. rewrite Hjob. simpl.
  by rewrite decide_crawler_first_marker, Hmarker, Henv, Hnone.
Qed.

Lemma missing_crawler_variable_raises_witness :
  invoke {| environ := {[ "ATHENA_OUTPUT_BUCKET"%string := "bucket"%string;
                          "GLUE_DATABASE"%string := "db"%string ]};
            ATHENA_OUTPUT_BUCKET := "bucket";
            GLUE_DATABASE := "db" |}
         (Sample.steady "READY" None Sample.succeeded) 0
         (Sample.job_event "export-json") =
    Raised (KeyError (crawler_variable "json"))
           [Log INFO "Received event: %s" [Sample.job_event "export-json"];
            Log INFO "Triggered by Glue job: %s" [PStr "export-json"]].
Proof.
  apply (missing_crawler_variable_raises
           {[ "ATHENA_OUTPUT_BUCKET"%string := "bucket"%string;
              "GLUE_DATABASE"%string := "db"%string ]} _ _ 0 _
           (PDict [("jobName"%string, PStr "export-json")]));
    reflexivity.
Defined.

(** X4.  An invocation raises [TypeError] exactly when the job name of
    its event is null, a boolean or a number: [in] needs a string, a list
    or a dict on its right. *)
Theorem type_error_iff_not_iterable (g : globals) (svc : services) (fuel : nat)
    (event detail job_name : value) :
  get event "detail" (PDict []) = inr detail ->
  get detail "jobName" (PStr "unknown") = inr job_name ->
  (exists tr, invoke g svc fuel event = Raised TypeError tr)
  <-> not_iterable job_name.
Proof.
  intros Hdetail Hjob. split.
  - intros [tr Hraised].
    destruct (invoke_raised_cases _ _ _ _ _ _ Hraised)
      as [[[=] _] | (detail' & job_name' & Hd & Hj & Hcause)].
    rewrite Hdetail in Hd. injection Hd as <-.
    rewrite Hjob in Hj. injection Hj as <-.
    by destruct Hcause as [[_ ?] | (marker & _ & [=] & _)].
  - intros Hnot. eexists.
    unfold invoke, lambda_handler, bind, log, perform.
    rewrite Hdetail. simpl. rewrite Hjob. simpl.
    by destruct job_name.
Qed.

Lemma type_error_iff_not_iterable_witness :
  (exists tr,
      invoke Sample.g (Sample.steady "READY" None Sample.succeeded) 0
             (PDict [("detail"%string, PDict [("jobName"%string, PNone)])])
      = Raised TypeError tr)
  <-> not_iterable PNone.
Proof.
  apply (type_error_iff_not_iterable Sample.g _ 0 _
           (PDict [("jobName"%string, PNone)]) PNone);
    reflexivity.
Defined.

(** ** What a result tells about the run *)

#[local] Set Warnings "-clear-no-such-hyp".

Lemma history_grows (tr : trace) (e : effect) (s s' : stage) :
  step s e = Some s' -> history s tr -> history s' (tr ++ [e]).
Proof.
  unfold history, started_crawler, found_table, submitted_query.
  intros Hstep Hs.
  destruct e, s as [|c0| |[|first0 rest0]|qid0|q0]; simpl in Hstep;
    try discriminate Hstep.
  all: repeat match goal with
         | H : context [if ?b then _ else _] |- _ => destruct b eqn:?
         | H : String.eqb _ _ = true |- _ => apply String.eqb_eq in H
         | H : Some _ = Some _ |- _ => injection H as <-
         | H : None = Some _ |- _ => discriminate H
         end; subst.
  all: try match goal with
         | |- context [default [] ?resp] =>
             destruct resp as [[|? ?]|] eqn:?; simpl
         end.
  all: repeat setoid_rewrite elem_of_app;
       repeat setoid_rewrite list_elem_of_singleton.
  all: naive_solver.
Qed.

Lemma follows_history (tr : trace) (s : stage) : follows tr s -> history s tr.
Proof.
  revert s. induction tr as [|e tr IH] using rev_ind; intros s.
  - by intros [= <-].
  - unfold follows. rewrite run_app.
    destruct (run Idle tr) as [s0|] eqn:Htr; [|done]. simpl.
    destruct (step s0 e) as [s1|] eqn:He; [|done]. intros [= <-].
    eapply history_grows; [done | by apply IH].
Qed.

(** X5.  A result of [True] vouches for the whole pipeline: the trace of
    the invocation holds the start of a crawler, a catalog answer with a
    first table, the submission of [SELECT * FROM] that table, and as the
    last answer about the resulting query run the state SUCCEEDED. *)
Theorem success_needs_every_stage (g : globals) (svc : services) (fuel : nat)
    (event : value) (tr : trace) :
  invoke g svc fuel event = Done true tr ->
  started_crawler tr
  /\ exists first qid q,
      found_table tr first
      /\ submitted_query tr first qid
      /\ GetQueryExecution qid q ∈ tr
      /\ last_query_status tr = Some q
      /\ State q = "SUCCEEDED"%string.
Proof.
  intros Hdone.
  destruct (invoke_follows g svc fuel event) as (s & Hs & Hv).
  rewrite Hdone in Hs, Hv. simpl in Hs, Hv.
  pose proof (follows_history _ _ Hs) as Hh.
  destruct s as [| | |[|first rest]| |q]; try done; try (by destruct Hv).
  destruct Hv as [Hb _]. destruct Hh as (Hc & first & qid & Ht & Hq & Hpoll).
  split; [done|]. exists first, qid, q.
  repeat split; try done.
  - by apply follows_Queried_last.
  - by apply String.eqb_eq.
Qed.

Lemma success_needs_every_stage_witness :
  started_crawler
    (trace_of (invoke Sample.g
                 (Sample.steady "READY" (Some [Sample.csv_raw]) Sample.succeeded) 1
                 (Sample.job_event "ingest-csv-001")))
  /\ exists first qid q,
      found_table
        (trace_of (invoke Sample.g
                     (Sample.steady "READY" (Some [Sample.csv_raw]) Sample.succeeded) 1
                     (Sample.job_event "ingest-csv-001"))) first
      /\ submitted_query
           (trace_of (invoke Sample.g
                        (Sample.steady "READY" (Some [Sample.csv_raw]) Sample.succeeded) 1
                        (Sample.job_event "ingest-csv-001"))) first qid
      /\ GetQueryExecution qid q
           ∈ trace_of (invoke Sample.g
                         (Sample.steady "READY" (Some [Sample.csv_raw]) Sample.succeeded) 1
                         (Sample.job_event "ingest-csv-001"))
      /\ last_query_status
           (trace_of (invoke Sample.g
                        (Sample.steady "READY" (Some [Sample.csv_raw]) Sample.succeeded) 1
                        (Sample.job_event "ingest-csv-001"))) = Some q
      /\ State q = "SUCCEEDED"%string.
Proof.
  apply (success_needs_every_stage Sample.g
           (Sample.steady "READY" (Some [Sample.csv_raw]) Sample.succeeded) 1
           (Sample.job_event "ingest-csv-001")).
  vm_compute. reflexivity.
Defined.

(** ** Which task a poll is about *)

(** Effects that lead to rank [k] or beyond do not occur in a trace that
    stops short of it. *)
Lemma count_below (p : effect -> bool) (k : nat) (tr : trace) (s s' : stage) :
  (forall s e s', step s e = Some s' -> p e = true -> (k <= rank s')%nat) ->
  run s tr = Some s' -> (rank s' < k)%nat -> count p tr = 0%nat.
Proof.
  intros Hp. revert s. induction tr as [|e tr IH]; intros s; simpl; [done|].
  destruct (step s e) as [s1|] eqn:He; [|done]. intros Hrun Hk.
  pose proof (rank_run _ _ _ Hrun). rewrite count_cons.
  destruct (p e) eqn:Hpe.
  - pose proof (Hp _ _ _ He Hpe). lia.
  - by apply IH with s1.
Qed.

Lemma run_split (tr1 tr2 : trace) (e : effect) (s s' : stage) :
  run s (tr1 ++ e :: tr2) = Some s' ->
  exists s1 s2, run s tr1 = Some s1 /\ step s1 e = Some s2 /\ run s2 tr2 = Some s'.
Proof.
  rewrite run_app. destruct (run s tr1) as [s1|]; [|done]. simpl.
  destruct (step s1 e) as [s2|] eqn:He; [|done]. intros Hrun. by exists s1, s2.
Qed.

Lemma crawler_polls_from (tr : trace) (s s' : stage) (c : string) :
  run s tr = Some s' -> s = Crawling c \/ (1 < rank s)%nat ->
  forall c' st, GetCrawler c' st ∈ tr -> c' = c.
Proof.
  revert s. induction tr as [|e tr IH]; intros s Hrun Hs c' st Hin;
    [by apply elem_of_nil in Hin|].
  simpl in Hrun. destruct (step s e) as [s1|] eqn:He; [|done].
  assert (s1 = Crawling c \/ (1 < rank s1)%nat) as Hs1.
  { pose proof (rank_step _ _ _ He). destruct Hs as [-> | Hs]; [|right; lia].
    destruct e; simpl in He; repeat case_match; simplify_eq; simpl; auto. }
  apply elem_of_cons in Hin as [<- | Hin]; [|by eapply IH].
  destruct Hs as [-> | Hs].
  - simpl in He. destruct (String.eqb c c') eqn:Hc; [|done].
    by apply String.eqb_eq in Hc.
  - destruct s; simpl in *; try done; lia.
Qed.

Lemma query_polls_from (tr : trace) (s s' : stage) (qid : string) :
  run s tr = Some s' -> s = Querying qid \/ (4 < rank s)%nat ->
  forall qid' st, GetQueryExecution qid' st ∈ tr -> qid' = qid.
Proof.
  revert s. induction tr as [|e tr IH]; intros s Hrun Hs qid' st Hin;
    [by apply elem_of_nil in Hin|].
  simpl in Hrun. destruct (step s e) as [s1|] eqn:He; [|done].
  assert (s1 = Querying qid \/ (4 < rank s1)%nat) as Hs1.
  { pose proof (rank_step _ _ _ He). destruct Hs as [-> | Hs]; [|right; lia].
    destruct e; simpl in He; repeat case_match; simplify_eq; simpl; auto. }
  apply elem_of_cons in Hin as [<- | Hin]; [|by eapply IH].
  destruct Hs as [-> | Hs].
  - simpl in He. destruct (String.eqb qid qid') eqn:Hq; [|done].
    by apply String.eqb_eq in Hq.
  - destruct s; simpl in *; try done; lia.
Qed.

(** X6.  The handler polls only what it has started.  No [get_crawler]
    call comes before [start_crawler], and each one after it names the
    crawler that was started; no [get_query_execution] call comes before
    [start_query_execution], and each one after it carries the
    QueryExecutionId that the submission returned. *)
Theorem polls_follow_what_was_started (g : globals) (svc : services) (fuel : nat)
    (event : value) (pre post : trace) :
  (forall c,
      trace_of (invoke g svc fuel event) = pre ++ StartCrawler c :: post ->
      count is_GetCrawler pre = 0%nat
      /\ forall c' st, GetCrawler c' st ∈ post -> c' = c)
  /\ (forall query d o qid,
        trace_of (invoke g svc fuel event)
        = pre ++ StartQueryExecution query d o qid :: post ->
        count is_GetQueryExecution pre = 0%nat
        /\ forall qid' q, GetQueryExecution qid' q ∈ post -> qid' = qid).
Proof.
  destruct (invoke_follows g svc fuel event) as (s & Hs & _).
  unfold follows in Hs. split.
  - intros c Htr. rewrite Htr in Hs.
    apply run_split in Hs as (s1 & s2 & Hpre & Hstep & Hpost).
    destruct s1; simpl in Hstep; try discriminate. injection Hstep as <-.
    split.
    + eapply (count_below _ 1); [clear; by_step_cases | done | simpl; lia].
    + eapply crawler_polls_from; eauto.
  - intros query d o qid Htr. rewrite Htr in Hs.
    apply run_split in Hs as (s1 & s2 & Hpre & Hstep & Hpost).
    destruct s1 as [| | |[|first rest]| |]; simpl in Hstep; try discriminate.
    destruct (String.eqb _ _); [|done]. injection Hstep as <-.
    split.
    + eapply (count_below _ 4); [clear; by_step_cases | done | simpl; lia].
    + eapply query_polls_from; eauto.
Qed.

Lemma polls_follow_what_was_started_witness :
  count is_GetCrawler
    (take 3 (trace_of (invoke Sample.g
                         (Sample.steady "RUNNING" None Sample.succeeded) 3
                         (Sample.job_event "ingest-csv-001")))) = 0%nat
  /\ forall c' st,
      GetCrawler c' st
        ∈ drop 4 (trace_of (invoke Sample.g
                              (Sample.steady "RUNNING" None Sample.succeeded) 3
                              (Sample.job_event "ingest-csv-001"))) ->
      c' = "csv-crawler"%string.
Proof.
  apply (proj1 (polls_follow_what_was_started Sample.g
                  (Sample.steady "RUNNING" None Sample.succeeded) 3
                  (Sample.job_event "ingest-csv-001") _ _)).
  vm_compute. reflexivity.
Defined.

(** ** The length of the crawler wait *)

Lemma slept_app (tr1 tr2 : trace) : slept (tr1 ++ tr2) = slept tr1 + slept tr2.
Proof.
  induction tr1 as [|e tr1 IH]; simpl; [done|]. destruct e; rewrite ?IH; lia.
Qed.

(** Whatever the fuel and the crawler, the loop samples at most once per
    five seconds that remain of the bound, and sleeps no longer than
    what remains. *)
Lemma wait_for_crawler_bounded (svc : services) (c : string) :
  forall (fuel n : nat) (waited : Z) (tr : trace),
    max_wait_seconds - 5 * (Z.of_nat n + 1) <= waited ->
    exists ext,
      trace_of (wait_for_crawler svc fuel c waited tr) = tr ++ ext
      /\ (count is_GetCrawler ext <= S n)%nat
      /\ slept ext <= 5 * (Z.of_nat n + 1).
Proof.
  induction fuel as [|fuel IH]; intros n waited tr Hwaited.
  { exists []. rewrite app_nil_r. unfold count. simpl. repeat split; lia. }
  cbn [wait_for_crawler]. unfold bind, call, log, sleep, perform.
  destruct (crawler_terminal _).
  { eexists. split; [simpl; by rewrite <- !app_assoc|].
    unfold count. simpl. split; lia. }
  cbv zeta. destruct (waited + 5 >=? max_wait_seconds) eqn:Hge.
  { eexists. split; [simpl; by rewrite <- !app_assoc|].
    unfold count. simpl. split; lia. }
  rewrite Z.geb_leb in Hge. apply Z.leb_gt in Hge.
  destruct n as [|n]; [unfold max_wait_seconds in *; lia|].
  match goal with
  | |- context [wait_for_crawler svc fuel c (waited + 5) ?tr1] =>
      destruct (IH n (waited + 5) tr1) as (ext & -> & Hget & Hslept); [lia|]
  end.
  eexists. split; [by rewrite <- !app_assoc|].
  rewrite !count_app, !slept_app. unfold count at 1 2 3. simpl. split; lia.
Qed.

(** X7.  In every invocation, whatever the fuel, the event and the
    answers of the services, the crawler is sampled at most 18 times. *)
Theorem at_most_18_crawler_samples (g : globals) (svc : services) (fuel : nat)
    (event : value) :
  (count is_GetCrawler (trace_of (invoke g svc fuel event)) <= 18)%nat.
Proof.
  unfold invoke, lambda_handler, bind, log, perform.
  destruct (get event "detail" (PDict [])) as [e1 | detail]; simpl;
    [unfold count; simpl; lia|].
  destruct (get detail "jobName" (PStr "unknown")) as [e2 | job_name]; simpl;
    [unfold count; simpl; lia|].
  match goal with
  | |- context [decide_crawler g job_name ?tr1] =>
      pose proof (decide_crawler_trace g job_name tr1) as Htrace;
      destruct (decide_crawler g job_name tr1) as [[[c p]|] tr2 | e3 tr2 | tr2]
  end; try done; subst tr2; try (unfold count; simpl; lia).
  unfold refresh_and_query, bind, log, perform.
  match goal with
  | |- context [wait_for_crawler svc fuel c 0 ?tr1] =>
      destruct (wait_for_crawler_bounded svc c fuel 17 0 tr1)
        as (ext & Hext & Hget & _); [by unfold max_wait_seconds|];
      destruct (wait_for_crawler svc fuel c 0 tr1) as [[] tr2 | e tr2 | tr2];
      simpl in Hext; subst tr2
  end.
  - destruct (appends_query_one_table (fun e => is_GetCrawler e = false)
                g svc fuel p) with (tr := ([Log INFO "Received event: %s" [event];
                  Log INFO "Triggered by Glue job: %s" [job_name]] ++
                 [Log INFO "Starting crawler: %s" [PStr c]]) ++ [StartCrawler c] ++ ext)
      as (ext' & Hext' & Hnone); try done.
    rewrite <- !app_assoc in *. simpl in *. rewrite Hext'.
    change (?a :: ?b :: ?c :: ?d :: ext ++ ext') with ([a; b; c; d] ++ ext ++ ext').
    rewrite !count_app.
    assert (count is_GetCrawler ext' = 0%nat) as ->.
    { clear Hext'. induction Hnone as [|e l He _ IH]; [done|].
      by rewrite count_cons, He, IH. }
    unfold count at 1. simpl. lia.
  - simpl. rewrite !count_cons. simpl. lia.
  - simpl. rewrite !count_cons. simpl. lia.
Qed.

(** How the crawler loop ends when [n + 1] iterations remain of the bound. *)
Lemma wait_for_crawler_ends (svc : services) (c : string) :
  forall (n fuel : nat) (waited : Z) (tr : trace),
    (n < fuel)%nat ->
    max_wait_seconds - 5 * (Z.of_nat n + 1) <= waited < max_wait_seconds - 5 * Z.of_nat n ->
    exists ext,
      wait_for_crawler svc fuel c waited tr = Done tt (tr ++ ext)
      /\ (1 <= count is_GetCrawler ext <= S n)%nat
      /\ slept ext = 5 * Z.of_nat (count is_Sleep ext)
      /\ ((exists st,
              crawler_terminal st = true
              /\ last ext = Some (Log INFO "Crawler finished with state: %s" [PStr st])
              /\ S (count is_Sleep ext) = count is_GetCrawler ext)
          \/ (last ext = Some timeout_warning
              /\ count is_GetCrawler ext = S n
              /\ count is_Sleep ext = S n)).
Proof.
  induction n as [|n IH]; intros fuel waited tr Hfuel Hwaited;
    (destruct fuel as [|fuel]; [lia|]);
    cbn [wait_for_crawler]; unfold bind, call, log, sleep, perform;
    (destruct (crawler_terminal (crawler_state svc tr c)) eqn:Hterm;
     [eexists; split; [by rewrite <- !app_assoc|];
      unfold count; simpl; split; [lia|]; split; [lia|];
      left; eexists; by repeat split|]); cbv zeta.
  - replace (waited + 5 >=? max_wait_seconds) with true
      by (symmetry; rewrite Z.geb_leb; apply Z.leb_le; lia).
    eexists. split; [by rewrite <- !app_assoc|].
    unfold count. simpl. split; [lia|]. split; [lia|]. by right.
  - replace (waited + 5 >=? max_wait_seconds) with false
      by (symmetry; rewrite Z.geb_leb; apply Z.leb_gt; lia).
    match goal with
    | |- context [wait_for_crawler svc fuel c (waited + 5) ?tr1] =>
        destruct (IH fuel (waited + 5) tr1)
          as (ext & -> & Hget & Hslept & Hend); [lia | lia |]
    end.
    set (iteration := [GetCrawler c (crawler_state svc tr c);
                       Log INFO "Crawler state: %s" [PStr (crawler_state svc tr c)];
                       Sleep 5]).
    exists (iteration ++ ext). split; [by rewrite <- !app_assoc|].
    rewrite !count_app, slept_app, last_app.
    change (count is_GetCrawler iteration) with 1%nat.
    change (count is_Sleep iteration) with 1%nat.
    change (slept iteration) with 5.
    split; [lia|]. split; [lia|].
    destruct Hend as [(st & Hst & -> & Heq) | (-> & Hk & Hs)].
    + left. exists st. repeat split; [done | lia].
    + right. repeat split; lia.
Qed.

(** X8.  With the bound of 90 seconds the crawler wait ends in one of
    two ways.  Either some sample, the k-th of at most 18, was terminal:
    then the loop slept k - 1 times and its last record is "Crawler
    finished ...".  Or all 18 samples were taken and slept after, and the
    last record is the timeout warning.  Each sleep lasts five seconds,
    so the wait never sleeps more than 90 seconds. *)
Theorem crawler_wait_ends_in_two_ways (svc : services) (fuel : nat) (c : string)
    (tr : trace) :
  (18 <= fuel)%nat ->
  exists ext,
    wait_for_crawler svc fuel c 0 tr = Done tt (tr ++ ext)
    /\ (1 <= count is_GetCrawler ext <= 18)%nat
    /\ slept ext = 5 * Z.of_nat (count is_Sleep ext)
    /\ slept ext <= max_wait_seconds
    /\ ((exists st,
            crawler_terminal st = true
            /\ last ext = Some (Log INFO "Crawler finished with state: %s" [PStr st])
            /\ S (count is_Sleep ext) = count is_GetCrawler ext)
        \/ (last ext = Some timeout_warning
            /\ count is_GetCrawler ext = 18%nat
            /\ count is_Sleep ext = 18%nat)).
Proof.
  intros Hfuel.
  destruct (wait_for_crawler_ends svc c 17 fuel 0 tr)
    as (ext & Hrun & Hget & Hslept & Hend); [lia | by unfold max_wait_seconds |].
  exists ext. split; [done|]. split; [done|]. split; [done|]. split; [|done].
  unfold max_wait_seconds. destruct Hend as [(st & _ & _ & Heq) | (_ & _ & Hs)]; lia.
Qed.

Lemma crawler_wait_ends_in_two_ways_witness :
  exists ext,
    wait_for_crawler (Sample.steady "READY" None Sample.succeeded) 18
                     "csv-crawler" 0 [] = Done tt ([] ++ ext)
    /\ (1 <= count is_GetCrawler ext <= 18)%nat
    /\ slept ext = 5 * Z.of_nat (count is_Sleep ext)
    /\ slept ext <= max_wait_seconds
    /\ ((exists st,
            crawler_terminal st = true
            /\ last ext = Some (Log INFO "Crawler finished with state: %s" [PStr st])
            /\ S (count is_Sleep ext) = count is_GetCrawler ext)
        \/ (last ext = Some timeout_warning
            /\ count is_GetCrawler ext = 18%nat
            /\ count is_Sleep ext = 18%nat)).
Proof.
  apply (crawler_wait_ends_in_two_ways
           (Sample.steady "READY" None Sample.succeeded) 18 "csv-crawler" []).
  lia.
Defined.

(** ** Termination *)

Lemma wait_for_athena_finishes (svc : services) (qid : string) (n : nat) :
  terminal_after svc n ->
  forall (fuel : nat) (tr : trace),
    (1 <= fuel)%nat ->
    (n + 1 <= fuel + count is_GetQueryExecution tr)%nat ->
    exists q tr', wait_for_athena svc fuel qid tr = Done q tr'.
Proof.
  intros Hafter. induction fuel as [|fuel IH]; intros tr Hfuel Hn; [lia|].
  cbn [wait_for_athena]. unfold bind, call, log, sleep, perform, ret.
  destruct (query_terminal (State (query_status svc tr qid))) eqn:Hterm;
    [by eexists _, _|].
  assert (count is_GetQueryExecution tr < n)%nat as Hlt.
  { destruct (decide (n <= count is_GetQueryExecution tr)%nat) as [Hle|]; [|lia].
    rewrite (Hafter _ qid Hle) in Hterm. discriminate Hterm. }
  apply IH; [lia|]. rewrite !count_app. unfold count at 2 3 4. simpl. lia.
Qed.

(** X9.  An invocation comes to an end when the query run does: if the
    query run is in a terminal state from its [n]-th poll on, then with
    room for 18 iterations of the crawler loop and [n + 1] of the Athena
    loop the handler returns or raises; it does not go on polling. *)
Theorem invocation_ends_when_query_does (g : globals) (svc : services)
    (fuel n : nat) (event : value) :
  terminal_after svc n ->
  (18 <= fuel)%nat -> (n < fuel)%nat ->
  (exists b tr, invoke g svc fuel event = Done b tr)
  \/ (exists e tr, invoke g svc fuel event = Raised e tr).
Proof.
  intros Hafter Hfuel Hn.
  unfold invoke, lambda_handler, bind, log, perform.
  destruct (get event "detail" (PDict [])) as [e1 | detail]; simpl;
    [right; by eexists _, _|].
  destruct (get detail "jobName" (PStr "unknown")) as [e2 | job_name]; simpl;
    [right; by eexists _, _|].
  match goal with
  | |- context [decide_crawler g job_name ?tr1] =>
      pose proof (decide_crawler_trace g job_name tr1) as Htrace;
      destruct (decide_crawler g job_name tr1) as [[[c p]|] tr2 | e3 tr2 | tr2]
  end; try done; subst tr2;
    [|left; by eexists _, _|right; by eexists _, _].
  unfold refresh_and_query, bind, log, perform.
  match goal with
  | |- context [wait_for_crawler svc fuel c 0 ?tr1] =>
      destruct (wait_for_crawler_total svc c 17 fuel 0 tr1) as (ext & -> & _);
        [lia | by unfold max_wait_seconds |]
  end.
  unfold query_one_table, bind, call, log, perform, ret.
  destruct (default [] _) as [|first rest]; [left; by eexists _, _|].
  unfold run_athena_query, bind, call, log, perform, ret.
  match goal with
  | |- context [wait_for_athena svc fuel ?qid ?tr1] =>
      destruct (wait_for_athena_finishes svc qid n Hafter fuel tr1)
        as (q & tr' & ->); [lia | lia |]
  end.
  left. destruct (negb _); by eexists _, _.
Qed.

Lemma invocation_ends_when_query_does_witness :
  (exists b tr,
      invoke Sample.g (succeeds_after 2 (Some [Sample.csv_raw])) 18
             (Sample.job_event "ingest-csv-001") = Done b tr)
  \/ (exists e tr,
        invoke Sample.g (succeeds_after 2 (Some [Sample.csv_raw])) 18
               (Sample.job_event "ingest-csv-001") = Raised e tr).
Proof.
  apply (invocation_ends_when_query_does Sample.g
           (succeeds_after 2 (Some [Sample.csv_raw])) 18 2).
  - intros h qid Hle. simpl. destruct (decide _); [reflexivity | lia].
  - lia.
  - lia.
Defined.

(** With these services the run polls three times and returns [True]. *)
Example succeeds_on_third_poll :
  exists tr,
    invoke Sample.g (succeeds_after 2 (Some [Sample.csv_raw])) 18
           (Sample.job_event "ingest-csv-001") = Done true tr
    /\ count is_GetQueryExecution tr = 3%nat.
Proof. eexists. split; vm_compute; reflexivity. Qed.

(** * The handler when a service call can raise: proofs *)

Module FaultyFacts.

Import Faulty.
Local Open Scope faulty_scope.

Lemma did_app (tr1 tr2 : trace) : did (tr1 ++ tr2) = did tr1 ++ did tr2.
Proof. apply fmap_app. Qed.

Lemma answered_app (j1 j2 : journal) :
  answered (j1 ++ j2) = answered j1 ++ answered j2.
Proof. apply omap_app. Qed.

Lemma answered_did (tr : trace) : answered (did tr) = tr.
Proof. induction tr as [|e tr IH]; [done|]. simpl. unfold answered in *. simpl. by rewrite IH. Qed.

Lemma calls_app (j1 j2 : journal) : calls (j1 ++ j2) = calls j1 ++ calls j2.
Proof. apply omap_app. Qed.

Lemma did_snoc (tr : trace) (e : effect) : did tr ++ [Did e] = did (tr ++ [e]).
Proof. by rewrite did_app. Qed.

(** ** The loop that waits for the crawler *)

(** With fuel for 18 iterations the loop ends, whatever the crawler does
    and whichever call raises: normally, after 18 samples at most, or with
    what a [get_crawler] call raised. *)
Lemma wait_for_crawler_cases (svc : services) (flt : faults) (c : string) :
  forall (n fuel : nat) (waited : Z) (j : journal),
    (n < fuel)%nat ->
    max_wait_seconds - 5 * (Z.of_nat n + 1) <= waited ->
    (exists ext,
        wait_for_crawler svc flt fuel c waited j = Done tt (j ++ did ext)
        /\ (count is_GetCrawler ext <= S n)%nat)
    \/ (exists ext error,
          wait_for_crawler svc flt fuel c waited j
          = Raised (ServiceError error) (j ++ did ext ++ [Failed (get_crawler c) error])
          /\ flt (j ++ did ext) (get_crawler c) = Some error).
Proof.
  induction n as [|n IH]; intros fuel waited j Hfuel Hwaited;
    (destruct fuel as [|fuel]; [lia|]);
    cbn [wait_for_crawler]; unfold bind, request, log, sleep, perform;
    (destruct (flt j (get_crawler c)) as [error|] eqn:Hflt;
     [right; exists [], error; by rewrite !app_nil_r|]);
    cbv zeta;
    (destruct (crawler_terminal _);
     [left; eexists [_; _; _]; split;
      [by rewrite <- !app_assoc | unfold count; simpl; lia]|]).
  - replace (waited + 5 >=? max_wait_seconds) with true
      by (symmetry; rewrite Z.geb_leb; apply Z.leb_le; lia).
    left. eexists [_; _; _; _]. split; [by rewrite <- !app_assoc | unfold count; simpl; lia].
  - destruct (waited + 5 >=? max_wait_seconds).
    + left. eexists [_; _; _; _].
      split; [by rewrite <- !app_assoc | unfold count; simpl; lia].
    + match goal with
      | |- context [wait_for_crawler svc flt fuel c (waited + 5) ?j1] =>
          destruct (IH fuel (waited + 5) j1) as
            [(ext & -> & Hget) | (ext & error & -> & Herr)]; [lia | lia | |]
      end.
      * left. eexists ([_; _; _] ++ ext). split.
        -- rewrite did_app. by rewrite <- !app_assoc.
        -- rewrite count_app. unfold count at 1. simpl. lia.
      * right. exists ([GetCrawler c (crawler_state svc (answered j) c);
                        Log INFO "Crawler state: %s"
                            [PStr (crawler_state svc (answered j) c)];
                        Sleep 5] ++ ext), error. split.
        -- rewrite did_app. by rewrite <- !app_assoc.
        -- rewrite <- Herr. f_equal. rewrite did_app. by rewrite <- !app_assoc.
Qed.


(** While fewer than 18 samples have been taken the crawler is not in a
    terminal state and [get_crawler] answers: the loop takes the samples
    that are left, sleeps after each, and ends normally with the
    warning. *)
Lemma wait_for_crawler_times_out (svc : services) (flt : faults) (c : string) :
  (forall tr, (count is_GetCrawler tr < 18)%nat ->
      flt (did tr) (get_crawler c) = None
      /\ crawler_terminal (crawler_state svc tr c) = false) ->
  forall (n fuel : nat) (waited : Z) (tr : trace),
    (n < fuel)%nat ->
    waited = max_wait_seconds - 5 * (Z.of_nat n + 1) ->
    (count is_GetCrawler tr + S n <= 18)%nat ->
    exists ext,
      wait_for_crawler svc flt fuel c waited (did tr) = Done tt (did (tr ++ ext))
      /\ count is_GetCrawler ext = S n
      /\ slept ext = 5 * (Z.of_nat n + 1)
      /\ last ext = Some timeout_warning
      /\ (forall state, GetCrawler c state ∈ ext -> crawler_terminal state = false).
Proof.
  intros Hnot. induction n as [|n IH]; intros fuel waited tr Hfuel Hwaited Hleft;
    (destruct fuel as [|fuel]; [lia|]);
    (destruct (Hnot tr) as [Hflt Hstate]; [lia|]);
    cbn [wait_for_crawler]; unfold bind, request, log, sleep, perform;
    rewrite Hflt, answered_did; cbv zeta; rewrite Hstate, !did_snoc.
  - replace (waited + 5 >=? max_wait_seconds) with true
      by (symmetry; rewrite Z.geb_leb; apply Z.leb_le; lia).
    rewrite did_snoc, <- !app_assoc. eexists. split; [reflexivity|].
    split; [done|]. split; [done|]. split; [done|].
    intros state Hin. set_solver.
  - replace (waited + 5 >=? max_wait_seconds) with false
      by (symmetry; rewrite Z.geb_leb; apply Z.leb_gt; lia).
    match goal with
    | |- context [wait_for_crawler svc flt fuel c (waited + 5) (did ?tr1)] =>
        destruct (IH fuel (waited + 5) tr1) as (ext & -> & Hget & Hslept & Hlast & Hstates)
    end; [lia | lia | |].
    { rewrite !count_app. unfold count at 2 3 4. simpl. lia. }
    rewrite <- !app_assoc. eexists. split; [reflexivity|].
    split. { rewrite !count_app. unfold count at 1 2 3. simpl. lia. }
    split. { simpl. rewrite Hslept. lia. }
    split. { simpl. by rewrite !last_cons, Hlast. }
    intros state Hin. simpl in Hin.
    rewrite !elem_of_cons in Hin. destruct Hin as [[= ->] | [[=] | [[=] | Hin]]]; auto.
Qed.


(** ** No error of a service is caught *)

Lemma faithful_ret {A : Type} (flt : faults) (a : A) : faithful flt (ret a).
Proof. intros tr. exists []. by rewrite app_nil_r. Qed.

Lemma faithful_diverge {A : Type} (flt : faults) : faithful flt (@diverge A).
Proof. intros tr. exists []. by rewrite app_nil_r. Qed.

Lemma faithful_perform {A : Type} (flt : faults) (a : A) (e : effect) :
  faithful flt (perform a e).
Proof. intros tr. exists [e]. apply did_snoc. Qed.

Lemma faithful_request {A : Type} (flt : faults) (c : call) (answer : trace -> A)
    (e : A -> effect) :
  faithful flt (request flt c answer e).
Proof.
  intros tr. unfold request.
  destruct (flt (did tr) c) as [error|] eqn:Hflt; simpl.
  - exists [], c. by rewrite app_nil_r.
  - eexists [_]. apply did_snoc.
Qed.

Lemma faithful_bind {A B : Type} (flt : faults) (m : M A) (k : A -> M B) :
  faithful flt m -> (forall a, faithful flt (k a)) -> faithful flt (bind m k).
Proof.
  intros Hm Hk tr. unfold bind. specialize (Hm tr).
  destruct (m (did tr)) as [a j | [e | error] j | j]; [|done..].
  destruct Hm as [ext ->]. specialize (Hk a (tr ++ ext)).
  destruct (k a (did (tr ++ ext))) as [b j | [e | error] j | j]; [| done | |].
  - destruct Hk as [ext' ->]. exists (ext ++ ext'). by rewrite app_assoc.
  - destruct Hk as (ext' & c & -> & Hflt). exists (ext ++ ext'), c.
    by rewrite app_assoc.
  - destruct Hk as [ext' ->]. exists (ext ++ ext'). by rewrite app_assoc.
Qed.

Ltac faithful_step :=
  first [ apply faithful_ret
        | apply faithful_diverge
        | apply faithful_perform
        | apply faithful_request
        | apply faithful_bind; [|intros ?] ].

Lemma faithful_wait_for_crawler (svc : services) (flt : faults) (fuel : nat)
    (c : string) (waited : Z) :
  faithful flt (wait_for_crawler svc flt fuel c waited).
Proof.
  revert waited. induction fuel as [|fuel IH]; intros waited; cbn [wait_for_crawler];
    unfold log, sleep; repeat faithful_step.
  destruct (crawler_terminal _); repeat faithful_step.
  cbv zeta. destruct (_ >=? _); [faithful_step | apply IH].
Qed.

Lemma faithful_run_crawler (svc : services) (flt : faults) (fuel : nat) (c : string) :
  faithful flt (run_crawler svc flt fuel c).
Proof.
  unfold run_crawler, log. repeat faithful_step. apply faithful_wait_for_crawler.
Qed.

Lemma faithful_wait_for_athena (svc : services) (flt : faults) (fuel : nat)
    (qid : string) :
  faithful flt (wait_for_athena svc flt fuel qid).
Proof.
  induction fuel as [|fuel IH]; cbn [wait_for_athena];
    unfold log, sleep; repeat faithful_step.
  cbv zeta. destruct (query_terminal _); repeat faithful_step. apply IH.
Qed.

Lemma faithful_run_athena_query (g : globals) (svc : services) (flt : faults)
    (fuel : nat) (table_name : string) :
  faithful flt (run_athena_query g svc flt fuel table_name).
Proof.
  unfold run_athena_query, log. cbv zeta. repeat faithful_step.
  - apply faithful_wait_for_athena.
  - destruct (negb _); repeat faithful_step.
Qed.

Lemma faithful_query_one_table (g : globals) (svc : services) (flt : faults)
    (fuel : nat) (p : string) :
  faithful flt (query_one_table g svc flt fuel p).
Proof.
  unfold query_one_table, log. cbv zeta. repeat faithful_step.
  destruct (default [] _); [repeat faithful_step|].
  apply faithful_bind; [faithful_step | intros ?; apply faithful_run_athena_query].
Qed.

(** A block that catches nothing only adds to the journal. *)
Lemma faithful_extends {A : Type} (flt : faults) (m : M A) (tr : trace) :
  faithful flt m -> exists ext, journal_of (m (did tr)) = did tr ++ ext.
Proof.
  intros Hm. specialize (Hm tr).
  destruct (m (did tr)) as [a j | [e | error] j | j]; simpl; [| done | |].
  - destruct Hm as [ext ->]. exists (did ext). apply did_app.
  - destruct Hm as (ext & c & -> & _). exists (did ext ++ [Failed c error]).
    by rewrite did_app, <- app_assoc.
  - destruct Hm as [ext ->]. exists (did ext). apply did_app.
Qed.

(** The catalog is asked for the tables of the prefix, whether the call
    is answered or not. *)
Lemma query_one_table_looks_up (g : globals) (svc : services) (flt : faults)
    (fuel : nat) (p : string) (tr : trace) :
  get_tables (GLUE_DATABASE g) (p +:+ "*")
    ∈ calls (journal_of (query_one_table g svc flt fuel p (did tr))).
Proof.
  unfold query_one_table, log, perform, request. unfold bind at 1 2.
  rewrite did_snoc.
  destruct (flt _ _) as [error|]; simpl.
  { rewrite calls_app. set_solver. }
  rewrite did_snoc. cbv zeta.
  match goal with
  | |- context [journal_of (?m (did ?tr1))] =>
      destruct (faithful_extends flt m tr1) as [ext ->]
  end.
  - destruct (default [] _); [repeat faithful_step|].
    apply faithful_bind; [faithful_step | intros ?; apply faithful_run_athena_query].
  - rewrite !did_app, !calls_app. set_solver.
Qed.


(** ** From the choice of the crawler to the catalog lookup *)

(** An invocation whose event names a job with a marker is the crawler
    block followed by the lookup and the query. *)
Lemma invoke_classified (g : globals) (svc : services) (flt : faults) (fuel : nat)
    (event detail job_name : value) (c p : string) :
  get event "detail" (PDict []) = inr detail ->
  get detail "jobName" (PStr "unknown") = inr job_name ->
  (forall j, decide_crawler g job_name j = Done (Some (c, p)) j) ->
  invoke g svc flt fuel event
  = match flt (did (classified event job_name c)) (start_crawler c) with
    | Some error =>
        Raised (ServiceError error)
               (did (classified event job_name c) ++ [Failed (start_crawler c) error])
    | None =>
        bind (wait_for_crawler svc flt fuel c 0)
             (fun _ => query_one_table g svc flt fuel p)
             (did (started event job_name c))
    end.
Proof.
  intros Hdetail Hjob Hchoice.
  unfold invoke, lambda_handler, bind, log, perform.
  rewrite Hdetail. simpl. rewrite Hjob. simpl. rewrite Hchoice.
  unfold run_crawler, bind, log, perform, request. simpl.
  fold (classified event job_name c). by destruct (flt _ _).
Qed.

(** What the crawler block can do to an invocation, whatever the crawler
    and the faults: it ends normally, and the handler goes on with the
    lookup; or one of its two calls raises. *)
Lemma invoke_crawler_cases (g : globals) (svc : services) (flt : faults) (fuel : nat)
    (event detail job_name : value) (c p : string) :
  get event "detail" (PDict []) = inr detail ->
  get detail "jobName" (PStr "unknown") = inr job_name ->
  (forall j, decide_crawler g job_name j = Done (Some (c, p)) j) ->
  (18 <= fuel)%nat ->
  (exists ext,
      (count is_GetCrawler ext <= 18)%nat
      /\ invoke g svc flt fuel event
         = query_one_table g svc flt fuel p (did (started event job_name c ++ ext))
      /\ get_tables (GLUE_DATABASE g) (p +:+ "*")
           ∈ calls (journal_of (invoke g svc flt fuel event)))
  \/ (exists pre failing error,
        (failing = start_crawler c \/ failing = get_crawler c)
        /\ flt pre failing = Some error
        /\ invoke g svc flt fuel event
           = Raised (ServiceError error) (pre ++ [Failed failing error])).
Proof.
  intros Hdetail Hjob Hchoice Hfuel.
  rewrite (invoke_classified g svc flt fuel _ _ _ _ _ Hdetail Hjob Hchoice).
  destruct (flt _ (start_crawler c)) as [error|] eqn:Hstart.
  { right. exists (did (classified event job_name c)), (start_crawler c), error. auto. }
  unfold bind.
  destruct (wait_for_crawler_cases svc flt c 17 fuel 0 (did (started event job_name c)))
    as [(ext & -> & Hget) | (ext & error & -> & Herr)];
    [lia | by unfold max_wait_seconds | |].
  - left. exists ext. rewrite <- did_app. split; [done|]. split; [done|].
    apply query_one_table_looks_up.
  - right. exists (did (started event job_name c) ++ did ext), (get_crawler c), error.
    split; [auto|]. split; [done|]. by rewrite <- app_assoc.
Qed.

(** C6.  The timeout of the crawler wait is soft.  Take an invocation
    that has chosen a crawler, with fuel for the 18 iterations of the
    wait.

    First, the timeout: when [start_crawler] answers and, as long as
    fewer than 18 samples have been taken, [get_crawler] answers with a
    state that is not terminal (what the crawler does later is free: it
    may turn READY with the next sample), the wait ends normally after
    exactly 18 samples and 90 seconds of sleep with the warning; every
    state it saw is non-terminal; the invocation is the rest of the
    handler, the catalog lookup and the query, run from there; and the
    [get_tables] call on the chosen prefix is made.

    Second, whatever the crawler does and whichever call raises, the
    crawler block does one of two things to the invocation: it ends
    normally after 18 samples at most and the handler goes on with the
    catalog lookup, or [start_crawler] or [get_crawler] raises and that
    exception leaves the handler.  It never makes the handler return:

    third, an invocation that returns, [False] included, has made the
    catalog lookup. *)
Theorem crawler_timeout_is_soft (g : globals) (svc : services) (flt : faults)
    (fuel : nat) (event detail job_name : value) (c p : string) :
  get event "detail" (PDict []) = inr detail ->
  get detail "jobName" (PStr "unknown") = inr job_name ->
  (forall j, decide_crawler g job_name j = Done (Some (c, p)) j) ->
  (18 <= fuel)%nat ->
  let lookup := get_tables (GLUE_DATABASE g) (p +:+ "*") in
  (flt (did (classified event job_name c)) (start_crawler c) = None ->
   (forall tr, (count is_GetCrawler tr < 18)%nat ->
       flt (did tr) (get_crawler c) = None
       /\ crawler_terminal (crawler_state svc tr c) = false) ->
   exists ext,
     wait_for_crawler svc flt fuel c 0 (did (started event job_name c))
     = Done tt (did (started event job_name c ++ ext))
     /\ count is_GetCrawler ext = 18%nat
     /\ slept ext = max_wait_seconds
     /\ last ext = Some timeout_warning
     /\ (forall state, GetCrawler c state ∈ ext -> crawler_terminal state = false)
     /\ invoke g svc flt fuel event
        = query_one_table g svc flt fuel p (did (started event job_name c ++ ext))
     /\ lookup ∈ calls (journal_of (invoke g svc flt fuel event)))
  /\ ((exists ext,
         (count is_GetCrawler ext <= 18)%nat
         /\ invoke g svc flt fuel event
            = query_one_table g svc flt fuel p (did (started event job_name c ++ ext))
         /\ lookup ∈ calls (journal_of (invoke g svc flt fuel event)))
      \/ (exists pre failing error,
            (failing = start_crawler c \/ failing = get_crawler c)
            /\ flt pre failing = Some error
            /\ invoke g svc flt fuel event
               = Raised (ServiceError error) (pre ++ [Failed failing error])))
  /\ (forall b j, invoke g svc flt fuel event = Done b j -> lookup ∈ calls j).
Proof.
  intros Hdetail Hjob Hchoice Hfuel lookup. subst lookup.
  pose proof (invoke_crawler_cases g svc flt fuel _ _ _ _ _ Hdetail Hjob Hchoice Hfuel)
    as Hcases.
  split; [|split; [done|]].
  - intros Hstart Hnot.
    destruct (wait_for_crawler_times_out svc flt c Hnot 17 fuel 0
                (started event job_name c))
      as (ext & Hrun & Hget & Hslept & Hlast & Hstates);
      [lia | by unfold max_wait_seconds | unfold count; simpl; lia |].
    exists ext. split; [done|]. split; [done|]. split; [done|]. split; [done|].
    split; [done|].
    assert (invoke g svc flt fuel event
            = query_one_table g svc flt fuel p (did (started event job_name c ++ ext)))
      as ->.
    { rewrite (invoke_classified g svc flt fuel _ _ _ _ _ Hdetail Hjob Hchoice), Hstart.
      unfold bind. by rewrite Hrun. }
    split; [done|]. apply query_one_table_looks_up.
  - intros b j Hdone.
    destruct Hcases as [(ext & _ & _ & Hin) | (pre & failing & error & _ & _ & Hraised)].
    + by rewrite Hdone in Hin.
    + by rewrite Hdone in Hraised.
Qed.

Lemma crawler_timeout_is_soft_witness :
  exists ext,
    wait_for_crawler (late (Some [Sample.csv_raw]) Sample.succeeded) no_faults 18
      "csv-crawler" 0
      (did (started (Sample.job_event "ingest-csv-001") (PStr "ingest-csv-001")
                    "csv-crawler"))
    = Done tt (did (started (Sample.job_event "ingest-csv-001") (PStr "ingest-csv-001")
                            "csv-crawler" ++ ext))
    /\ count is_GetCrawler ext = 18%nat
    /\ slept ext = max_wait_seconds
    /\ last ext = Some timeout_warning
    /\ (forall state, GetCrawler "csv-crawler" state ∈ ext ->
         crawler_terminal state = false)
    /\ invoke Sample.g (late (Some [Sample.csv_raw]) Sample.succeeded) no_faults 18
              (Sample.job_event "ingest-csv-001")
       = query_one_table Sample.g (late (Some [Sample.csv_raw]) Sample.succeeded)
           no_faults 18 "csv_"
           (did (started (Sample.job_event "ingest-csv-001") (PStr "ingest-csv-001")
                         "csv-crawler" ++ ext))
    /\ get_tables (GLUE_DATABASE Sample.g) ("csv_" +:+ "*")
         ∈ calls (journal_of
                    (invoke Sample.g (late (Some [Sample.csv_raw]) Sample.succeeded)
                       no_faults 18 (Sample.job_event "ingest-csv-001"))).
Proof.
  apply (crawler_timeout_is_soft Sample.g
           (late (Some [Sample.csv_raw]) Sample.succeeded) no_faults 18
           (Sample.job_event "ingest-csv-001")
           (PDict [("jobName"%string, PStr "ingest-csv-001")])
           (PStr "ingest-csv-001") "csv-crawler" "csv_").
  - reflexivity.
  - reflexivity.
  - intros j. reflexivity.
  - lia.
  - reflexivity.
  - intros tr Hfew. split; [reflexivity|].
    simpl. case_decide; [lia | reflexivity].
Defined.

(** The crawler that turns READY just after the wait has given up: the
    handler has gone on without it, and the query succeeds. *)
Example late_crawler_times_out :
  exists j,
    invoke Sample.g (late (Some [Sample.csv_raw]) Sample.succeeded) no_faults 18
           (Sample.job_event "ingest-csv-001") = Done true j
    /\ Did timeout_warning ∈ j.
Proof.
  eexists. split; [vm_compute; reflexivity|].
  repeat first [apply list_elem_of_here | apply list_elem_of_further].
Qed.

(** [start_crawler] raises on a crawler that is already running: the
    exception leaves the handler before any sample is taken. *)
Example start_crawler_raises :
  invoke Sample.g (Sample.steady "RUNNING" (Some [Sample.csv_raw]) Sample.succeeded)
         already_running 18 (Sample.job_event "ingest-csv-001")
  = Raised (ServiceError "CrawlerRunningException")
           (did (classified (Sample.job_event "ingest-csv-001") (PStr "ingest-csv-001")
                            "csv-crawler")
            ++ [Failed (start_crawler "csv-crawler") "CrawlerRunningException"]).
Proof. reflexivity. Qed.

(** [get_crawler] raises at the third sample: the wait does not end, the
    exception leaves the handler, and the catalog is never asked. *)
Example get_crawler_raises :
  exists j,
    invoke Sample.g (Sample.steady "RUNNING" (Some [Sample.csv_raw]) Sample.succeeded)
           (throttled_after 2) 18 (Sample.job_event "ingest-csv-001")
    = Raised (ServiceError "ThrottlingException") j
    /\ calls j = [start_crawler "csv-crawler"; get_crawler "csv-crawler";
                  get_crawler "csv-crawler"; get_crawler "csv-crawler"].
Proof. eexists. split; vm_compute; reflexivity. Qed.


(** ** The exceptions that leave the handler *)

(** The three ways in which the classification block ends. *)
Lemma decide_crawler_outcome (g : globals) (job_name : value) (j : journal) :
  (exists c p, decide_crawler g job_name j = Done (Some (c, p)) j)
  \/ decide_crawler g job_name j
     = Done None (j ++ [Did (Log WARNING "No crawler found for job name: %s" [job_name])])
  \/ (exists e,
        decide_crawler g job_name j = Raised (Own e) j
        /\ (e = TypeError
            \/ exists marker,
                marker ∈ markers
                /\ e = KeyError (crawler_variable marker)
                /\ environ g !! crawler_variable marker = None)).
Proof.
  unfold decide_crawler, bind, py_in, environ_get, log, perform, ret, raise.
  assert (forall marker, marker ∈ markers ->
            environ g !! crawler_variable marker = None ->
            exists e,
              @Raised (option (string * string)) (Own (KeyError (crawler_variable marker))) j
              = Raised (Own e) j
              /\ (e = TypeError
                  \/ exists marker',
                      marker' ∈ markers
                      /\ e = KeyError (crawler_variable marker')
                      /\ environ g !! crawler_variable marker' = None)) as Hkey.
  { intros marker ? ?. eexists. split; [done|]. right. by exists marker. }
  assert ("txt"%string ∈ markers /\ "csv"%string ∈ markers /\ "json"%string ∈ markers)
    as (Htxt & Hcsv & Hjson) by (unfold markers; set_solver).
  destruct job_name; repeat case_match; simplify_eq;
    first [ by left; eauto
          | by right; left
          | right; right; by apply (Hkey "txt"%string)
          | right; right; by apply (Hkey "csv"%string)
          | right; right; by apply (Hkey "json"%string)
          | right; right; eexists; split; [done|]; by left ].
Qed.

(** How an invocation can end.  A journal that holds a call that raised
    belongs to an invocation that raised just that. *)
Lemma invoke_outcome (g : globals) (svc : services) (flt : faults) (fuel : nat)
    (event : value) :
  match invoke g svc flt fuel event with
  | Done _ j | OutOfFuel j => exists tr, j = did tr
  | Raised (Own e) j =>
      (exists tr,
          j = did tr /\ count is_service_call tr = 0%nat /\ count is_Sleep tr = 0%nat)
      /\ (e = AttributeError \/ e = TypeError
          \/ exists marker,
              marker ∈ markers
              /\ e = KeyError (crawler_variable marker)
              /\ environ g !! crawler_variable marker = None)
  | Raised (ServiceError error) j =>
      exists tr c, j = did tr ++ [Failed c error] /\ flt (did tr) c = Some error
  end.
Proof.
  unfold invoke, lambda_handler, bind, log, perform.
  destruct (get event "detail" (PDict [])) as [e1 | detail] eqn:Hdetail; simpl.
  { pose proof (get_inl _ _ _ _ Hdetail) as ->. split; [|auto].
    by exists [Log INFO "Received event: %s" [event]]. }
  destruct (get detail "jobName" (PStr "unknown")) as [e2 | job_name] eqn:Hjob; simpl.
  { pose proof (get_inl _ _ _ _ Hjob) as ->. split; [|auto].
    by exists [Log INFO "Received event: %s" [event]]. }
  match goal with
  | |- context [decide_crawler g job_name ?j] =>
      destruct (decide_crawler_outcome g job_name j)
        as [(c & p & ->) | [-> | (e & -> & He)]]
  end.
  - pose proof (faithful_bind flt (run_crawler svc flt fuel c)
                  (fun _ => query_one_table g svc flt fuel p)
                  (faithful_run_crawler svc flt fuel c)
                  (fun _ => faithful_query_one_table g svc flt fuel p)
                  [Log INFO "Received event: %s" [event];
                   Log INFO "Triggered by Glue job: %s" [job_name]]) as Hrest.
    unfold bind in Hrest. simpl in Hrest. simpl.
    destruct (run_crawler svc flt fuel c _) as [u j | [e | error] j | j]; [| done | |].
    + destruct (query_one_table g svc flt fuel p j) as [b j' | [e | error] j' | j'];
        [| done | |].
      * destruct Hrest as [ext ->]. by eexists (_ :: _ :: ext).
      * destruct Hrest as (ext & failing & -> & Hflt).
        by eexists (_ :: _ :: ext), failing.
      * destruct Hrest as [ext ->]. by eexists (_ :: _ :: ext).
    + destruct Hrest as (ext & failing & -> & Hflt).
      by eexists (_ :: _ :: ext), failing.
    + destruct Hrest as [ext ->]. by eexists (_ :: _ :: ext).
  - simpl. by exists [Log INFO "Received event: %s" [event];
                      Log INFO "Triggered by Glue job: %s" [job_name];
                      Log WARNING "No crawler found for job name: %s" [job_name]].
  - split; [|destruct He; auto].
    by exists [Log INFO "Received event: %s" [event];
               Log INFO "Triggered by Glue job: %s" [job_name]].
Qed.

Lemma Failed_not_in_did (c : call) (error : string) (tr : trace) :
  Failed c error ∉ did tr.
Proof. unfold did. rewrite list_elem_of_fmap. by intros (e & ? & _). Qed.

(** X2.  The handler catches nothing, and raises in two ways only.  An
    exception of its own statements, an [AttributeError] from [.get], a
    [TypeError] from [in] or the [KeyError] of a crawler variable that
    the environment does not define, is raised before any call to Glue or
    Athena and before any sleep.  Every other exception that leaves the
    handler is the one a Glue or Athena call raised, and that call is the
    last thing the invocation did.  Conversely a call that raises ends the
    invocation with what it raised: whenever the journal of an invocation
    holds a call that raised, the invocation raised just that, with the
    call as its last entry. *)
Theorem service_errors_leave_the_handler (g : globals) (svc : services)
    (flt : faults) (fuel : nat) (event : value) :
  (forall x j,
      invoke g svc flt fuel event = Raised x j ->
      match x with
      | Own e =>
          (exists tr,
              j = did tr
              /\ count is_service_call tr = 0%nat /\ count is_Sleep tr = 0%nat)
          /\ (e = AttributeError \/ e = TypeError
              \/ exists marker,
                  marker ∈ markers
                  /\ e = KeyError (crawler_variable marker)
                  /\ environ g !! crawler_variable marker = None)
      | ServiceError error =>
          exists tr c, j = did tr ++ [Failed c error] /\ flt (did tr) c = Some error
      end)
  /\ (forall c error,
        Failed c error ∈ journal_of (invoke g svc flt fuel event) ->
        exists tr,
          invoke g svc flt fuel event
          = Raised (ServiceError error) (did tr ++ [Failed c error])
          /\ flt (did tr) c = Some error).
Proof.
  pose proof (invoke_outcome g svc flt fuel event) as Hshape. split.
  - intros x j Hraised. by rewrite Hraised in Hshape.
  - intros c error.
    destruct (invoke g svc flt fuel event) as [b j | [e | error'] j | j]; simpl.
    + destruct Hshape as [tr ->]. intros Hin. by apply Failed_not_in_did in Hin.
    + destruct Hshape as [(tr & -> & _) _]. intros Hin.
      by apply Failed_not_in_did in Hin.
    + destruct Hshape as (tr & c' & -> & Hflt). rewrite elem_of_app.
      intros [Hin | Hin]; [by apply Failed_not_in_did in Hin|].
      apply list_elem_of_singleton in Hin. simplify_eq. by exists tr.
    + destruct Hshape as [tr ->]. intros Hin. by apply Failed_not_in_did in Hin.
Qed.

Lemma service_errors_leave_the_handler_witness :
  exists tr c,
    did (classified (Sample.job_event "ingest-csv-001") (PStr "ingest-csv-001")
                    "csv-crawler")
    ++ [Failed (start_crawler "csv-crawler") "CrawlerRunningException"]
    = did tr ++ [Failed c "CrawlerRunningException"]
    /\ already_running (did tr) c = Some "CrawlerRunningException"%string.
Proof.
  apply (proj1 (service_errors_leave_the_handler Sample.g
                  (Sample.steady "RUNNING" (Some [Sample.csv_raw]) Sample.succeeded)
                  already_running 18 (Sample.job_event "ingest-csv-001"))
           (ServiceError "CrawlerRunningException")).
  reflexivity.
Defined.

End FaultyFacts.

(** * The two embeddings agree when no call raises *)

Lemma agree_ret {A : Type} (a : A) : agree (ret a) (Faulty.ret a).
Proof. by intros tr. Qed.

Lemma agree_raise {A : Type} (e : exn) : agree (@raise A e) (Faulty.raise e).
Proof. by intros tr. Qed.

Lemma agree_diverge {A : Type} : agree (@diverge A) Faulty.diverge.
Proof. by intros tr. Qed.

Lemma agree_lift {A : Type} (r : exn + A) : agree (lift r) (Faulty.lift r).
Proof. by destruct r. Qed.

Lemma agree_perform {A : Type} (a : A) (e : effect) :
  agree (perform a e) (Faulty.perform a e).
Proof.
  intros tr. unfold perform, Faulty.perform. simpl.
  by rewrite FaultyFacts.did_snoc.
Qed.

Lemma agree_call {A : Type} (c : Faulty.call) (answer : trace -> A)
    (e : A -> effect) :
  agree (call answer e) (Faulty.request Faulty.no_faults c answer e).
Proof.
  intros tr. unfold call, Faulty.request, Faulty.no_faults. simpl.
  by rewrite FaultyFacts.answered_did, FaultyFacts.did_snoc.
Qed.

Lemma agree_bind {A B : Type} (m : M A) (m' : Faulty.M A) (k : A -> M B)
    (k' : A -> Faulty.M B) :
  agree m m' -> (forall a, agree (k a) (k' a)) ->
  agree (bind m k) (Faulty.bind m' k').
Proof.
  intros Hm Hk tr. unfold bind, Faulty.bind. rewrite Hm.
  destruct (m tr) as [a tr1 | e tr1 | tr1]; simpl; [apply Hk | done | done].
Qed.

Ltac agree_step :=
  first [ apply agree_ret
        | apply agree_raise
        | apply agree_diverge
        | apply agree_lift
        | apply agree_perform
        | apply agree_call
        | apply agree_bind; [|intros ?] ].

Lemma agree_decide_crawler (g : globals) (job_name : value) :
  agree (decide_crawler g job_name) (Faulty.decide_crawler g job_name).
Proof.
  unfold decide_crawler, Faulty.decide_crawler, py_in, Faulty.py_in,
    environ_get, Faulty.environ_get, log, Faulty.log.
  destruct job_name; repeat first [agree_step | case_match].
Qed.

Lemma agree_wait_for_crawler (svc : services) (fuel : nat) (c : string) (waited : Z) :
  agree (wait_for_crawler svc fuel c waited)
        (Faulty.wait_for_crawler svc Faulty.no_faults fuel c waited).
Proof.
  revert waited. induction fuel as [|fuel IH]; intros waited;
    cbn [wait_for_crawler Faulty.wait_for_crawler];
    unfold log, Faulty.log, sleep, Faulty.sleep; repeat agree_step.
  destruct (crawler_terminal _); repeat agree_step.
  cbv zeta. destruct (_ >=? _); [agree_step | apply IH].
Qed.

Lemma agree_wait_for_athena (svc : services) (fuel : nat) (qid : string) :
  agree (wait_for_athena svc fuel qid)
        (Faulty.wait_for_athena svc Faulty.no_faults fuel qid).
Proof.
  induction fuel as [|fuel IH]; cbn [wait_for_athena Faulty.wait_for_athena];
    unfold log, Faulty.log, sleep, Faulty.sleep; repeat agree_step.
  cbv zeta. destruct (query_terminal _); repeat agree_step. apply IH.
Qed.

Lemma agree_run_athena_query (g : globals) (svc : services) (fuel : nat)
    (table_name : string) :
  agree (run_athena_query g svc fuel table_name)
        (Faulty.run_athena_query g svc Faulty.no_faults fuel table_name).
Proof.
  unfold run_athena_query, Faulty.run_athena_query, log, Faulty.log. cbv zeta.
  repeat agree_step.
  - apply agree_wait_for_athena.
  - destruct (negb _); repeat agree_step.
Qed.

Lemma agree_query_one_table (g : globals) (svc : services) (fuel : nat) (p : string) :
  agree (query_one_table g svc fuel p)
        (Faulty.query_one_table g svc Faulty.no_faults fuel p).
Proof.
  unfold query_one_table, Faulty.query_one_table, log, Faulty.log. cbv zeta.
  repeat agree_step.
  destruct (default [] _); [repeat agree_step|].
  apply agree_bind; [agree_step | intros ?; apply agree_run_athena_query].
Qed.

Lemma agree_refresh_and_query (g : globals) (svc : services) (fuel : nat)
    (c p : string) :
  agree (refresh_and_query g svc fuel c p)
        (Faulty.bind (Faulty.run_crawler svc Faulty.no_faults fuel c)
                     (fun _ => Faulty.query_one_table g svc Faulty.no_faults fuel p)).
Proof.
  assert (agree (bind (bind (log INFO "Starting crawler: %s" [PStr c])
                            (fun _ => bind (perform tt (StartCrawler c))
                                        (fun _ => wait_for_crawler svc fuel c 0)))
                      (fun _ => query_one_table g svc fuel p))
                (Faulty.bind (Faulty.run_crawler svc Faulty.no_faults fuel c)
                     (fun _ => Faulty.query_one_table g svc Faulty.no_faults fuel p)))
    as Hagree.
  { unfold Faulty.run_crawler, log, Faulty.log.
    apply agree_bind; [|intros ?; apply agree_query_one_table].
    apply agree_bind; [agree_step|intros ?].
    apply agree_bind; [|intros ?; apply agree_wait_for_crawler].
    intros tr. unfold perform, Faulty.request, Faulty.no_faults. simpl.
    by rewrite FaultyFacts.did_snoc. }
  intros tr. exact (Hagree tr).
Qed.

(** When no call raises, an invocation in the second embedding is the
    invocation of the first: same result, same effects in the same
    order.  What is proved of the first embedding holds of the second
    for services that answer. *)
Lemma invoke_agrees_without_faults (g : globals) (svc : services) (fuel : nat)
    (event : value) :
  Faulty.invoke g svc Faulty.no_faults fuel event = answering (invoke g svc fuel event).
Proof.
  assert (agree (lambda_handler g svc fuel event)
                (Faulty.lambda_handler g svc Faulty.no_faults fuel event)) as Hagree.
  { unfold lambda_handler, Faulty.lambda_handler, log, Faulty.log.
    do 4 (apply agree_bind; [agree_step | intros ?]).
    apply agree_bind; [apply agree_decide_crawler | intros [[c p]|]];
      [apply agree_refresh_and_query | agree_step]. }
  exact (Hagree []).
Qed.

(** * Properties of the deployment script *)

Module DeployFacts.

Import Deploy.
Local Open Scope deploy_scope.

Lemma script_count_app (p : effect -> bool) (tr1 tr2 : trace) :
  count p (tr1 ++ tr2) = (count p tr1 + count p tr2)%nat.
Proof. unfold count. by rewrite List.filter_app, length_app. Qed.

(** Runs a block of the script on every answer the world can give. *)
Ltac unfold_script :=
  unfold ensure_bucket, upload_and_get_version, deploy_stack,
    try_except_ClientError, bind, attempt, request, observe, log, ret, raise.

(** Finds an element in a list that is written out. *)
Ltac in_list :=
  solve [repeat first [apply list_elem_of_here | apply list_elem_of_further]].

Ltac answer_cases :=
  repeat match goal with
         | |- context [match ?x with _ => _ end] =>
             lazymatch x with
             | context [match _ with _ => _ end] => fail
             | _ => destruct x eqn:?
             end
         end.

(** X10.  [ensure_bucket] creates the bucket exactly when [head_bucket]
    raised a [ClientError], whatever its text, and then in [REGION]; and
    whenever it returns, its last call is the one that enabled versioning
    on the bucket, and that call succeeded. *)
Theorem ensure_bucket_creates_when_head_fails (w : world) (bucket : string)
    (tr : trace) :
  exists ext,
    trace_of (ensure_bucket w bucket tr) = tr ++ ext
    /\ count is_CreateBucket ext
       = match head_bucket w tr bucket with
         | Some (ClientError _) => 1%nat
         | _ => 0%nat
         end
    /\ (forall b region r,
          CreateBucket b region r ∈ ext -> b = bucket /\ region = REGION)
    /\ (forall u tr',
          ensure_bucket w bucket tr = Done u tr' ->
          last ext = Some (PutBucketVersioning bucket "Enabled" None)).
Proof.
  unfold_script.
  destruct (head_bucket w tr bucket) as [[msg|k|d]|] eqn:Hhead; answer_cases;
    (eexists; split; [simpl; rewrite <- ?app_assoc; reflexivity|]);
    (split; [reflexivity|]);
    (split; [intros b region r Hin; set_solver|]);
    intros u tr' Hrun; simplify_eq; done.
Qed.

(** X11.  [upload_and_get_version] returns the [VersionId] that
    [head_object] reports for the key after the upload has succeeded:
    when the upload succeeds and the response holds a [VersionId], the
    function returns that version, having logged it; it returns in no
    other way; and when the response has no [VersionId] it raises
    [KeyError], with the object already uploaded. *)
Theorem upload_returns_reported_version (w : world) (bucket key file_path : string)
    (tr : trace) :
  let uploading :=
    [Log "Uploading: %s -> s3://%s/%s" [file_path; bucket; key];
     UploadFile file_path bucket key None] in
  (forall version,
      upload_file w (tr ++ [Log "Uploading: %s -> s3://%s/%s" [file_path; bucket; key]])
                  file_path bucket key = None ->
      head_object w (tr ++ uploading) bucket key = inr (Some version) ->
      upload_and_get_version w bucket key file_path tr
      = Done version
             (tr ++ uploading
                 ++ [HeadObject bucket key (inr (Some version));
                     Log "Uploaded %s (VersionId=%s)" [key; version]]))
  /\ (forall version tr',
      upload_and_get_version w bucket key file_path tr = Done version tr' ->
      upload_file w (tr ++ [Log "Uploading: %s -> s3://%s/%s" [file_path; bucket; key]])
                  file_path bucket key = None
      /\ head_object w (tr ++ uploading) bucket key = inr (Some version)
      /\ tr' = tr ++ uploading
                  ++ [HeadObject bucket key (inr (Some version));
                      Log "Uploaded %s (VersionId=%s)" [key; version]])
  /\ (upload_file w (tr ++ [Log "Uploading: %s -> s3://%s/%s" [file_path; bucket; key]])
                  file_path bucket key = None ->
      head_object w (tr ++ uploading) bucket key = inr None ->
      upload_and_get_version w bucket key file_path tr
      = Raised (KeyError "VersionId")
               (tr ++ uploading ++ [HeadObject bucket key (inr None)])).
Proof.
  intros uploading. subst uploading.
  assert (forall a b, tr ++ [a; b] = (tr ++ [a]) ++ [b]) as Hsnoc
    by (intros; by rewrite <- app_assoc).
  split; [|split].
  - intros version Hupload Hhead. rewrite Hsnoc in Hhead.
    unfold_script. rewrite Hupload, Hhead. by rewrite <- !app_assoc.
  - intros version tr'. rewrite Hsnoc. unfold_script.
    answer_cases; intros; simplify_eq.
    split; [done|]. split; [done|]. by rewrite <- !app_assoc.
  - intros Hupload Hhead. rewrite Hsnoc in Hhead.
    unfold_script. rewrite Hupload, Hhead. by rewrite <- !app_assoc.
Qed.

Lemma upload_returns_reported_version_witness :
  upload_and_get_version calm "bucket" "lambdas/a.zip" "a.zip" []
  = Done "v1"%string
         ([] ++ [Log "Uploading: %s -> s3://%s/%s" ["a.zip"; "bucket"; "lambdas/a.zip"];
                 UploadFile "a.zip" "bucket" "lambdas/a.zip" None]
             ++ [HeadObject "bucket" "lambdas/a.zip" (inr (Some "v1"%string));
                 Log "Uploaded %s (VersionId=%s)" ["lambdas/a.zip"; "v1"]]).
Proof.
  apply (proj1 (upload_returns_reported_version calm "bucket"
                  "lambdas/a.zip" "a.zip" [])); reflexivity.
Defined.

(** A bucket without versioning: the upload is made, then the lookup of
    the version fails. *)
Example upload_without_versioning :
  upload_and_get_version unversioned "bucket" "lambdas/a.zip" "a.zip" []
  = Raised (KeyError "VersionId")
           [Log "Uploading: %s -> s3://%s/%s" ["a.zip"; "bucket"; "lambdas/a.zip"];
            UploadFile "a.zip" "bucket" "lambdas/a.zip" None;
            HeadObject "bucket" "lambdas/a.zip" (inr None)].
Proof. reflexivity. Qed.

(** X12.  [deploy_stack] makes one stack call at most: [update_stack]
    exactly when [describe_stacks] returned, [create_stack] exactly when
    it raised a [ClientError] (of any kind), and neither when it raised
    something else.  Each stack call is for [STACK_NAME], with the
    template, the parameters and the capability it was given. *)
Theorem deploy_stack_updates_or_creates (w : world) (template_body : string)
    (params : list parameter) (tr : trace) :
  exists ext,
    trace_of (deploy_stack w template_body params tr) = tr ++ ext
    /\ count is_UpdateStack ext
       = match describe_stacks w tr STACK_NAME with
         | None => 1%nat
         | Some _ => 0%nat
         end
    /\ count is_CreateStack ext
       = match describe_stacks w tr STACK_NAME with
         | Some (ClientError _) => 1%nat
         | _ => 0%nat
         end
    /\ forall stack t p c r,
        UpdateStack stack t p c r ∈ ext \/ CreateStack stack t p c r ∈ ext ->
        stack = STACK_NAME /\ t = template_body /\ p = params
        /\ c = ["CAPABILITY_NAMED_IAM"%string].
Proof.
  unfold_script.
  destruct (describe_stacks w tr STACK_NAME) as [[msg|k|d]|] eqn:Hdescribe;
    answer_cases;
    (eexists; split; [simpl; rewrite <- ?app_assoc; reflexivity|]);
    (split; [reflexivity|]); (split; [reflexivity|]);
    intros stack t p c r Hin; set_solver.
Qed.

(** X13.  When the stack exists and [update_stack] raises a
    [ClientError], [deploy_stack] returns normally if the text of the
    error contains "No updates are to be performed", after the record
    "No updates ..." and without waiting; otherwise it raises that very
    error again. *)
Theorem no_updates_counts_as_success (w : world) (template_body : string)
    (params : list parameter) (tr : trace) (message : string) :
  let updating :=
    [DescribeStacks STACK_NAME None; Log "Updating stack..." []] in
  let failed :=
    UpdateStack STACK_NAME template_body params ["CAPABILITY_NAMED_IAM"%string]
                (inl (ClientError message)) in
  describe_stacks w tr STACK_NAME = None ->
  update_stack w (tr ++ updating) STACK_NAME template_body params
               ["CAPABILITY_NAMED_IAM"%string] = inl (ClientError message) ->
  (substring_of no_updates message ->
   deploy_stack w template_body params tr
   = Done tt (tr ++ updating
                 ++ [failed; Log "No updates — stack already up to date." []]))
  /\ (~ substring_of no_updates message ->
      deploy_stack w template_body params tr
      = Raised (ClientError message) (tr ++ updating ++ [failed])).
Proof.
  intros updating failed Hdescribe Hupdate. subst updating failed.
  assert (forall b, contains no_updates message = b ->
            deploy_stack w template_body params tr
            = if b
              then Done tt (tr ++ [DescribeStacks STACK_NAME None;
                                   Log "Updating stack..." []]
                               ++ [UpdateStack STACK_NAME template_body params
                                     ["CAPABILITY_NAMED_IAM"%string]
                                     (inl (ClientError message));
                                   Log "No updates — stack already up to date." []])
              else Raised (ClientError message)
                          (tr ++ [DescribeStacks STACK_NAME None;
                                  Log "Updating stack..." []]
                              ++ [UpdateStack STACK_NAME template_body params
                                    ["CAPABILITY_NAMED_IAM"%string]
                                    (inl (ClientError message))])) as Hrun.
  { intros b Hb. unfold_script. rewrite Hdescribe.
    change (tr ++ [?a; ?b]) with (tr ++ [a] ++ [b]) in Hupdate.
    rewrite app_assoc in Hupdate. unfold capabilities. rewrite Hupdate.
    unfold no_updates in Hb. rewrite Hb. destruct b; by rewrite <- !app_assoc. }
  split.
  - intros Hin%contains_true_iff. by apply (Hrun true).
  - intros Hout%contains_false_iff. by apply (Hrun false).
Qed.

Lemma no_updates_counts_as_success_witness :
  deploy_stack unchanged "Resources: {}" [] []
  = Done tt ([] ++ [DescribeStacks STACK_NAME None; Log "Updating stack..." []]
                ++ [UpdateStack STACK_NAME "Resources: {}" []
                      ["CAPABILITY_NAMED_IAM"%string]
                      (inl (ClientError "An error occurred (ValidationError) when calling the UpdateStack operation: No updates are to be performed."));
                    Log "No updates — stack already up to date." []]).
Proof.
  apply (proj1 (no_updates_counts_as_success unchanged "Resources: {}" [] []
                  "An error occurred (ValidationError) when calling the UpdateStack operation: No updates are to be performed."
                  eq_refl eq_refl)).
  apply contains_true_iff. reflexivity.
Defined.

(** X14.  [deploy_stack] returns normally in three cases only: the update
    was started and its waiter returned; the creation was started and its
    waiter returned; or a [ClientError] whose text contains "No updates
    are to be performed" was raised by [update_stack] or by the wait for
    the update. *)
Theorem deploy_stack_returns_when (w : world) (template_body : string)
    (params : list parameter) (tr tr' : trace) (u : unit) :
  deploy_stack w template_body params tr = Done u tr' ->
  exists ext,
    tr' = tr ++ ext
    /\ ((exists stack_id,
            UpdateStack STACK_NAME template_body params
              ["CAPABILITY_NAMED_IAM"%string] (inr stack_id) ∈ ext
            /\ WaiterWait "stack_update_complete" STACK_NAME None ∈ ext
            /\ last ext = Some (Log "Stack Updated Successfully!" []))
        \/ (exists stack_id,
              CreateStack STACK_NAME template_body params
                ["CAPABILITY_NAMED_IAM"%string] (inr stack_id) ∈ ext
              /\ WaiterWait "stack_create_complete" STACK_NAME None ∈ ext
              /\ last ext = Some (Log "Stack Created Successfully!" []))
        \/ (exists message,
              substring_of no_updates message
              /\ last ext = Some (Log "No updates — stack already up to date." [])
              /\ (UpdateStack STACK_NAME template_body params
                    ["CAPABILITY_NAMED_IAM"%string] (inl (ClientError message)) ∈ ext
                  \/ WaiterWait "stack_update_complete" STACK_NAME
                       (Some (ClientError message)) ∈ ext))).
Proof.
  unfold_script. unfold capabilities.
  answer_cases; intros; simplify_eq;
    (eexists; split; [rewrite <- ?app_assoc; reflexivity|]).
  all: simpl.
  all: first
    [ left; eexists; split; [in_list|]; split; [in_list | reflexivity]
    | right; left; eexists; split; [in_list|]; split; [in_list | reflexivity]
    | right; right; eexists;
      split; [apply contains_true_iff; eassumption|];
      split; [reflexivity|];
      first [left; in_list | right; in_list] ].
Qed.

Lemma deploy_stack_returns_when_witness :
  exists ext,
    trace_of (deploy_stack fresh "Resources: {}" [] []) = [] ++ ext
    /\ ((exists stack_id,
            UpdateStack STACK_NAME "Resources: {}" []
              ["CAPABILITY_NAMED_IAM"%string] (inr stack_id) ∈ ext
            /\ WaiterWait "stack_update_complete" STACK_NAME None ∈ ext
            /\ last ext = Some (Log "Stack Updated Successfully!" []))
        \/ (exists stack_id,
              CreateStack STACK_NAME "Resources: {}" []
                ["CAPABILITY_NAMED_IAM"%string] (inr stack_id) ∈ ext
              /\ WaiterWait "stack_create_complete" STACK_NAME None ∈ ext
              /\ last ext = Some (Log "Stack Created Successfully!" []))
        \/ (exists message,
              substring_of no_updates message
              /\ last ext = Some (Log "No updates — stack already up to date." [])
              /\ (UpdateStack STACK_NAME "Resources: {}" []
                    ["CAPABILITY_NAMED_IAM"%string] (inl (ClientError message)) ∈ ext
                  \/ WaiterWait "stack_update_complete" STACK_NAME
                       (Some (ClientError message)) ∈ ext))).
Proof.
  apply (deploy_stack_returns_when fresh "Resources: {}" [] []
           (trace_of (deploy_stack fresh "Resources: {}" [] [])) tt).
  reflexivity.
Defined.

(** ** Archives *)

Section Archive.

Variable w : world.
Variable path : os_path.
Variables src_folder zip_path : string.

Lemma write_files_ok (root : string) (files : list string) (tr : trace) :
  (forall h f a, zip_write w h zip_path f a = None) ->
  write_files w path src_folder zip_path root files tr
  = Done tt (tr ++ (written path src_folder zip_path
                      <$> ((fun file => (root, file)) <$> files))).
Proof.
  intros Hwrite. revert tr. induction files as [|file files IH]; intros tr.
  - simpl. unfold ret. by rewrite app_nil_r.
  - unfold write_files in *. cbn [for_each]. unfold bind at 1, attempt.
    rewrite Hwrite, IH. simpl. by rewrite <- app_assoc.
Qed.

Lemma write_entries_ok (entries : list walk_entry) (tr : trace) :
  (forall h f a, zip_write w h zip_path f a = None) ->
  write_entries w path src_folder zip_path entries tr
  = Done tt (tr ++ (written path src_folder zip_path <$> files_of entries)).
Proof.
  intros Hwrite. revert tr.
  induction entries as [|[[root dirs] files] entries IH]; intros tr.
  - simpl. unfold ret. by rewrite app_nil_r.
  - unfold write_entries in *. cbn [for_each]. unfold bind at 1.
    rewrite write_files_ok by done.
    rewrite IH. unfold files_of. cbn [mbind list_bind]. fold (files_of entries).
    by rewrite fmap_app, app_assoc.
Qed.

(** X15.  When opening, writing and closing the archive all succeed,
    [zip_lambda] writes every file of the walk exactly once, in the order
    of the walk, each from [join(root, file)] under the name
    [relpath(join(root, file), src_folder)], then closes the archive and
    records "Created ZIP". *)
Theorem zip_lambda_writes_every_file (tr : trace) :
  (forall h, zip_open w h zip_path = None) ->
  (forall h f a, zip_write w h zip_path f a = None) ->
  (forall h, zip_close w h zip_path = None) ->
  zip_lambda w path src_folder zip_path tr
  = Done tt
      (tr ++ [ZipOpen zip_path None;
              Walk src_folder (walk w (tr ++ [ZipOpen zip_path None]) src_folder)]
          ++ (written path src_folder zip_path
                <$> files_of (walk w (tr ++ [ZipOpen zip_path None]) src_folder))
          ++ [ZipClose zip_path None; Log "Created ZIP: %s" [zip_path]]).
Proof.
  intros Hopen Hwrite Hclose.
  unfold zip_lambda, with_ZipFile, bind, attempt, observe, log, ret.
  rewrite Hopen, (write_entries_ok _ _ Hwrite), Hclose.
  by rewrite <- !app_assoc.
Qed.

Lemma write_files_adds (root : string) (files : list string) (tr : trace) :
  exists ext,
    trace_of (write_files w path src_folder zip_path root files tr) = tr ++ ext
    /\ Forall (fun e => is_ZipWrite e = true) ext.
Proof.
  revert tr. induction files as [|file files IH]; intros tr.
  - exists []. by rewrite app_nil_r.
  - unfold write_files in *. cbn [for_each]. unfold bind at 1, attempt.
    destruct (zip_write _ _ _ _ _).
    + eexists. split; [done|]. by apply Forall_singleton.
    + edestruct IH as (ext & -> & Hext). eexists.
      split; [by rewrite <- app_assoc|]. by apply Forall_cons.
Qed.

Lemma write_entries_adds (entries : list walk_entry) (tr : trace) :
  exists ext,
    trace_of (write_entries w path src_folder zip_path entries tr) = tr ++ ext
    /\ Forall (fun e => is_ZipWrite e = true) ext.
Proof.
  revert tr. induction entries as [|[[root dirs] files] entries IH]; intros tr.
  - exists []. by rewrite app_nil_r.
  - unfold write_entries in *. cbn [for_each]. unfold bind at 1.
    destruct (write_files_adds root files tr) as (ext1 & Hext1 & Hw1).
    destruct (write_files _ _ _ _ root files tr) as [[] tr1 | e tr1];
      simpl in Hext1; subst tr1; [|by exists ext1].
    edestruct IH as (ext2 & -> & Hw2). exists (ext1 ++ ext2).
    split; [by rewrite app_assoc | by apply Forall_app].
Qed.

Lemma writes_only (ext : trace) :
  Forall (fun e => is_ZipWrite e = true) ext ->
  count is_ZipClose ext = 0%nat
  /\ forall e, e ∈ ext -> is_ZipWrite e = true.
Proof.
  intros Hext. split; [|by apply Forall_forall].
  induction Hext as [|e ext He _ IH]; [done|].
  unfold count in *. simpl. by destruct e.
Qed.

(** X16.  Whatever fails, [zip_lambda] closes the archive once if it has
    opened it and not at all otherwise, and it records "Created ZIP"
    exactly when it returns normally. *)
Theorem zip_lambda_closes_what_it_opened (tr : trace) :
  exists ext,
    trace_of (zip_lambda w path src_folder zip_path tr) = tr ++ ext
    /\ count is_ZipClose ext
       = match zip_open w tr zip_path with
         | None => 1%nat
         | Some _ => 0%nat
         end
    /\ (forall z r, ZipClose z r ∈ ext -> z = zip_path)
    /\ (Log "Created ZIP: %s" [zip_path] ∈ ext
        <-> exists tr', zip_lambda w path src_folder zip_path tr = Done tt tr').
Proof.
  unfold zip_lambda, with_ZipFile, bind, attempt, observe, log, ret, raise.
  destruct (zip_open w tr zip_path) as [e|] eqn:Hopen.
  { eexists. split; [done|]. split; [done|].
    split; [intros z r Hin; set_solver|].
    split; [intros Hin; set_solver | by intros [tr' [=]]]. }
  match goal with
  | |- context [write_entries w path src_folder zip_path ?entries ?tr1] =>
      destruct (write_entries_adds entries tr1) as (ext & Hext & Hw);
      destruct (write_entries w path src_folder zip_path entries tr1)
        as [[] tr2 | e tr2];
      simpl in Hext; subst tr2
  end;
    destruct (writes_only ext Hw) as [Hnone Hall];
    (destruct (zip_close w _ zip_path) as [e'|] eqn:Hclose; simpl);
    (eexists; split; [rewrite <- !app_assoc; reflexivity|]);
    rewrite !script_count_app, Hnone;
    (split; [reflexivity|]);
    (split;
     [intros z r; rewrite !elem_of_app, !list_elem_of_singleton;
      intros [[=] | [[=] | [Hin%Hall | H]]]; [done | set_solver]|]).
  all: split;
    [ rewrite !elem_of_app, !list_elem_of_singleton;
      intros [[=] | [[=] | [Hin%Hall | H]]]; first [done | set_solver | by eexists]
    | first [by intros [tr' [=]] | intros _; set_solver] ].
Qed.

End Archive.

Lemma zip_lambda_writes_every_file_witness :
  zip_lambda calm slash_paths "lambdas/SaveS3Config" "SaveS3Config.zip" []
  = Done tt
      ([] ++ [ZipOpen "SaveS3Config.zip" None;
              Walk "lambdas/SaveS3Config"
                   [("lambdas/SaveS3Config"%string, [], ["index.py"%string])]]
          ++ [ZipWrite "SaveS3Config.zip" "lambdas/SaveS3Config/index.py"
                       "index.py" None]
          ++ [ZipClose "SaveS3Config.zip" None;
              Log "Created ZIP: %s" ["SaveS3Config.zip"%string]]).
Proof.
  apply (zip_lambda_writes_every_file calm slash_paths "lambdas/SaveS3Config"
           "SaveS3Config.zip" []); reflexivity.
Defined.

(** ** The whole script *)

Lemma bind_Done {A B : Type} (m : M A) (k : A -> M B) (tr tr'' : trace) (b : B) :
  bind m k tr = Done b tr'' ->
  exists a tr', m tr = Done a tr' /\ k a tr' = Done b tr''.
Proof. unfold bind. destruct (m tr) as [a tr'|]; [eauto | done]. Qed.

Lemma quiet_ret {A : Type} (a : A) : adds (ret a) (fun _ => quiet) quiet.
Proof. intros tr. exists []. split; [by rewrite app_nil_r | by apply Forall_nil]. Qed.

Lemma quiet_raise {A : Type} (e : exn) : adds (@raise A e) (fun _ => quiet) quiet.
Proof. intros tr. exists []. split; [by rewrite app_nil_r | by apply Forall_nil]. Qed.

Lemma quiet_log (msg : string) (args : list string) :
  adds (log msg args) (fun _ => quiet) quiet.
Proof. intros tr. eexists. split; [done|]. by apply Forall_singleton. Qed.

Lemma quiet_attempt (answer : trace -> option exn) (e : option exn -> effect) :
  (forall r, is_cloudformation (e r) = false) ->
  adds (attempt answer e) (fun _ => quiet) quiet.
Proof.
  intros He tr. unfold attempt.
  destruct (answer tr); (eexists; split; [done|]); by apply Forall_singleton.
Qed.

Lemma quiet_request {A : Type} (answer : trace -> exn + A) (e : exn + A -> effect) :
  (forall r, is_cloudformation (e r) = false) ->
  adds (request answer e) (fun _ => quiet) quiet.
Proof.
  intros He tr. unfold request.
  destruct (answer tr); (eexists; split; [done|]); by apply Forall_singleton.
Qed.

Lemma quiet_observe {A : Type} (answer : trace -> A) (e : A -> effect) :
  (forall r, is_cloudformation (e r) = false) ->
  adds (observe answer e) (fun _ => quiet) quiet.
Proof.
  intros He tr. unfold observe. eexists. split; [done|]. by apply Forall_singleton.
Qed.

Lemma quiet_bind {A B : Type} (m : M A) (k : A -> M B) :
  adds m (fun _ => quiet) quiet ->
  (forall a, adds (k a) (fun _ => quiet) quiet) ->
  adds (bind m k) (fun _ => quiet) quiet.
Proof.
  intros Hm Hk tr. unfold bind. specialize (Hm tr).
  destruct (m tr) as [a tr1 | e tr1]; [|done].
  destruct Hm as (ext1 & -> & Hq1). specialize (Hk a (tr ++ ext1)).
  destruct (k a (tr ++ ext1)) as [b tr2 | e tr2];
    destruct Hk as (ext2 & -> & Hq2);
    (exists (ext1 ++ ext2); split; [by rewrite app_assoc | by apply Forall_app]).
Qed.

Lemma quiet_try_except {A : Type} (body : M A) (handler : string -> M A) :
  adds body (fun _ => quiet) quiet ->
  (forall message, adds (handler message) (fun _ => quiet) quiet) ->
  adds (try_except_ClientError body handler) (fun _ => quiet) quiet.
Proof.
  intros Hbody Hhandler tr. unfold try_except_ClientError. specialize (Hbody tr).
  destruct (body tr) as [a tr1 | [message|k|d] tr1]; try done.
  destruct Hbody as (ext1 & -> & Hq1). specialize (Hhandler message (tr ++ ext1)).
  destruct (handler message (tr ++ ext1)) as [b tr2 | e tr2];
    destruct Hhandler as (ext2 & -> & Hq2);
    (exists (ext1 ++ ext2); split; [by rewrite app_assoc | by apply Forall_app]).
Qed.

Lemma quiet_for_each {A S : Type} (l : list A) (body : A -> S -> M S) (s : S) :
  (forall x s, adds (body x s) (fun _ => quiet) quiet) ->
  adds (for_each l body s) (fun _ => quiet) quiet.
Proof.
  intros Hbody. revert s. induction l as [|x l IH]; intros s; simpl.
  - apply quiet_ret.
  - apply quiet_bind; [apply Hbody | intros s'; apply IH].
Qed.

(** Proves that a block makes no call to CloudFormation. *)
Ltac quiet :=
  repeat first
    [ apply quiet_ret | apply quiet_raise | apply quiet_log
    | apply quiet_attempt; reflexivity
    | apply quiet_request; reflexivity
    | apply quiet_observe; reflexivity
    | apply quiet_try_except; [|intros ?]
    | apply quiet_for_each; intros ? ?
    | apply quiet_bind; [|intros ?]
    | progress cbv beta
    | match goal with
      | |- context [match ?x with _ => _ end] => is_var x; destruct x
      end ].

Section Main.

Variable w : world.
Variable path : os_path.

Lemma quiet_ensure_bucket (bucket : string) :
  adds (ensure_bucket w bucket) (fun _ => quiet) quiet.
Proof. unfold ensure_bucket. quiet. Qed.

Lemma quiet_with_ZipFile {A : Type} (zip_path : string) (body : M A) :
  adds body (fun _ => quiet) quiet ->
  adds (with_ZipFile w zip_path body) (fun _ => quiet) quiet.
Proof.
  intros Hbody. unfold with_ZipFile. apply quiet_bind; [quiet|]. intros _ tr.
  specialize (Hbody tr).
  destruct (body tr) as [a tr1 | e tr1]; destruct Hbody as (ext1 & -> & Hq1).
  - assert (adds (attempt (fun tr => zip_close w tr zip_path) (ZipClose zip_path) ;;
                  ret a) (fun _ => quiet) quiet) as Hclose by quiet.
    specialize (Hclose (tr ++ ext1)).
    destruct (bind _ _ (tr ++ ext1)) as [b tr2 | e tr2];
      destruct Hclose as (ext2 & -> & Hq2);
      (exists (ext1 ++ ext2); split; [by rewrite app_assoc | by apply Forall_app]).
  - assert (adds (attempt (fun tr => zip_close w tr zip_path) (ZipClose zip_path) ;;
                  @raise A e) (fun _ => quiet) quiet) as Hclose by quiet.
    specialize (Hclose (tr ++ ext1)).
    destruct (bind _ _ (tr ++ ext1)) as [b tr2 | e' tr2];
      destruct Hclose as (ext2 & -> & Hq2);
      (exists (ext1 ++ ext2); split; [by rewrite app_assoc | by apply Forall_app]).
Qed.

Lemma quiet_zip_lambda (src_folder zip_path : string) :
  adds (zip_lambda w path src_folder zip_path) (fun _ => quiet) quiet.
Proof.
  unfold zip_lambda. apply quiet_bind; [|intros ?; apply quiet_log].
  apply quiet_with_ZipFile. unfold write_entries, write_files. quiet.
Qed.

Lemma quiet_upload_and_get_version (bucket key file_path : string) :
  adds (upload_and_get_version w bucket key file_path) (fun _ => quiet) quiet.
Proof. unfold upload_and_get_version. quiet. Qed.

Lemma quiet_upload_lambdas (bucket : string) :
  adds (upload_lambdas w path bucket) (fun _ => quiet) quiet.
Proof.
  unfold upload_lambdas. apply quiet_for_each. intros [src_folder zip_name] lv.
  apply quiet_bind; [apply quiet_zip_lambda|]. intros _.
  apply quiet_bind; [apply quiet_upload_and_get_version|]. intros version.
  apply quiet_ret.
Qed.

Lemma quiet_upload_scripts (bucket : string) :
  adds (upload_scripts w path bucket) (fun _ => quiet) quiet.
Proof. unfold upload_scripts. quiet. Qed.

Lemma adds_Done {A : Type} (m : M A) (Q : A -> trace -> Prop) (R : trace -> Prop)
    (tr tr' : trace) (a : A) :
  adds m Q R -> m tr = Done a tr' -> exists ext, tr' = tr ++ ext /\ Q a ext.
Proof. intros Hm Hrun. specialize (Hm tr). by rewrite Hrun in Hm. Qed.

Lemma adds_Raised {A : Type} (m : M A) (Q : A -> trace -> Prop) (R : trace -> Prop)
    (tr tr' : trace) (e : exn) :
  adds m Q R -> m tr = Raised e tr' -> exists ext, tr' = tr ++ ext /\ R ext.
Proof. intros Hm Hrun. specialize (Hm tr). by rewrite Hrun in Hm. Qed.

(** The two ways a sequence can go. *)
Lemma bind_cases {A B : Type} (m : M A) (k : A -> M B) (tr : trace) :
  (exists e tr1, m tr = Raised e tr1 /\ bind m k tr = Raised e tr1)
  \/ (exists a tr1, m tr = Done a tr1 /\ bind m k tr = k a tr1).
Proof. unfold bind. destruct (m tr) as [a tr1 | e tr1]; eauto 6. Qed.

Lemma ensure_bucket_Done (bucket : string) (tr tr' : trace) (u : unit) :
  ensure_bucket w bucket tr = Done u tr' ->
  PutBucketVersioning bucket "Enabled" None ∈ tr'.
Proof.
  unfold ensure_bucket.
  intros (a & tr1 & _ & (a' & tr2 & _ & Hput)%bind_Done)%bind_Done.
  revert Hput. unfold attempt. destruct (put_bucket_versioning _ _ _ _); [done|].
  intros [= _ <-]. set_solver.
Qed.

Lemma upload_Done (bucket key file_path version : string) (tr tr' : trace) :
  upload_and_get_version w bucket key file_path tr = Done version tr' ->
  HeadObject bucket key (inr (Some version)) ∈ tr'.
Proof. unfold_script. answer_cases; intros; simplify_eq. set_solver. Qed.

(** One round of the loop over the Lambdas. *)
Lemma upload_lambda_Done (bucket src_folder zip_name : string)
    (lv lv' : gmap string string) (tr tr' : trace) :
  (zip_lambda w path src_folder zip_name ;;
   version <- upload_and_get_version w bucket ("lambdas/" +:+ zip_name) zip_name ;;
   ret (<[replace ".zip" "" zip_name := version]> lv)) tr = Done lv' tr' ->
  exists version ext,
    tr' = tr ++ ext
    /\ lv' = <[replace ".zip" "" zip_name := version]> lv
    /\ HeadObject bucket ("lambdas/" +:+ zip_name) (inr (Some version)) ∈ tr'.
Proof.
  intros (u & tr1 & Hzip & (version & tr2 & Hup & Hret)%bind_Done)%bind_Done.
  injection Hret as <- <-.
  destruct (adds_Done _ _ _ _ _ _ (quiet_zip_lambda _ _) Hzip) as (ext1 & -> & _).
  destruct (adds_Done _ _ _ _ _ _ (quiet_upload_and_get_version _ _ _) Hup)
    as (ext2 & Heq & _).
  apply upload_Done in Hup. rewrite Heq in Hup |- *.
  exists version, (ext1 ++ ext2). by rewrite app_assoc.
Qed.

Lemma upload_lambdas_Done (bucket : string) (lv : gmap string string)
    (tr tr' : trace) :
  upload_lambdas w path bucket tr = Done lv tr' ->
  exists v1 v2 v3 v4,
    lv !! "SaveS3Config"%string = Some v1
    /\ lv !! "TriggerGlueJob"%string = Some v2
    /\ lv !! "LambdaGlueJobSuccess"%string = Some v3
    /\ lv !! "LambdaGlueJobFailure"%string = Some v4
    /\ HeadObject bucket "lambdas/SaveS3Config.zip" (inr (Some v1)) ∈ tr'
    /\ HeadObject bucket "lambdas/TriggerGlueJob.zip" (inr (Some v2)) ∈ tr'
    /\ HeadObject bucket "lambdas/LambdaGlueJobSuccess.zip" (inr (Some v3)) ∈ tr'
    /\ HeadObject bucket "lambdas/LambdaGlueJobFailure.zip" (inr (Some v4)) ∈ tr'.
Proof.
  unfold upload_lambdas, lambda_sources. cbn [for_each].
  intros (lv1 & tr1 & (v1 & ext1 & -> & -> & H1)%upload_lambda_Done
          & (lv2 & tr2 & (v2 & ext2 & -> & -> & H2)%upload_lambda_Done
             & (lv3 & tr3 & (v3 & ext3 & -> & -> & H3)%upload_lambda_Done
                & (lv4 & tr4 & (v4 & ext4 & -> & -> & H4)%upload_lambda_Done
                   & Hret)%bind_Done)%bind_Done)%bind_Done)%bind_Done.
  injection Hret as <- <-.
  exists v1, v2, v3, v4.
  change (replace ".zip" "" "SaveS3Config.zip") with "SaveS3Config"%string.
  change (replace ".zip" "" "TriggerGlueJob.zip") with "TriggerGlueJob"%string.
  change (replace ".zip" "" "LambdaGlueJobSuccess.zip") with "LambdaGlueJobSuccess"%string.
  change (replace ".zip" "" "LambdaGlueJobFailure.zip") with "LambdaGlueJobFailure"%string.
  repeat split; try (by simplify_map_eq); set_solver.
Qed.

Lemma stack_params_Done (bucket : string) (lv : gmap string string)
    (tr tr' : trace) (params : list parameter) :
  stack_params bucket lv tr = Done params tr' ->
  tr' = tr
  /\ exists v1 v2 v3 v4,
      lv !! "SaveS3Config"%string = Some v1
      /\ lv !! "TriggerGlueJob"%string = Some v2
      /\ lv !! "LambdaGlueJobSuccess"%string = Some v3
      /\ lv !! "LambdaGlueJobFailure"%string = Some v4
      /\ params = stack_parameters bucket v1 v2 v3 v4.
Proof.
  unfold stack_params, getitem, bind, ret, raise.
  repeat case_match; intros; simplify_eq. split; [done|]. by eexists _, _, _, _.
Qed.

Lemma stack_params_Raised (bucket : string) (lv : gmap string string)
    (tr tr' : trace) (e : exn) :
  stack_params bucket lv tr = Raised e tr' -> tr' = tr.
Proof.
  unfold stack_params, getitem, bind, ret, raise.
  repeat case_match; intros; by simplify_eq.
Qed.

(** The stack calls of [deploy_stack] carry what it was given. *)
Lemma deploy_stack_calls (template_body : string) (params : list parameter)
    (tr : trace) :
  exists ext,
    trace_of (deploy_stack w template_body params tr) = tr ++ ext
    /\ forall stack t p c r,
        UpdateStack stack t p c r ∈ ext \/ CreateStack stack t p c r ∈ ext ->
        stack = STACK_NAME /\ t = template_body /\ p = params.
Proof.
  unfold_script. answer_cases;
    (eexists; split; [simpl; rewrite <- ?app_assoc; reflexivity|]);
    intros stack t p c r Hin; set_solver.
Qed.

Lemma quiet_app (ext1 ext2 : trace) : quiet ext1 -> quiet ext2 -> quiet (ext1 ++ ext2).
Proof. intros H1 H2. by apply Forall_app. Qed.

Lemma quiet_one (e : effect) : is_cloudformation e = false -> quiet [e].
Proof. intros He. by apply Forall_singleton. Qed.

(** Proves a trace quiet from its parts. *)
Ltac quiet_trace :=
  solve [repeat first [assumption | apply quiet_app | apply quiet_one; reflexivity]].

Lemma in_grown (e : effect) (tr ext : trace) : e ∈ tr -> e ∈ tr ++ ext.
Proof. intros He. apply elem_of_app. by left. Qed.

(** Finds in a trace that has grown what was in it before. *)
Ltac grown := solve [repeat first [assumption | apply in_grown]].

(** Takes the next block of a sequence, in both its outcomes. *)
Ltac next_block :=
  match goal with
  | |- context [bind ?m ?k ?tr] =>
      let Hm := fresh "Hblock" in
      destruct (bind_cases m k tr) as [(? & ? & Hm & ->) | (? & ? & Hm & ->)];
      [left; simpl | cbv beta]
  end.

(** Either [main] stops before it has called CloudFormation, or it comes
    to [deploy_stack] with versioning enabled, the four archives uploaded
    and the template read. *)
Lemma main_cases :
  quiet (trace_of (main w path []))
  \/ exists tr v1 v2 v3 v4 template_body,
      quiet tr
      /\ PutBucketVersioning deployment_bucket "Enabled" None ∈ tr
      /\ HeadObject deployment_bucket "lambdas/SaveS3Config.zip" (inr (Some v1)) ∈ tr
      /\ HeadObject deployment_bucket "lambdas/TriggerGlueJob.zip" (inr (Some v2)) ∈ tr
      /\ HeadObject deployment_bucket "lambdas/LambdaGlueJobSuccess.zip"
           (inr (Some v3)) ∈ tr
      /\ HeadObject deployment_bucket "lambdas/LambdaGlueJobFailure.zip"
           (inr (Some v4)) ∈ tr
      /\ ReadFile "template.yaml" (inr template_body) ∈ tr
      /\ main w path []
         = deploy_stack w template_body
             (stack_parameters deployment_bucket v1 v2 v3 v4) tr.
Proof.
  unfold main. cbv zeta.
  change (STACK_NAME +:+ "-deployment")%string with deployment_bucket.
  next_block.
  { by destruct (adds_Raised _ _ _ _ _ _ (quiet_ensure_bucket _) Hblock)
      as (ext & -> & Hq). }
  pose proof (ensure_bucket_Done _ _ _ _ Hblock) as Hversioning.
  destruct (adds_Done _ _ _ _ _ _ (quiet_ensure_bucket _) Hblock)
    as (ext1 & -> & Hq1).
  simpl in *. clear Hblock.
  next_block.
  { destruct (adds_Raised _ _ _ _ _ _ (quiet_upload_lambdas _) Hblock)
      as (ext & -> & Hq). quiet_trace. }
  pose proof (upload_lambdas_Done _ _ _ _ Hblock)
    as (v1 & v2 & v3 & v4 & Hl1 & Hl2 & Hl3 & Hl4 & Ho1 & Ho2 & Ho3 & Ho4).
  destruct (adds_Done _ _ _ _ _ _ (quiet_upload_lambdas _) Hblock)
    as (ext2 & -> & Hq2).
  clear Hblock.
  next_block.
  { destruct (adds_Raised _ _ _ _ _ _ (quiet_upload_scripts _) Hblock)
      as (ext & -> & Hq). quiet_trace. }
  destruct (adds_Done _ _ _ _ _ _ (quiet_upload_scripts _) Hblock)
    as (ext3 & -> & Hq3).
  clear Hblock.
  next_block.
  { revert Hblock. unfold request. destruct (read_file _ _ _); [|done].
    intros [= _ <-]. quiet_trace. }
  revert Hblock. unfold request.
  destruct (read_file _ _ _) as [|template_body] eqn:Hread; [done|].
  intros [= <- <-].
  next_block.
  { apply stack_params_Raised in Hblock as ->. quiet_trace. }
  apply stack_params_Done in Hblock
    as (-> & v1' & v2' & v3' & v4' & Hl1' & Hl2' & Hl3' & Hl4' & ->).
  rewrite Hl1 in Hl1'. injection Hl1' as <-.
  rewrite Hl2 in Hl2'. injection Hl2' as <-.
  rewrite Hl3 in Hl3'. injection Hl3' as <-.
  rewrite Hl4 in Hl4'. injection Hl4' as <-.
  right.
  match goal with
  | |- context [deploy_stack w _ _ ?tr] => exists tr, v1, v2, v3, v4, template_body
  end.
  split; [quiet_trace|].
  split; [grown|]. split; [grown|]. split; [grown|]. split; [grown|].
  split; [grown|]. split; [|reflexivity].
  apply elem_of_app. right. apply list_elem_of_here.
Qed.

(** X17.  [main] calls CloudFormation only once everything else is in
    place.  If the trace of a run holds any CloudFormation call, then it
    also holds the successful call that enabled versioning on the
    deployment bucket, a [head_object] answer with a version for each of
    the four Lambda archives, and the successful read of template.yaml;
    and every [update_stack] or [create_stack] in it is for
    [STACK_NAME], with that template and with those four versions as the
    parameters. *)
Theorem stack_gets_uploaded_versions (e : effect) :
  e ∈ trace_of (main w path []) ->
  is_cloudformation e = true ->
  exists v1 v2 v3 v4 template_body,
    PutBucketVersioning deployment_bucket "Enabled" None ∈ trace_of (main w path [])
    /\ HeadObject deployment_bucket "lambdas/SaveS3Config.zip" (inr (Some v1))
         ∈ trace_of (main w path [])
    /\ HeadObject deployment_bucket "lambdas/TriggerGlueJob.zip" (inr (Some v2))
         ∈ trace_of (main w path [])
    /\ HeadObject deployment_bucket "lambdas/LambdaGlueJobSuccess.zip" (inr (Some v3))
         ∈ trace_of (main w path [])
    /\ HeadObject deployment_bucket "lambdas/LambdaGlueJobFailure.zip" (inr (Some v4))
         ∈ trace_of (main w path [])
    /\ ReadFile "template.yaml" (inr template_body) ∈ trace_of (main w path [])
    /\ forall stack t p c r,
        UpdateStack stack t p c r ∈ trace_of (main w path [])
        \/ CreateStack stack t p c r ∈ trace_of (main w path []) ->
        stack = STACK_NAME /\ t = template_body
        /\ p = stack_parameters deployment_bucket v1 v2 v3 v4.
Proof.
  intros Hin Hcfn.
  destruct main_cases
    as [Hquiet | (tr & v1 & v2 & v3 & v4 & template_body & Hquiet & Hv & H1 & H2
                  & H3 & H4 & Hread & Hmain)].
  { unfold quiet in Hquiet. rewrite Forall_forall in Hquiet.
    rewrite (Hquiet _ Hin) in Hcfn. discriminate Hcfn. }
  rewrite Hmain in *.
  destruct (deploy_stack_calls template_body
              (stack_parameters deployment_bucket v1 v2 v3 v4) tr)
    as (ext & Hext & Hcalls).
  rewrite Hext in *.
  exists v1, v2, v3, v4, template_body.
  repeat (split; [set_solver|]).
  intros stack t p c r Hstack. apply (Hcalls stack t p c r).
  unfold quiet in Hquiet. rewrite Forall_forall in Hquiet.
  destruct Hstack as [[Hold | Hnew]%elem_of_app | [Hold | Hnew]%elem_of_app]; auto;
    by apply Hquiet in Hold.
Qed.

End Main.

Lemma stack_gets_uploaded_versions_witness :
  exists v1 v2 v3 v4 template_body,
    PutBucketVersioning deployment_bucket "Enabled" None
      ∈ trace_of (main fresh slash_paths [])
    /\ HeadObject deployment_bucket "lambdas/SaveS3Config.zip" (inr (Some v1))
         ∈ trace_of (main fresh slash_paths [])
    /\ HeadObject deployment_bucket "lambdas/TriggerGlueJob.zip" (inr (Some v2))
         ∈ trace_of (main fresh slash_paths [])
    /\ HeadObject deployment_bucket "lambdas/LambdaGlueJobSuccess.zip" (inr (Some v3))
         ∈ trace_of (main fresh slash_paths [])
    /\ HeadObject deployment_bucket "lambdas/LambdaGlueJobFailure.zip" (inr (Some v4))
         ∈ trace_of (main fresh slash_paths [])
    /\ ReadFile "template.yaml" (inr template_body)
         ∈ trace_of (main fresh slash_paths [])
    /\ forall stack t p c r,
        UpdateStack stack t p c r ∈ trace_of (main fresh slash_paths [])
        \/ CreateStack stack t p c r ∈ trace_of (main fresh slash_paths []) ->
        stack = STACK_NAME /\ t = template_body
        /\ p = stack_parameters deployment_bucket v1 v2 v3 v4.
Proof.
  apply (stack_gets_uploaded_versions fresh slash_paths
           (WaiterWait "stack_create_complete" STACK_NAME None)).
  - vm_compute. in_list.
  - reflexivity.
Defined.

(** ** Glue scripts *)

Lemma upload_files_ok (w : world) (path : os_path) (bucket root : string)
    (files : list string) (tr : trace) :
  (forall h f k, upload_file w h f bucket k = None) ->
  for_each files
    (fun f _ =>
       log "Uploading Glue script: %s" [("scripts/" +:+ f)%string] ;;
       attempt (fun tr => upload_file w tr (join path root f) bucket ("scripts/" +:+ f))
               (UploadFile (join path root f) bucket ("scripts/" +:+ f)))
    tt tr
  = Done tt (tr ++ (((fun file => (root, file)) <$> files)
                      ≫= uploaded_script path bucket)).
Proof.
  intros Hupload. revert tr. induction files as [|file files IH]; intros tr.
  - simpl. unfold ret. by rewrite app_nil_r.
  - cbn [for_each]. unfold bind at 1 2, log, attempt.
    rewrite Hupload, IH. cbn [fmap list_fmap mbind list_bind].
    unfold uploaded_script at 2. simpl. by rewrite <- !app_assoc.
Qed.

(** X18.  When every upload succeeds, [main]'s loop over the Glue
    scripts uploads each file that the walk of "glu_jobs" yields, once
    and in the order of the walk, from [join(root, file)] to the key
    "scripts/" followed by the bare file name: the directory of a file
    plays no part in its key. *)
Theorem scripts_are_uploaded_by_name (w : world) (path : os_path)
    (bucket : string) (tr : trace) :
  (forall h f k, upload_file w h f bucket k = None) ->
  upload_scripts w path bucket tr
  = Done tt (tr ++ [Walk "glu_jobs" (walk w tr "glu_jobs")]
                ++ (files_of (walk w tr "glu_jobs") ≫= uploaded_script path bucket)).
Proof.
  intros Hupload. unfold upload_scripts. cbv zeta. unfold bind at 1, observe.
  generalize (walk w tr "glu_jobs"). intros entries.
  rewrite (app_assoc tr). generalize (tr ++ [Walk "glu_jobs" entries]).
  induction entries as [|[[root dirs] files] entries IH]; intros tr1.
  - simpl. unfold ret. by rewrite app_nil_r.
  - cbn [for_each]. unfold bind at 1.
    rewrite (upload_files_ok w path bucket root files tr1 Hupload), IH.
    unfold files_of. cbn [mbind list_bind]. fold (files_of entries).
    by rewrite bind_app, app_assoc.
Qed.

Lemma scripts_are_uploaded_by_name_witness :
  upload_scripts calm slash_paths "bucket" []
  = Done tt ([] ++ [Walk "glu_jobs" (walk calm [] "glu_jobs")]
                ++ (files_of (walk calm [] "glu_jobs")
                    ≫= uploaded_script slash_paths "bucket")).
Proof.
  apply (scripts_are_uploaded_by_name calm slash_paths "bucket" []).
  reflexivity.
Defined.

End DeployFacts.
